(** * The web viewer's pixel pipeline: grayscale, blur, Sobel, double threshold

    A shallow embedding of the two TypeScript implementations of the pipeline,
    [ImageProcessor] (web/src/utils/imageProcessor.ts) and [FrameViewer]
    (frameViewer.ts), of the option setters of [FrameViewer] and of the
    application class [App] that drives [ImageProcessor], and the properties
    of the pipeline stated over them.

    Conventions of the embedding.
    - A JavaScript [number] that takes part in pixel arithmetic is an IEEE 754
      binary64 value: Rocq's primitive [float], whose operations are the
      correctly rounded ones JavaScript uses.
    - Loop counters, array indices and image dimensions are integers in the
      source (they come from [ImageData] and from [parseInt]) and are [Z] here.
    - A [Uint8ClampedArray] is a [list Z] of bytes; a store converts the number
      with [ToUint8Clamp] and is dropped when the index is out of range, a
      load out of range gives [undefined], which is [NaN] in arithmetic.
    - [ImageData] objects live in a heap and are passed by reference, so that
      in-place mutation and aliasing are visible.
    - [Math.exp], which ECMAScript leaves implementation-approximated, is a
      parameter of [ImageProcessor]; concrete runs use the series
      [exp_series].
    - [drawImage], which composites the image over what the canvas holds
      with the browser's own arithmetic, is a parameter of [App]; concrete
      runs use [source_over].
    - The artificial delay of [FrameViewer.processImage], the timing and the
      frame counters do not touch the pixels and are left out. *)

From Stdlib Require Import ZArith List Bool Lia Floats FinFun.
Import ListNotations.

Set Warnings "-inexact-float".
Open Scope Z_scope.

(** ** JavaScript values *)

Module JS.

Definition number := float.
Bind Scope float_scope with number.

Definition NaN : number := nan.

(** The number with the value of an integer (exact below 2^53). *)
Definition of_int (z : Z) : number :=
  match z with
  | Z0 => 0%float
  | Zpos _ => of_uint63 (Uint63.of_Z z)
  | Zneg p => (- of_uint63 (Uint63.of_Z (Zpos p)))%float
  end.

Definition isNaN (x : number) : bool := negb (x =? x)%float.

(** [floor_from x k n] is the largest integer [j] in [k .. k+n] with
    [j <= x], for [k <= x < k+n+1]. *)
Fixpoint floor_from (x : number) (k : Z) (fuel : nat) : Z :=
  match fuel with
  | O => k
  | S n => if (x <? of_int (k + 1))%float then k else floor_from x (k + 1) n
  end.

(** ECMAScript's ToUint8Clamp: clamp to [0, 255], round to nearest, ties to
    even; [NaN] becomes 0. *)
Definition ToUint8Clamp (x : number) : Z :=
  if isNaN x then 0
  else if (x <=? 0)%float then 0
  else if (255 <=? x)%float then 255
  else
    let f := floor_from x 0 254 in
    let half := (of_int f + 0.5)%float in
    if (half <? x)%float then f + 1
    else if (x <? half)%float then f
    else if Z.even f then f else f + 1.

(** *** Typed arrays *)

Definition Uint8ClampedArray := list Z.

Fixpoint update {A : Type} (n : nat) (v : A) (l : list A) : list A :=
  match l, n with
  | [], _ => []
  | _ :: t, O => v :: t
  | h :: t, S n' => h :: update n' v t
  end.

(** [new Uint8ClampedArray(n)] *)
Definition zeros (n : Z) : Uint8ClampedArray := repeat 0 (Z.to_nat n).

(** [a[i]] read as an operand of arithmetic. *)
Definition get (a : Uint8ClampedArray) (i : Z) : number :=
  if i <? 0 then NaN
  else match nth_error a (Z.to_nat i) with
       | Some v => of_int v
       | None => NaN
       end.

(** [a[i] = v] *)
Definition set (a : Uint8ClampedArray) (i : Z) (v : number) : Uint8ClampedArray :=
  if (0 <=? i) && (i <? Z.of_nat (length a))
  then update (Z.to_nat i) (ToUint8Clamp v) a
  else a.

(** [k[i]] for an array of numbers, read as an operand of arithmetic. *)
Definition at_ (k : list number) (i : Z) : number :=
  if i <? 0 then NaN else nth (Z.to_nat i) k NaN.

(** *** Loops *)

(** The values [lo, lo+1, ..., hi-1]. *)
Definition range (lo hi : Z) : list Z :=
  map (fun k => lo + Z.of_nat k) (seq 0 (Z.to_nat (hi - lo))).

(** [for (let i = lo; i < hi; i++) body] *)
Definition for_lt {S : Type} (lo hi : Z) (body : Z -> S -> S) (s : S) : S :=
  fold_left (fun s i => body i s) (range lo hi) s.

(** [for (let i = lo; i <= hi; i++) body] *)
Definition for_le {S : Type} (lo hi : Z) (body : Z -> S -> S) (s : S) : S :=
  for_lt lo (hi + 1) body s.

(** [for (let i = 0; i < len; i += 4) body] *)
Definition for_by4 {S : Type} (len : Z) (body : Z -> S -> S) (s : S) : S :=
  fold_left (fun s p => body (4 * p) s) (range 0 ((len + 3) / 4)) s.

(** *** Abrupt completion *)

Inductive Error := TypeError.

Inductive completion (A : Type) : Type :=
| Normal (a : A)
| Abrupt (e : Error).
Arguments Normal {A} a.
Arguments Abrupt {A} e.

Fixpoint fold_c {S : Type} (body : Z -> S -> completion S) (l : list Z) (s : S)
  : completion S :=
  match l with
  | [] => Normal s
  | i :: l' =>
      match body i s with
      | Normal s' => fold_c body l' s'
      | Abrupt e => Abrupt e
      end
  end.

(** The two counting loops with a body that may throw. *)
Definition for_lt_c {S : Type} (lo hi : Z) (body : Z -> S -> completion S) (s : S) :=
  fold_c body (range lo hi) s.

Definition for_le_c {S : Type} (lo hi : Z) (body : Z -> S -> completion S) (s : S) :=
  for_lt_c lo (hi + 1) body s.

End JS.

Import JS.

(** ** Image data and the heap *)

Record ImageData := mkImageData {
  width : Z;
  height : Z;
  data : Uint8ClampedArray
}.

(** [new ImageData(width, height)]: transparent black. *)
Definition new_ImageData (w h : Z) : ImageData :=
  mkImageData w h (zeros (4 * w * h)).

Definition byteb (v : Z) : bool := (0 <=? v) && (v <=? 255).

(** What the browser guarantees of every [ImageData]: positive dimensions and
    four bytes per pixel. *)
Definition well_formed (img : ImageData) : bool :=
  (0 <? width img) && (0 <? height img)
  && (Z.of_nat (length (data img)) =? 4 * width img * height img)
  && forallb byteb (data img).

Definition ref := nat.
Definition heap := list ImageData.

Inductive outcome (A : Type) : Type :=
| Done (a : A) (h : heap)
| Raised (e : Error) (h : heap).
Arguments Done {A} a h.
Arguments Raised {A} e h.

Definition heap_of {A : Type} (o : outcome A) : heap :=
  match o with Done _ h => h | Raised _ h => h end.

Definition M (A : Type) := heap -> outcome A.

Definition ret {A : Type} (a : A) : M A := fun h => Done a h.

Definition bind {A B : Type} (m : M A) (k : A -> M B) : M B :=
  fun h => match m h with
           | Done a h' => k a h'
           | Raised e h' => Raised e h'
           end.

Notation "x <- m ;; k" := (bind m (fun x => k))
  (at level 61, m at next level, right associativity).

Definition throw {A : Type} (e : Error) : M A := fun h => Raised e h.

Definition alloc (img : ImageData) : M ref :=
  fun h => Done (length h) (h ++ [img]).

Definition load (r : ref) : M ImageData :=
  fun h => match nth_error h r with
           | Some img => Done img h
           | None => Raised TypeError h
           end.

(** [r.data] replaced by [d], as the net effect of a loop that stores into it. *)
Definition store_data (r : ref) (d : Uint8ClampedArray) : M unit :=
  fun h => match nth_error h r with
           | Some img => Done tt (update r (mkImageData (width img) (height img) d) h)
           | None => Raised TypeError h
           end.

Definition lift {A : Type} (c : completion A) : M A :=
  match c with
  | Normal a => ret a
  | Abrupt e => throw e
  end.

(** ** Code shared, word for word, by the two implementations *)

(** The Sobel operators, [sobelX] and [sobelY]. *)
Definition sobelX : list number := [-1; 0; 1; -2; 0; 2; -1; 0; 1]%float.
Definition sobelY : list number := [-1; -2; -1; 0; 0; 0; 1; 2; 1]%float.

(** The convolution at pixel [(x, y)]: the two inner loops over [ky] and [kx]
    of [applySobel] and [applySobelEdgeDetection], giving [(gx, gy)]. *)
Definition convolve (data : Uint8ClampedArray) (width x y : Z) : number * number :=
  for_le (-1) 1 (fun ky acc =>
    for_le (-1) 1 (fun kx '(gx, gy) =>
      let idx := ((y + ky) * width + (x + kx)) * 4 in
      let kernelIdx := (ky + 1) * 3 + (kx + 1) in
      ((gx + get data idx * at_ sobelX kernelIdx)%float,
       (gy + get data idx * at_ sobelY kernelIdx)%float)) acc)
    (0%float, 0%float).

(** [Math.sqrt(gx * gx + gy * gy)] *)
Definition magnitude (g : number * number) : number :=
  let '(gx, gy) := g in sqrt (gx * gx + gy * gy)%float.

(** The level the double threshold selects: the [if / else if / else] chain. *)
Definition classify (m lowThreshold highThreshold : number) : number :=
  if (highThreshold <? m)%float then 255%float
  else if (lowThreshold <? m)%float then 128%float
  else 0%float.

(** ** frameViewer.ts *)

Module FrameViewer.

Record ViewerOptions := mkViewerOptions {
  grayscale : bool;
  edgeDetection : bool
}.

Record ProcessingOptions := mkProcessingOptions {
  threshold1 : number;
  threshold2 : number;
  blurSize : Z
}.

Record t := mkFrameViewer {
  currentImage : bool;                (* an image is loaded: not null *)
  originalImageData : option ref;
  options : ViewerOptions;
  processingOptions : ProcessingOptions;
  isProcessing : bool;
  canvas : Uint8ClampedArray          (* what putImageData last drew *)
}.

(** The grayscale loop of [processImage]; the chained assignment stores
    right to left. *)
Definition grayscale_loop (data : Uint8ClampedArray) : Uint8ClampedArray :=
  for_by4 (Z.of_nat (length data)) (fun i data =>
    let gray := (get data i * 0.299 + get data (i + 1) * 0.587
                 + get data (i + 2) * 0.114)%float in
    let data := set data (i + 2) gray in
    let data := set data (i + 1) gray in
    set data i gray) data.

(** The two inner loops of [applyGaussianBlur]: [(r, g, b, count)]. *)
Definition box_sums (temp : Uint8ClampedArray) (width height size x y : Z)
  : number * number * number * number :=
  for_le (- size) size (fun dy acc =>
    for_le (- size) size (fun dx '(r, g, b, count) =>
      let nx := x + dx in
      let ny := y + dy in
      if (0 <=? nx) && (nx <? width) && (0 <=? ny) && (ny <? height) then
        let i := (ny * width + nx) * 4 in
        ((r + get temp i)%float, (g + get temp (i + 1))%float,
         (b + get temp (i + 2))%float, (count + 1)%float)
      else (r, g, b, count)) acc)
    (0%float, 0%float, 0%float, 0%float).

(** The contents of [imageData.data] when [applyGaussianBlur] returns. *)
Definition blur_loop (img : ImageData) (size : Z) : Uint8ClampedArray :=
  let width := width img in
  let height := height img in
  let temp := data img in
  for_lt 0 height (fun y data =>
    for_lt 0 width (fun x data =>
      let '(r, g, b, count) := box_sums temp width height size x y in
      let i := (y * width + x) * 4 in
      let data := set data i (r / count)%float in
      let data := set data (i + 1) (g / count)%float in
      set data (i + 2) (b / count)%float) data)
    (data img).

Definition applyGaussianBlur (imageData : ref) (size : Z) : M unit :=
  img <- load imageData ;;
  store_data imageData (blur_loop img size).

(** The array [applySobel] returns. *)
Definition sobel_loop (img : ImageData) (lowThreshold highThreshold : number)
  : Uint8ClampedArray :=
  let width := width img in
  let height := height img in
  let output := zeros (width * height) in
  for_lt 1 (height - 1) (fun y output =>
    for_lt 1 (width - 1) (fun x output =>
      let m := magnitude (convolve (data img) width x y) in
      let idx := y * width + x in
      if (highThreshold <? m)%float then set output idx 255%float
      else if (lowThreshold <? m)%float then set output idx 128%float
      else set output idx 0%float) output)
    output.

Definition applySobel (imageData : ref) (lowThreshold highThreshold : number)
  : M Uint8ClampedArray :=
  img <- load imageData ;;
  ret (sobel_loop img lowThreshold highThreshold).

(** The loop of [processImage] that copies the edge map back. *)
Definition copy_back (edges data : Uint8ClampedArray) : Uint8ClampedArray :=
  for_by4 (Z.of_nat (length data)) (fun i data =>
    let edgeValue := get edges (i / 4) in
    let data := set data (i + 2) edgeValue in
    let data := set data (i + 1) edgeValue in
    let data := set data i edgeValue in
    set data (i + 3) 255%float) data.

Definition processImage (v : t) (imageData : ref) : M unit :=
  _ <- (if grayscale (options v) || edgeDetection (options v) then
          img <- load imageData ;;
          store_data imageData (grayscale_loop (data img))
        else ret tt) ;;
  if edgeDetection (options v) then
    let o := processingOptions v in
    _ <- applyGaussianBlur imageData (blurSize o) ;;
    edges <- applySobel imageData (threshold1 o) (threshold2 o) ;;
    img <- load imageData ;;
    store_data imageData (copy_back edges (data img))
  else ret tt.

Definition setLoading (loading : bool) (v : t) : t :=
  mkFrameViewer (currentImage v) (originalImageData v) (options v)
                (processingOptions v) loading (canvas v).

Definition putImageData (d : Uint8ClampedArray) (v : t) : t :=
  mkFrameViewer (currentImage v) (originalImageData v) (options v)
                (processingOptions v) (isProcessing v) d.

(** [render]: process a copy of the original and draw it. The timing and
    the frame counter are left out. *)
Definition render (v : t) : M t :=
  match originalImageData v with
  | None => ret v
  | Some original =>
      if negb (currentImage v) || isProcessing v then ret v
      else
        let v := setLoading true v in
        o <- load original ;;
        imageData <- alloc (mkImageData (width o) (height o) (data o)) ;;
        _ <- processImage v imageData ;;
        shown <- load imageData ;;
        ret (setLoading false (putImageData (data shown) v))
  end.


Record PartialProcessingOptions := mkPartialProcessingOptions {
  threshold1_given : option number;
  threshold2_given : option number;
  blurSize_given : option Z
}.

(** One field of [{ ...old, ...given }]. *)
Definition spread {A : Type} (old : A) (given : option A) : A :=
  match given with
  | Some x => x
  | None => old
  end.

Definition with_options (o : ViewerOptions) (v : t) : t :=
  mkFrameViewer (currentImage v) (originalImageData v) o
                (processingOptions v) (isProcessing v) (canvas v).

Definition with_processingOptions (o : ProcessingOptions) (v : t) : t :=
  mkFrameViewer (currentImage v) (originalImageData v) (options v)
                o (isProcessing v) (canvas v).


(** Redraws only when edge detection is enabled. *)
Definition setProcessingOptions (given : PartialProcessingOptions) (v : t) : M t :=
  let o := processingOptions v in
  let v := with_processingOptions
             (mkProcessingOptions (spread (threshold1 o) (threshold1_given given))
                                  (spread (threshold2 o) (threshold2_given given))
                                  (spread (blurSize o) (blurSize_given given)))
             v in
  if edgeDetection (options v) then render v else ret v.

Definition toggleGrayscale (v : t) : M t :=
  let o := options v in
  render (with_options (mkViewerOptions (negb (grayscale o)) (edgeDetection o)) v).

Definition toggleEdgeDetection (v : t) : M t :=
  let o := options v in
  render (with_options (mkViewerOptions (grayscale o) (negb (edgeDetection o))) v).

End FrameViewer.

(** ** web/src/utils/imageProcessor.ts *)

Module ImageProcessor.

Record ProcessingOptions := mkProcessingOptions {
  threshold1 : number;
  threshold2 : number;
  blurSize : Z;
  grayscale : bool;
  edgeDetection : bool
}.

Definition grayscale_loop (data : Uint8ClampedArray) : Uint8ClampedArray :=
  for_by4 (Z.of_nat (length data)) (fun i data =>
    let gray := (get data i * 0.299 + get data (i + 1) * 0.587
                 + get data (i + 2) * 0.114)%float in
    let data := set data i gray in
    let data := set data (i + 1) gray in
    set data (i + 2) gray) data.

(** Mutates [imageData.data] and returns the object it was given. *)
Definition convertToGrayscale (imageData : ref) : M ref :=
  img <- load imageData ;;
  _ <- store_data imageData (grayscale_loop (data img)) ;;
  ret imageData.

(** [kernel[i][j]]: indexing the missing row [kernel[i]] throws, a missing
    entry of a row is [undefined]. *)
Definition kernel_at (kernel : list (list number)) (i j : Z) : completion number :=
  if i <? 0 then Abrupt TypeError
  else match nth_error kernel (Z.to_nat i) with
       | None => Abrupt TypeError
       | Some row => Normal (at_ row j)
       end.

(** The level stored by the double threshold of [applySobelEdgeDetection],
    and the four stores of one pixel. *)
Definition sobel_loop (img : ImageData) (lowThreshold highThreshold : number)
  : Uint8ClampedArray :=
  let width := width img in
  let height := height img in
  let output := data (new_ImageData width height) in
  for_lt 1 (height - 1) (fun y output =>
    for_lt 1 (width - 1) (fun x output =>
      let m := magnitude (convolve (data img) width x y) in
      let outIdx := (y * width + x) * 4 in
      let output :=
        if (highThreshold <? m)%float then
          let output := set output (outIdx + 2) 255%float in
          let output := set output (outIdx + 1) 255%float in
          set output outIdx 255%float
        else if (lowThreshold <? m)%float then
          let output := set output (outIdx + 2) 128%float in
          let output := set output (outIdx + 1) 128%float in
          set output outIdx 128%float
        else
          let output := set output (outIdx + 2) 0%float in
          let output := set output (outIdx + 1) 0%float in
          set output outIdx 0%float in
      set output (outIdx + 3) 255%float) output)
    output.

Definition applySobelEdgeDetection (imageData : ref)
           (lowThreshold highThreshold : number) : M ref :=
  img <- load imageData ;;
  alloc (mkImageData (width img) (height img)
                     (sobel_loop img lowThreshold highThreshold)).

Section WithExp.

(** [Math.exp], which ECMAScript leaves implementation-approximated. *)
Variable Math_exp : number -> number.

Definition createGaussianKernel (size : Z) (sigma : number) : list (list number) :=
  let center := size / 2 in
  map (fun y =>
    map (fun x =>
      let dx := x - center in
      let dy := y - center in
      Math_exp (- of_int (dx * dx + dy * dy) / (2 * sigma * sigma))%float)
      (range 0 size))
    (range 0 size).

(** The two inner loops of [applyGaussianBlur]: [(r, g, b, weightSum)]. *)
Definition weighted_sums (kernel : list (list number)) (data : Uint8ClampedArray)
           (width height radius x y : Z)
  : completion (number * number * number * number) :=
  for_le_c (- radius) radius (fun ky acc =>
    for_le_c (- radius) radius (fun kx '(r, g, b, weightSum) =>
      let px := Z.min (Z.max (x + kx) 0) (width - 1) in
      let py := Z.min (Z.max (y + ky) 0) (height - 1) in
      match kernel_at kernel (ky + radius) (kx + radius) with
      | Abrupt e => Abrupt e
      | Normal weight =>
          let idx := (py * width + px) * 4 in
          Normal ((r + get data idx * weight)%float,
                  (g + get data (idx + 1) * weight)%float,
                  (b + get data (idx + 2) * weight)%float,
                  (weightSum + weight)%float)
      end) acc)
    (0%float, 0%float, 0%float, 0%float).

(** The contents of [output.data] when [applyGaussianBlur] returns. *)
Definition blur_loop (img : ImageData) (kernelSize : Z)
  : completion Uint8ClampedArray :=
  let width := width img in
  let height := height img in
  let output := data (new_ImageData width height) in
  let data := data img in
  let sigma := (of_int kernelSize / 3)%float in
  let kernel := createGaussianKernel kernelSize sigma in
  let radius := kernelSize / 2 in
  for_lt_c 0 height (fun y output =>
    for_lt_c 0 width (fun x output =>
      match weighted_sums kernel data width height radius x y with
      | Abrupt e => Abrupt e
      | Normal (r, g, b, weightSum) =>
          let outIdx := (y * width + x) * 4 in
          let output := set output outIdx (r / weightSum)%float in
          let output := set output (outIdx + 1) (g / weightSum)%float in
          let output := set output (outIdx + 2) (b / weightSum)%float in
          Normal (set output (outIdx + 3) (get data ((y * width + x) * 4 + 3)))
      end) output)
    output.

Definition applyGaussianBlur (imageData : ref) (kernelSize : Z) : M ref :=
  img <- load imageData ;;
  output <- alloc (new_ImageData (width img) (height img)) ;;
  d <- lift (blur_loop img kernelSize) ;;
  _ <- store_data output d ;;
  ret output.

(** [processImage], without the timing. *)
Definition processImage (imageData : ref) (options : ProcessingOptions) : M ref :=
  let processedData := imageData in
  processedData <-
    (if grayscale options || edgeDetection options
     then convertToGrayscale processedData
     else ret processedData) ;;
  if edgeDetection options then
    processedData <- applyGaussianBlur processedData (blurSize options) ;;
    applySobelEdgeDetection processedData (threshold1 options) (threshold2 options)
  else ret processedData.

End WithExp.

End ImageProcessor.

(** ** The application around [ImageProcessor] (class [App]) *)

Module App.

(** The loaded image is held as its decoded pixels. The canvas has the size
    of the image ([handleFileSelect] sets it when the image is loaded), and
    [canvas] is what [getImageData] would read from it. *)
Record t := mkApp {
  currentImage : option ImageData;
  processingOptions : ImageProcessor.ProcessingOptions;
  isProcessing : bool;
  canvas : Uint8ClampedArray
}.

Definition with_processingOptions (o : ImageProcessor.ProcessingOptions) (a : t) : t :=
  mkApp (currentImage a) o (isProcessing a) (canvas a).

Definition with_isProcessing (b : bool) (a : t) : t :=
  mkApp (currentImage a) (processingOptions a) b (canvas a).

Definition with_canvas (d : Uint8ClampedArray) (a : t) : t :=
  mkApp (currentImage a) (processingOptions a) (isProcessing a) d.


Section WithBrowser.

Variable Math_exp : number -> number.

(** [ctx.drawImage(image, 0, 0)]: the pixels of the canvas once the image is
    composited over the pixels it held. [processImage] never clears the
    canvas, so what is drawn lands on the previous picture; the arithmetic
    of the compositing is the browser's and is a parameter. *)
Variable drawImage : ImageData -> Uint8ClampedArray -> Uint8ClampedArray.

(** [processImage]: the fields of the application when the call ends, and how
    it ends. The 2D context exists (the constructor of [ImageProcessor] got
    it); the loading overlay, the timing and the frame counter are left out. *)
Definition processImage (a : t) (h : heap) : t * outcome unit :=
  match currentImage a with
  | None => (a, Done tt h)
  | Some image =>
      if isProcessing a then (a, Done tt h)
      else
        let a := with_isProcessing true a in
        let a := with_canvas (drawImage image (canvas a)) a in
        match (imageData <- alloc (mkImageData (width image) (height image) (canvas a)) ;;
               processed <- ImageProcessor.processImage Math_exp imageData
                                                        (processingOptions a) ;;
               load processed) h with
        | Done processedImageData h' =>
            (with_isProcessing false (with_canvas (data processedImageData) a),
             Done tt h')
        | Raised e h' => (a, Raised e h')
        end
  end.




End WithBrowser.

End App.

(** ** Vocabulary of the statements *)

(** The byte at index [i], when there is one. *)
Definition peek (a : Uint8ClampedArray) (i : Z) : option Z :=
  if i <? 0 then None else nth_error a (Z.to_nat i).

(** A sequence of stores [a[i] = v], first to last. *)
Definition apply_writes (ws : list (Z * number)) (a : Uint8ClampedArray)
  : Uint8ClampedArray :=
  fold_left (fun a w => set a (fst w) (snd w)) ws a.

Definition in_image (img : ImageData) (x y : Z) : Prop :=
  0 <= x < width img /\ 0 <= y < height img.

Definition interior (img : ImageData) (x y : Z) : Prop :=
  1 <= x < width img - 1 /\ 1 <= y < height img - 1.

(** Row 0, the last row, column 0 and the last column. *)
Definition border (img : ImageData) (x y : Z) : Prop :=
  in_image img x y /\ (x = 0 \/ x = width img - 1 \/ y = 0 \/ y = height img - 1).

(** Every element is a byte. *)
Definition bytes (a : Uint8ClampedArray) : Prop := forallb byteb a = true.

(** The luminance of one pixel as the grayscale loops store it. *)
Definition luma (r g b : Z) : Z :=
  ToUint8Clamp (of_int r * 0.299 + of_int g * 0.587 + of_int b * 0.114)%float.

(** The grayscale conversion pixel by pixel; the last three cases are an array
    whose length is not a multiple of four. *)
Fixpoint gray_pixels (d : list Z) : list Z :=
  match d with
  | r :: g :: b :: a :: rest =>
      luma r g b :: luma r g b :: luma r g b :: a :: gray_pixels rest
  | [r; g; b] => [luma r g b; luma r g b; luma r g b]
  | [_; _] => [0; 0]
  | [_] => [0]
  | [] => []
  end.

(** What one iteration of a grayscale loop does at the head of the array. *)
Definition gray_step (d : list Z) : list Z :=
  match d with
  | r :: g :: b :: rest => luma r g b :: luma r g b :: luma r g b :: rest
  | [_; _] => [0; 0]
  | [_] => [0]
  | [] => []
  end.

(** A polynomial approximation of the exponential in binary64, accurate on
    the interval [-9/4, 0] the Gaussian kernel evaluates it on: one admissible
    [Math.exp]. *)
Fixpoint horner (x : number) (k : nat) (n acc : number) : number :=
  match k with
  | O => acc
  | S k' => horner x k' (n - 1)%float (1 + x / n * acc)%float
  end.

Definition exp_series (x : number) : number := horner x 40 40%float 1%float.

(** All the stores of the two Sobel loops, in the order they happen. *)
Definition FV_sobel_writes (img : ImageData) (low high : number) : list (Z * number) :=
  flat_map (fun y =>
    flat_map (fun x =>
      [(y * width img + x,
        classify (magnitude (convolve (data img) (width img) x y)) low high)])
      (range 1 (width img - 1)))
    (range 1 (height img - 1)).

Definition IP_sobel_writes (img : ImageData) (low high : number) : list (Z * number) :=
  flat_map (fun y =>
    flat_map (fun x =>
      let c := classify (magnitude (convolve (data img) (width img) x y)) low high in
      let outIdx := (y * width img + x) * 4 in
      [(outIdx + 2, c); (outIdx + 1, c); (outIdx, c); (outIdx + 3, 255%float)])
      (range 1 (width img - 1)))
    (range 1 (height img - 1)).

(** The red sample of pixel [(x, y)]. *)
Definition red (data : Uint8ClampedArray) (width x y : Z) : number :=
  get data ((y * width + x) * 4).

(** The two Sobel sums written out, in the order the loops add them. *)
Definition Gx (data : Uint8ClampedArray) (w x y : Z) : number :=
  (0 + red data w (x + -1) (y + -1) * -1 + red data w (x + 0) (y + -1) * 0
     + red data w (x + 1) (y + -1) * 1
     + red data w (x + -1) (y + 0) * -2 + red data w (x + 0) (y + 0) * 0
     + red data w (x + 1) (y + 0) * 2
     + red data w (x + -1) (y + 1) * -1 + red data w (x + 0) (y + 1) * 0
     + red data w (x + 1) (y + 1) * 1)%float.

Definition Gy (data : Uint8ClampedArray) (w x y : Z) : number :=
  (0 + red data w (x + -1) (y + -1) * -1 + red data w (x + 0) (y + -1) * -2
     + red data w (x + 1) (y + -1) * -1
     + red data w (x + -1) (y + 0) * 0 + red data w (x + 0) (y + 0) * 0
     + red data w (x + 1) (y + 0) * 0
     + red data w (x + -1) (y + 1) * 1 + red data w (x + 0) (y + 1) * 2
     + red data w (x + 1) (y + 1) * 1)%float.


(** *** Smoothing, as the specification words it *)

(** The square of side [2r+1] centred on [(x, y)], row by row. *)
Definition square (r x y : Z) : list (Z * Z) :=
  flat_map (fun dy => map (fun dx => (x + dx, y + dy)) (range (- r) (r + 1)))
           (range (- r) (r + 1)).

Definition inside (w h : Z) (p : Z * Z) : bool :=
  (0 <=? fst p) && (fst p <? w) && (0 <=? snd p) && (snd p <? h).

(** The samples of the square that fall inside the buffer. *)
Definition neighbourhood (w h r x y : Z) : list (Z * Z) :=
  filter (inside w h) (square r x y).

(** Channel [c] of the pixel at position [p]. *)
Definition sample (data : Uint8ClampedArray) (w c : Z) (p : Z * Z) : number :=
  get data ((snd p * w + fst p) * 4 + c).

Definition total (l : list number) : number := fold_left PrimFloat.add l 0%float.

(** The number of elements, counted in binary64 as the loop counts them. *)
Definition count {A : Type} (l : list A) : number :=
  fold_left (fun n _ => (n + 1)%float) l 0%float.

(** The unweighted average of channel [c] over the in-bounds neighbourhood. *)
Definition box_average (data : Uint8ClampedArray) (w h r x y c : Z) : number :=
  (total (map (sample data w c) (neighbourhood w h r x y))
   / count (neighbourhood w h r x y))%float.

(** All the stores of [FrameViewer.applyGaussianBlur]. *)
Definition FV_blur_writes (img : ImageData) (size : Z) : list (Z * number) :=
  flat_map (fun y =>
    flat_map (fun x =>
      let avg := box_average (data img) (width img) (height img) size x y in
      let i := (y * width img + x) * 4 in
      [(i, avg 0); (i + 1, avg 1); (i + 2, avg 2)])
      (range 0 (width img)))
    (range 0 (height img)).


(** The offsets [(kx, ky)] of a kernel of radius [r], row by row. *)
Definition offsets (r : Z) : list (Z * Z) :=
  flat_map (fun ky => map (fun kx => (kx, ky)) (range (- r) (r + 1)))
           (range (- r) (r + 1)).

(** The weight [createGaussianKernel] gives the offset [(kx, ky)]. *)
Definition gaussian (Math_exp : number -> number) (kernelSize : Z) (k : Z * Z)
  : number :=
  let sigma := (of_int kernelSize / 3)%float in
  Math_exp (- of_int (fst k * fst k + snd k * snd k)%Z / (2 * sigma * sigma))%float.

(** A position moved to the nearest pixel of the buffer. *)
Definition clamped (w h : Z) (p : Z * Z) : Z * Z :=
  (Z.min (Z.max (fst p) 0) (w - 1), Z.min (Z.max (snd p) 0) (h - 1)).

(** The weighted sum of channel [c] over the whole square, every position
    clamped into the buffer. *)
Definition clamped_sum (Math_exp : number -> number) (data : Uint8ClampedArray)
           (w h kernelSize x y c : Z) : number :=
  fold_left (fun acc k =>
               (acc + sample data w c (clamped w h ((x + fst k)%Z, (y + snd k)%Z))
                      * gaussian Math_exp kernelSize k)%float)
            (offsets (kernelSize / 2)) 0%float.

(** The sum of all the weights of the kernel. *)
Definition kernel_sum (Math_exp : number -> number) (kernelSize : Z) : number :=
  fold_left (fun acc k => (acc + gaussian Math_exp kernelSize k)%float)
            (offsets (kernelSize / 2)) 0%float.

Definition clamped_average (Math_exp : number -> number) (data : Uint8ClampedArray)
           (w h kernelSize x y c : Z) : number :=
  (clamped_sum Math_exp data w h kernelSize x y c / kernel_sum Math_exp kernelSize)%float.

(** The average the specification describes for a weighted kernel: only the
    in-bounds samples contribute, and the divisor is the sum of their weights. *)
Definition excluded_average (Math_exp : number -> number) (data : Uint8ClampedArray)
           (w h kernelSize x y c : Z) : number :=
  let inb := filter (fun k => inside w h (x + fst k, y + snd k))
                    (offsets (kernelSize / 2)) in
  (fold_left (fun acc k =>
                (acc + sample data w c ((x + fst k)%Z, (y + snd k)%Z)
                       * gaussian Math_exp kernelSize k)%float) inb 0
   / fold_left (fun acc k => (acc + gaussian Math_exp kernelSize k)%float) inb 0)%float.

(** All the stores of [ImageProcessor.applyGaussianBlur]. *)
Definition IP_blur_writes (Math_exp : number -> number) (img : ImageData)
           (kernelSize : Z) : list (Z * number) :=
  flat_map (fun y =>
    flat_map (fun x =>
      let avg := clamped_average Math_exp (data img) (width img) (height img)
                                 kernelSize x y in
      let outIdx := (y * width img + x) * 4 in
      [(outIdx, avg 0); (outIdx + 1, avg 1); (outIdx + 2, avg 2);
       (outIdx + 3, get (data img) ((y * width img + x) * 4 + 3))])
      (range 0 (width img)))
    (range 0 (height img)).


(** All the stores of the loop of [FrameViewer.processImage] that copies the
    edge map back. *)
Definition FV_copy_writes (edges : Uint8ClampedArray) (len : Z) : list (Z * number) :=
  flat_map (fun p =>
    let i := 4 * p in
    let edgeValue := get edges (i / 4) in
    [(i + 2, edgeValue); (i + 1, edgeValue); (i, edgeValue); (i + 3, 255%float)])
    (range 0 ((len + 3) / 4)).

(** [counts_exact n k acc]: adding 1 to [acc] gives the numbers of the integers
    [k+1 .. k+n], one after the other. *)
Fixpoint counts_exact (fuel : nat) (k : Z) (acc : number) : bool :=
  match fuel with
  | O => true
  | S f =>
      PrimFloat.Leibniz.eqb (acc + 1)%float (of_int (k + 1))
      && counts_exact f (k + 1) (acc + 1)%float
  end.

(** *** The pipelines as functions of the pixels *)

Definition with_data (img : ImageData) (d : Uint8ClampedArray) : ImageData :=
  mkImageData (width img) (height img) d.

(** What [FrameViewer.processImage] leaves in the buffer it is given. *)
Definition FV_pipeline (v : FrameViewer.t) (img : ImageData) : Uint8ClampedArray :=
  let opts := FrameViewer.options v in
  let po := FrameViewer.processingOptions v in
  let d1 := if FrameViewer.grayscale opts || FrameViewer.edgeDetection opts
            then FrameViewer.grayscale_loop (data img) else data img in
  if FrameViewer.edgeDetection opts then
    let d2 := FrameViewer.blur_loop (with_data img d1) (FrameViewer.blurSize po) in
    let edges := FrameViewer.sobel_loop (with_data img d2) (FrameViewer.threshold1 po)
                                        (FrameViewer.threshold2 po) in
    FrameViewer.copy_back edges d2
  else d1.

(** The buffer [ImageProcessor.processImage] was given, once grayscale ran. *)
Definition IP_gray (img : ImageData) : ImageData :=
  with_data img (ImageProcessor.grayscale_loop (data img)).


(** The pixels [ImageProcessor.processImage] returns for an image, when it
    completes. *)
Definition IP_result (Math_exp : number -> number)
           (opts : ImageProcessor.ProcessingOptions) (image : ImageData)
  : option Uint8ClampedArray :=
  if ImageProcessor.edgeDetection opts then
    match ImageProcessor.blur_loop Math_exp (IP_gray image)
                                   (ImageProcessor.blurSize opts) with
    | Normal d =>
        Some (ImageProcessor.sobel_loop (with_data image d)
                (ImageProcessor.threshold1 opts) (ImageProcessor.threshold2 opts))
    | Abrupt _ => None
    end
  else if ImageProcessor.grayscale opts
       then Some (ImageProcessor.grayscale_loop (data image))
       else Some (data image).

(** *** The magnitude map, as the specification words it *)

Definition interiorb (img : ImageData) (x y : Z) : bool :=
  (1 <=? x) && (x <? width img - 1) && (1 <=? y) && (y <? height img - 1).

(** The gradient magnitude of the specification: [sqrt (Gx^2 + Gy^2)] at an
    interior pixel; a border pixel is defined to have magnitude 0, which is
    not computed. *)
Definition gradient_magnitude (img : ImageData) (x y : Z) : number :=
  if interiorb img x y then
    sqrt (Gx (data img) (width img) x y * Gx (data img) (width img) x y
          + Gy (data img) (width img) x y * Gy (data img) (width img) x y)%float
  else 0%float.

(** *** The canvas *)

(** Every pixel has alpha 255. *)
Fixpoint opaque_pixels (d : list Z) : bool :=
  match d with
  | _ :: _ :: _ :: a :: rest => (a =? 255) && opaque_pixels rest
  | [] => true
  | _ => false
  end.

Definition opaque (img : ImageData) : bool := opaque_pixels (data img).

(** One pixel drawn over another, Porter and Duff's source-over on alpha and
    colours that are not premultiplied: an opaque pixel replaces what is
    under it, a transparent one leaves it, any other is blended with it. *)
Definition over_pixel (r g b a r' g' b' a' : Z) : list Z :=
  if a =? 255 then [r; g; b; a]
  else if a =? 0 then [r'; g'; b'; a']
  else
    let sa := (of_int a / 255)%float in
    let da := (of_int a' / 255 * (1 - sa))%float in
    let oa := (sa + da)%float in
    let blend := fun c c' : Z =>
      ToUint8Clamp ((of_int c * sa + of_int c' * da) / oa)%float in
    [blend r r'; blend g g'; blend b b'; ToUint8Clamp (oa * 255)%float].

(** An image drawn over a canvas pixel by pixel; where the canvas has no
    pixel it counts as transparent black. One admissible [drawImage]. *)
Fixpoint source_over_pixels (d c : list Z) : list Z :=
  match d with
  | r :: g :: b :: a :: rest =>
      match c with
      | r' :: g' :: b' :: a' :: rest' =>
          over_pixel r g b a r' g' b' a' ++ source_over_pixels rest rest'
      | _ => over_pixel r g b a 0 0 0 0 ++ source_over_pixels rest []
      end
  | _ => []
  end.

Definition source_over (image : ImageData) (c : Uint8ClampedArray)
  : Uint8ClampedArray :=
  source_over_pixels (data image) c.

(** ** Concrete inputs *)

(** An opaque gray pixel of level [v]. *)
Definition px (v : Z) : list Z := [v; v; v; 255].

(** Three rows of a step: the left column 0, the two right columns 255. *)
Definition step_image : ImageData :=
  mkImageData 3 3 (concat [px 0; px 255; px 255;
                           px 0; px 255; px 255;
                           px 0; px 255; px 255]).

Definition one_pixel : ImageData := mkImageData 1 1 [200; 100; 50; 255].

(** A black pixel beside a white one. *)
Definition two_pixels : ImageData := mkImageData 2 1 (px 0 ++ px 255).

Definition gray_only : ImageProcessor.ProcessingOptions :=
  ImageProcessor.mkProcessingOptions 50%float 150%float 5 true false.

Definition all_off : ImageProcessor.ProcessingOptions :=
  ImageProcessor.mkProcessingOptions 50%float 150%float 5 false false.

(** Edge detection with the thresholds in the wrong order. *)
Definition inverted : ImageProcessor.ProcessingOptions :=
  ImageProcessor.mkProcessingOptions 150%float 50%float 1 false true.

(** A viewer with [step_image] loaded at reference 0. *)
Definition viewer (grayscale edgeDetection : bool) (low high : number) (size : Z)
  : FrameViewer.t :=
  FrameViewer.mkFrameViewer true (Some 0%nat)
    (FrameViewer.mkViewerOptions grayscale edgeDetection)
    (FrameViewer.mkProcessingOptions low high size) false [].


(** * Properties *)

(** ** Order of binary64 numbers *)

Ltac sf_cases :=
  repeat match goal with
  | |- context [Pos.compare_cont Eq ?a ?b] =>
      change (Pos.compare_cont Eq a b) with (Pos.compare a b)
  | H : context [Pos.compare_cont Eq ?a ?b] |- _ =>
      change (Pos.compare_cont Eq a b) with (Pos.compare a b) in H
  end;
  repeat match goal with
  | |- context [Z.compare ?a ?b] => destruct (Z.compare_spec a b)
  | H : context [Z.compare ?a ?b] |- _ => destruct (Z.compare_spec a b)
  | |- context [Pos.compare ?a ?b] => destruct (Pos.compare_spec a b)
  | H : context [Pos.compare ?a ?b] |- _ => destruct (Pos.compare_spec a b)
  end;
  cbn in *; try reflexivity; try discriminate; try (exfalso; lia).

Ltac sf_destruct x := destruct x as [[|]|[|]| |[|] ? ?].

Lemma SFleb_SFltb_false x y : SFleb x y = true -> SFltb y x = false.
Proof.
  unfold SFleb, SFltb, SFcompare.
  sf_destruct x; sf_destruct y; try reflexivity; try discriminate; intros H; sf_cases.
Qed.

Lemma SFleb_SFltb_trans x y z :
  SFleb x y = true -> SFltb y z = true -> SFltb x z = true.
Proof.
  unfold SFleb, SFltb, SFcompare.
  sf_destruct x; sf_destruct y; sf_destruct z;
    try reflexivity; try discriminate; intros H1 H2; sf_cases.
Qed.

Lemma SFleb_transitive x y z :
  SFleb x y = true -> SFleb y z = true -> SFleb x z = true.
Proof.
  unfold SFleb, SFcompare.
  sf_destruct x; sf_destruct y; sf_destruct z;
    try reflexivity; try discriminate; intros H1 H2; sf_cases.
Qed.

(** [x <= y] excludes [y < x]. *)
Lemma leb_ltb_false (x y : number) : (x <=? y)%float = true -> (y <? x)%float = false.
Proof. rewrite leb_spec, ltb_spec. apply SFleb_SFltb_false. Qed.

Lemma leb_ltb_trans (x y z : number) :
  (x <=? y)%float = true -> (y <? z)%float = true -> (x <? z)%float = true.
Proof. rewrite leb_spec, !ltb_spec. apply SFleb_SFltb_trans. Qed.

Lemma leb_trans (x y z : number) :
  (x <=? y)%float = true -> (y <=? z)%float = true -> (x <=? z)%float = true.
Proof. rewrite !leb_spec. apply SFleb_transitive. Qed.

(** ** Ranges and loops *)

Lemma range_nil lo hi : hi <= lo -> range lo hi = [].
Proof.
  intros H. unfold range. replace (Z.to_nat (hi - lo)) with 0%nat by lia. reflexivity.
Qed.

Lemma range_cons lo hi : lo < hi -> range lo hi = lo :: range (lo + 1) hi.
Proof.
  intros H. unfold range.
  replace (Z.to_nat (hi - lo)) with (S (Z.to_nat (hi - (lo + 1)))) by lia.
  cbn [seq map]. f_equal; [lia|].
  rewrite <- seq_shift, map_map. apply map_ext. intros k. lia.
Qed.

Lemma in_range lo hi i : In i (range lo hi) <-> lo <= i < hi.
Proof.
  unfold range. rewrite in_map_iff. split.
  - intros (k & <- & Hk). apply in_seq in Hk. lia.
  - intros H. exists (Z.to_nat (i - lo)). split; [lia|]. apply in_seq. lia.
Qed.

Lemma length_range lo hi : length (range lo hi) = Z.to_nat (hi - lo).
Proof. unfold range. now rewrite length_map, length_seq. Qed.

Lemma fold_left_ext_in {A B : Type} (f g : A -> B -> A) (l : list B) (a : A) :
  (forall s i, In i l -> f s i = g s i) -> fold_left f l a = fold_left g l a.
Proof.
  revert a. induction l as [|i l IH]; intros a H; cbn; [reflexivity|].
  rewrite (H a i) by now left. apply IH. intros s j Hj. apply H. now right.
Qed.

Lemma for_lt_ext {S : Type} lo hi (f g : Z -> S -> S) (s : S) :
  (forall i s, lo <= i < hi -> f i s = g i s) -> for_lt lo hi f s = for_lt lo hi g s.
Proof.
  intros H. unfold for_lt. apply fold_left_ext_in.
  intros s' i Hi. apply H. now apply in_range.
Qed.

Lemma fold_c_normal {S : Type} (body : Z -> S -> completion S) (pure : Z -> S -> S)
      (l : list Z) (s : S) :
  (forall i s, In i l -> body i s = Normal (pure i s)) ->
  fold_c body l s = Normal (fold_left (fun s i => pure i s) l s).
Proof.
  revert s. induction l as [|i l IH]; intros s H; cbn; [reflexivity|].
  rewrite (H i s) by now left. apply IH. intros j s' Hj. apply H. now right.
Qed.

(** ** Typed arrays *)

Lemma length_update {A : Type} n (v : A) l : length (update n v l) = length l.
Proof.
  revert n. induction l as [|h t IH]; intros [|n]; cbn; try reflexivity.
  now rewrite IH.
Qed.

Lemma nth_error_update_same {A : Type} n (v : A) l :
  (n < length l)%nat -> nth_error (update n v l) n = Some v.
Proof.
  revert n. induction l as [|h t IH]; intros [|n] H; cbn in *; try lia; try reflexivity.
  apply IH. lia.
Qed.

Lemma nth_error_update_other {A : Type} n m (v : A) l :
  n <> m -> nth_error (update n v l) m = nth_error l m.
Proof.
  revert n m. induction l as [|h t IH]; intros [|n] [|m] H; cbn; try reflexivity;
    try congruence.
  apply IH. congruence.
Qed.

Lemma update_update {A : Type} n (v v' : A) l :
  update n v' (update n v l) = update n v' l.
Proof.
  revert n. induction l as [|h t IH]; intros [|n]; cbn; try reflexivity.
  now rewrite IH.
Qed.

Lemma update_nth_error {A : Type} n (v : A) l :
  nth_error l n = Some v -> update n v l = l.
Proof.
  revert n. induction l as [|h t IH]; intros [|n] H; cbn in *; try reflexivity;
    try congruence.
  now rewrite IH.
Qed.

Lemma update_app_last {A : Type} (l : list A) (x v : A) :
  update (length l) v (l ++ [x]) = l ++ [v].
Proof. induction l as [|h t IH]; cbn; [reflexivity | now rewrite IH]. Qed.

Lemma length_set a i v : length (set a i v) = length a.
Proof. unfold set. destruct (_ && _); [apply length_update | reflexivity]. Qed.

Lemma peek_set_same a i v :
  0 <= i < Z.of_nat (length a) -> peek (set a i v) i = Some (ToUint8Clamp v).
Proof.
  intros H. unfold peek, set.
  replace (i <? 0) with false by lia.
  replace ((0 <=? i) && (i <? Z.of_nat (length a))) with true by lia.
  apply nth_error_update_same. lia.
Qed.

Lemma peek_set_other a i j v : i <> j -> peek (set a i v) j = peek a j.
Proof.
  intros H. unfold peek, set. destruct (j <? 0) eqn:Hj; [reflexivity|].
  destruct (_ && _) eqn:Hi; [|reflexivity].
  apply nth_error_update_other. lia.
Qed.

Lemma get_peek a i :
  get a i = match peek a i with Some v => of_int v | None => NaN end.
Proof. unfold get, peek. now destruct (i <? 0). Qed.

Lemma peek_Some_range a i v : peek a i = Some v -> 0 <= i < Z.of_nat (length a).
Proof.
  unfold peek. destruct (i <? 0) eqn:Hi; [discriminate|]. intros H.
  assert (Hn : nth_error a (Z.to_nat i) <> None) by congruence.
  apply nth_error_Some in Hn. lia.
Qed.

Lemma peek_in_range a i :
  0 <= i < Z.of_nat (length a) -> exists v, peek a i = Some v.
Proof.
  intros H. unfold peek. replace (i <? 0) with false by lia.
  destruct (nth_error a (Z.to_nat i)) eqn:E; [eauto|].
  apply nth_error_None in E. lia.
Qed.

Lemma peek_ext a b : (forall i, peek a i = peek b i) -> a = b.
Proof.
  intros H. apply nth_error_ext. intros n.
  specialize (H (Z.of_nat n)). unfold peek in H.
  destruct (Z.ltb_spec (Z.of_nat n) 0) as [Hn | _]; [lia|].
  now rewrite Nat2Z.id in H.
Qed.

Lemma peek_zeros n i : 0 <= i < n -> peek (zeros n) i = Some 0.
Proof.
  intros H. unfold peek, zeros. replace (i <? 0) with false by lia.
  apply nth_error_repeat. lia.
Qed.

Lemma length_zeros n : Z.of_nat (length (zeros n)) = Z.max 0 n.
Proof. unfold zeros. rewrite repeat_length. lia. Qed.

(** *** Sequences of stores *)

Lemma length_apply_writes ws a : length (apply_writes ws a) = length a.
Proof.
  revert a. induction ws as [|w ws IH]; intros a; cbn; [reflexivity|].
  unfold apply_writes in *. cbn. now rewrite IH, length_set.
Qed.

(** An index no store names keeps its byte. *)
Lemma peek_apply_writes_other ws a j :
  (forall w, In w ws -> fst w <> j) -> peek (apply_writes ws a) j = peek a j.
Proof.
  revert a. induction ws as [|w ws IH]; intros a H; [reflexivity|].
  unfold apply_writes in *. cbn. rewrite IH.
  - apply peek_set_other. apply H. now left.
  - intros w' Hw'. apply H. now right.
Qed.

(** An index that is stored to, always with the same byte, holds that byte. *)
Lemma peek_apply_writes_hit ws a j u :
  0 <= j < Z.of_nat (length a) ->
  (exists w, In w ws /\ fst w = j) ->
  (forall w, In w ws -> fst w = j -> ToUint8Clamp (snd w) = u) ->
  peek (apply_writes ws a) j = Some u.
Proof.
  revert a. induction ws as [|w ws IH]; intros a Hj Hex Hall.
  - destruct Hex as (w & [] & _).
  - change (apply_writes (w :: ws) a) with (apply_writes ws (set a (fst w) (snd w))).
    destruct (existsb (fun w' => fst w' =? j) ws) eqn:E.
    + apply existsb_exists in E. destruct E as (w' & Hin & Hw').
      apply IH.
      * now rewrite length_set.
      * exists w'. split; [assumption | lia].
      * intros w'' Hin''. apply Hall. now right.
    + rewrite peek_apply_writes_other.
      * destruct Hex as (w0 & [<- | Hin] & Hw0).
        -- rewrite Hw0. rewrite peek_set_same by assumption.
           f_equal. apply Hall; [now left | assumption].
        -- exfalso. assert (Hf : existsb (fun w' => fst w' =? j) ws = true).
           { apply existsb_exists. exists w0. split; [assumption | lia]. }
           congruence.
      * intros w' Hin Heq.
        assert (Hf : existsb (fun w' => fst w' =? j) ws = true).
        { apply existsb_exists. exists w'. split; [assumption | lia]. }
        congruence.
Qed.

(** Every byte is the initial one or one that was stored. *)
Lemma peek_apply_writes_cases ws a j v :
  peek (apply_writes ws a) j = Some v ->
  peek a j = Some v \/ exists w, In w ws /\ v = ToUint8Clamp (snd w).
Proof.
  revert a. induction ws as [|w ws IH]; intros a H; [now left|].
  change (apply_writes (w :: ws) a) with (apply_writes ws (set a (fst w) (snd w))) in H.
  apply IH in H. destruct H as [H | (w' & Hin & Hv)].
  - destruct (Z.eq_dec (fst w) j) as [E | E].
    + right. exists w. split; [now left|].
      assert (Hr : 0 <= j < Z.of_nat (length a)).
      { apply peek_Some_range in H. now rewrite length_set in H. }
      subst j. rewrite peek_set_same in H by assumption. congruence.
    + left. now rewrite peek_set_other in H.
  - right. exists w'. split; [now right | assumption].
Qed.

Lemma apply_writes_app ws ws' a :
  apply_writes (ws ++ ws') a = apply_writes ws' (apply_writes ws a).
Proof. unfold apply_writes. apply fold_left_app. Qed.

(** A loop whose body is a sequence of stores is the sequence of all of them. *)
Lemma fold_apply_writes {T : Type} (W : T -> list (Z * number)) (l : list T) a :
  fold_left (fun a i => apply_writes (W i) a) l a = apply_writes (flat_map W l) a.
Proof.
  revert a. induction l as [|i l IH]; intros a; cbn; [reflexivity|].
  now rewrite apply_writes_app, IH.
Qed.

Lemma for_lt_writes lo hi (W : Z -> list (Z * number)) body a :
  (forall i s, lo <= i < hi -> body i s = apply_writes (W i) s) ->
  for_lt lo hi body a = apply_writes (flat_map W (range lo hi)) a.
Proof.
  intros H. rewrite <- fold_apply_writes. now apply for_lt_ext.
Qed.

(** ** Conversion to a byte *)

Lemma floor_from_bounds x k n : k <= floor_from x k n <= k + Z.of_nat n.
Proof.
  revert k. induction n as [|n IH]; intros k; cbn [floor_from]; [lia|].
  destruct (x <? of_int (k + 1))%float; [lia|]. specialize (IH (k + 1)). lia.
Qed.

Lemma ToUint8Clamp_range x : 0 <= ToUint8Clamp x <= 255.
Proof.
  unfold ToUint8Clamp.
  pose proof (floor_from_bounds x 0 254) as H.
  repeat match goal with |- context [if ?c then _ else _] => destruct c end; lia.
Qed.

(** A property checked on the 256 bytes holds of every byte. *)
Lemma all_bytes (P : Z -> bool) :
  forallb P (range 0 256) = true -> forall v, 0 <= v <= 255 -> P v = true.
Proof.
  intros H v Hv. rewrite forallb_forall in H. apply H. apply in_range. lia.
Qed.

Lemma ToUint8Clamp_of_int v : 0 <= v <= 255 -> ToUint8Clamp (of_int v) = v.
Proof.
  intros H. apply Z.eqb_eq.
  revert v H. apply (all_bytes (fun v => ToUint8Clamp (of_int v) =? v)).
  vm_compute. reflexivity.
Qed.

Lemma luma_range r g b : 0 <= luma r g b <= 255.
Proof. apply ToUint8Clamp_range. Qed.

(** The luminance of a gray pixel is its level: checked on the 256 levels. *)
Lemma luma_gray v : 0 <= v <= 255 -> luma v v v = v.
Proof.
  intros H. apply Z.eqb_eq.
  revert v H. apply (all_bytes (fun v => luma v v v =? v)).
  vm_compute. reflexivity.
Qed.

(** ** The grayscale loops *)

Lemma list_ind4 (P : list Z -> Prop) :
  P [] -> (forall a, P [a]) -> (forall a b, P [a; b]) -> (forall a b c, P [a; b; c]) ->
  (forall a b c d l, P l -> P (a :: b :: c :: d :: l)) ->
  forall l, P l.
Proof.
  intros H0 H1 H2 H3 H4. fix IH 1.
  intros [|a [|b [|c [|d l]]]].
  - exact H0.
  - apply H1.
  - apply H2.
  - apply H3.
  - apply H4, IH.
Qed.

Lemma add_nan_r (a : number) : (a + nan)%float = nan.
Proof.
  apply Prim2SF_inj. rewrite add_spec.
  change (Prim2SF nan) with S754_nan.
  unfold SF64add, SFadd. now destruct (Prim2SF a) as [[|]|[|]| |[|] ? ?].
Qed.

Lemma get_app_off pre l j :
  Z.of_nat (length pre) <= j -> get (pre ++ l) j = get l (j - Z.of_nat (length pre)).
Proof.
  intros H. unfold get.
  destruct (Z.ltb_spec j 0) as [Hj | Hj]; [exfalso; lia|].
  destruct (Z.ltb_spec (j - Z.of_nat (length pre)) 0) as [Hj' | Hj']; [exfalso; lia|].
  rewrite nth_error_app2 by lia.
  now replace (Z.to_nat j - length pre)%nat with (Z.to_nat (j - Z.of_nat (length pre))) by lia.
Qed.

Lemma update_app_off {A : Type} (pre l : list A) n (v : A) :
  update (length pre + n) v (pre ++ l) = pre ++ update n v l.
Proof. induction pre as [|h t IH]; cbn; [reflexivity | now rewrite IH]. Qed.

Lemma set_app_off pre l j v :
  Z.of_nat (length pre) <= j ->
  set (pre ++ l) j v = pre ++ set l (j - Z.of_nat (length pre)) v.
Proof.
  intros H. unfold set. rewrite length_app.
  destruct (Z.leb_spec 0 j) as [H0 | H0]; [|exfalso; lia].
  destruct (Z.leb_spec 0 (j - Z.of_nat (length pre))) as [H1 | H1]; [|exfalso; lia].
  cbn [andb].
  destruct (Z.ltb_spec j (Z.of_nat (length pre + length l))) as [H2 | H2];
    destruct (Z.ltb_spec (j - Z.of_nat (length pre)) (Z.of_nat (length l))) as [H3 | H3];
    try (exfalso; lia); [|reflexivity].
  replace (Z.to_nat j) with (length pre + Z.to_nat (j - Z.of_nat (length pre)))%nat by lia.
  apply update_app_off.
Qed.

Lemma set_nil i v : set [] i v = [].
Proof. unfold set. destruct (_ && _); [destruct (Z.to_nat i)|]; reflexivity. Qed.

Lemma set_cons_0 x l v : set (x :: l) 0 v = ToUint8Clamp v :: l.
Proof.
  unfold set. cbn [length].
  destruct (Z.ltb_spec 0 (Z.of_nat (S (length l)))) as [H | H]; [reflexivity | exfalso; lia].
Qed.

Lemma set_cons_pos x l i v : 0 < i -> set (x :: l) i v = x :: set l (i - 1) v.
Proof.
  intros H. change (x :: l) with ([x] ++ l) at 1.
  rewrite set_app_off by (cbn; lia). reflexivity.
Qed.

Ltac set_cons :=
  repeat (rewrite set_cons_0 ||
          (rewrite set_cons_pos by lia;
           repeat match goal with
                  | |- context [?a - 1] =>
                      let b := eval cbv in (a - 1) in change (a - 1) with b
                  end) ||
          rewrite set_nil).

(** One iteration of either loop, at the head of an array. *)
Lemma IP_gray_body_head d :
  (let i := 0 in
   let gray := (get d i * 0.299 + get d (i + 1) * 0.587 + get d (i + 2) * 0.114)%float in
   let d := set d i gray in
   let d := set d (i + 1) gray in
   set d (i + 2) gray) = gray_step d.
Proof.
  cbv zeta. change (0 + 1) with 1. change (0 + 2) with 2.
  destruct d as [|r [|g [|b rest]]].
  - now rewrite !set_nil.
  - change (get [r] 1) with nan. change (get [r] 2) with nan.
    change (nan * 0.587)%float with nan. change (nan * 0.114)%float with nan.
    rewrite !add_nan_r. set_cons. reflexivity.
  - change (get [r; g] 2) with nan. change (nan * 0.114)%float with nan.
    rewrite !add_nan_r. set_cons. reflexivity.
  - change (get (r :: g :: b :: rest) 0) with (of_int r).
    change (get (r :: g :: b :: rest) 1) with (of_int g).
    change (get (r :: g :: b :: rest) 2) with (of_int b).
    set_cons. reflexivity.
Qed.

Lemma FV_gray_body_head d :
  (let i := 0 in
   let gray := (get d i * 0.299 + get d (i + 1) * 0.587 + get d (i + 2) * 0.114)%float in
   let d := set d (i + 2) gray in
   let d := set d (i + 1) gray in
   set d i gray) = gray_step d.
Proof.
  cbv zeta. change (0 + 1) with 1. change (0 + 2) with 2.
  destruct d as [|r [|g [|b rest]]].
  - now rewrite !set_nil.
  - change (get [r] 1) with nan. change (get [r] 2) with nan.
    change (nan * 0.587)%float with nan. change (nan * 0.114)%float with nan.
    rewrite !add_nan_r. set_cons. reflexivity.
  - change (get [r; g] 2) with nan. change (nan * 0.114)%float with nan.
    rewrite !add_nan_r. set_cons. reflexivity.
  - change (get (r :: g :: b :: rest) 0) with (of_int r).
    change (get (r :: g :: b :: rest) 1) with (of_int g).
    change (get (r :: g :: b :: rest) 2) with (of_int b).
    set_cons. reflexivity.
Qed.

Lemma gray_fold (body : Z -> list Z -> list Z) :
  (forall pre d, body (Z.of_nat (length pre)) (pre ++ d) = pre ++ gray_step d) ->
  forall d pre k, Z.of_nat (length pre) = 4 * k ->
    fold_left (fun s p => body (4 * p) s)
              (range k (k + (Z.of_nat (length d) + 3) / 4)) (pre ++ d)
    = pre ++ gray_pixels d.
Proof.
  intros Hbody. induction d as [|a|a b|a b c|a b c e rest IH] using list_ind4;
    intros pre k Hk.
  - cbn. now rewrite range_nil by lia.
  - change ((Z.of_nat (length [a]) + 3) / 4) with 1.
    rewrite range_cons, range_nil by lia. cbn [fold_left].
    now rewrite <- Hk, Hbody.
  - change ((Z.of_nat (length [a; b]) + 3) / 4) with 1.
    rewrite range_cons, range_nil by lia. cbn [fold_left].
    now rewrite <- Hk, Hbody.
  - change ((Z.of_nat (length [a; b; c]) + 3) / 4) with 1.
    rewrite range_cons, range_nil by lia. cbn [fold_left].
    now rewrite <- Hk, Hbody.
  - replace ((Z.of_nat (length (a :: b :: c :: e :: rest)) + 3) / 4)
      with ((Z.of_nat (length rest) + 3) / 4 + 1).
    2:{ cbn [length]. rewrite <- Z.div_add by lia. f_equal. lia. }
    assert (Hpos : 0 <= (Z.of_nat (length rest) + 3) / 4)
      by (apply Z.div_pos; lia).
    rewrite range_cons by lia. cbn [fold_left].
    rewrite <- Hk, Hbody. cbn [gray_step gray_pixels].
    specialize (IH (pre ++ [luma a b c; luma a b c; luma a b c; e]) (k + 1)).
    rewrite <- !app_assoc in IH. cbn [app] in IH.
    replace (k + ((Z.of_nat (length rest) + 3) / 4 + 1))
      with (k + 1 + (Z.of_nat (length rest) + 3) / 4) by lia.
    apply IH. rewrite length_app. cbn [length]. lia.
Qed.

(** [ImageProcessor.convertToGrayscale], pixel by pixel. *)
Lemma IP_grayscale_loop_pixels d : ImageProcessor.grayscale_loop d = gray_pixels d.
Proof.
  unfold ImageProcessor.grayscale_loop, for_by4.
  pose proof (gray_fold
    (fun i data =>
       let gray := (get data i * 0.299 + get data (i + 1) * 0.587
                    + get data (i + 2) * 0.114)%float in
       let data := set data i gray in
       let data := set data (i + 1) gray in
       set data (i + 2) gray)) as H.
  specialize (H ltac:(
    intros pre d'; cbv beta zeta;
    rewrite !get_app_off by lia;
    rewrite !set_app_off by lia;
    replace (Z.of_nat (length pre) - Z.of_nat (length pre)) with 0 by lia;
    replace (Z.of_nat (length pre) + 1 - Z.of_nat (length pre)) with (0 + 1) by lia;
    replace (Z.of_nat (length pre) + 2 - Z.of_nat (length pre)) with (0 + 2) by lia;
    f_equal; apply (IP_gray_body_head d')) d [] 0 eq_refl).
  exact H.
Qed.

(** The grayscale loop of [FrameViewer.processImage], pixel by pixel. *)
Lemma FV_grayscale_loop_pixels d : FrameViewer.grayscale_loop d = gray_pixels d.
Proof.
  unfold FrameViewer.grayscale_loop, for_by4.
  pose proof (gray_fold
    (fun i data =>
       let gray := (get data i * 0.299 + get data (i + 1) * 0.587
                    + get data (i + 2) * 0.114)%float in
       let data := set data (i + 2) gray in
       let data := set data (i + 1) gray in
       set data i gray)) as H.
  specialize (H ltac:(
    intros pre d'; cbv beta zeta;
    rewrite !get_app_off by lia;
    rewrite !set_app_off by lia;
    replace (Z.of_nat (length pre) - Z.of_nat (length pre)) with 0 by lia;
    replace (Z.of_nat (length pre) + 1 - Z.of_nat (length pre)) with (0 + 1) by lia;
    replace (Z.of_nat (length pre) + 2 - Z.of_nat (length pre)) with (0 + 2) by lia;
    f_equal; apply (FV_gray_body_head d')) d [] 0 eq_refl).
  exact H.
Qed.

Lemma gray_pixels_idempotent d : gray_pixels (gray_pixels d) = gray_pixels d.
Proof.
  induction d as [|a|a b|a b c|a b c e rest IH] using list_ind4; try reflexivity.
  - cbn [gray_pixels]. now rewrite !luma_gray by apply luma_range.
  - cbn [gray_pixels]. rewrite IH. now rewrite !luma_gray by apply luma_range.
Qed.

Lemma length_gray_pixels d : length (gray_pixels d) = length d.
Proof.
  induction d as [|a|a b|a b c|a b c e rest IH] using list_ind4; try reflexivity.
  cbn [gray_pixels length]. now rewrite IH.
Qed.

(** ** The Sobel loops *)

Lemma pixel_index_inj w x y x' y' :
  0 <= x < w -> 0 <= x' < w -> y * w + x = y' * w + x' -> y = y' /\ x = x'.
Proof.
  intros Hx Hx' E.
  assert (Hy : y = y') by nia.
  subst y'. split; [reflexivity | lia].
Qed.

Lemma convolve_sums data w x y : convolve data w x y = (Gx data w x y, Gy data w x y).
Proof. reflexivity. Qed.

Lemma classify_levels m low high :
  ToUint8Clamp (classify m low high) = 255 \/
  ToUint8Clamp (classify m low high) = 128 \/
  ToUint8Clamp (classify m low high) = 0.
Proof.
  unfold classify.
  destruct (high <? m)%float; [now left|].
  destruct (low <? m)%float; [right; now left | right; now right].
Qed.

Lemma FV_sobel_loop_writes img low high :
  FrameViewer.sobel_loop img low high
  = apply_writes (FV_sobel_writes img low high) (zeros (width img * height img)).
Proof.
  unfold FrameViewer.sobel_loop, FV_sobel_writes. cbv zeta.
  apply for_lt_writes. intros y s _.
  apply for_lt_writes. intros x s' _.
  unfold classify, apply_writes. cbn [fold_left fst snd].
  destruct (high <? _)%float; [reflexivity|].
  now destruct (low <? _)%float.
Qed.

Lemma IP_sobel_loop_writes img low high :
  ImageProcessor.sobel_loop img low high
  = apply_writes (IP_sobel_writes img low high)
                 (zeros (4 * width img * height img)).
Proof.
  unfold ImageProcessor.sobel_loop, IP_sobel_writes. cbv zeta.
  apply for_lt_writes. intros y s _.
  apply for_lt_writes. intros x s' _.
  unfold classify, apply_writes. cbn [fold_left fst snd].
  destruct (high <? _)%float; [reflexivity|].
  now destruct (low <? _)%float.
Qed.

Lemma in_FV_sobel_writes img low high w :
  In w (FV_sobel_writes img low high) <->
  exists x y, interior img x y /\
    w = (y * width img + x,
         classify (magnitude (convolve (data img) (width img) x y)) low high).
Proof.
  unfold FV_sobel_writes, interior. rewrite in_flat_map. split.
  - intros (y & Hy & H). apply in_flat_map in H. destruct H as (x & Hx & [<- | []]).
    apply in_range in Hy, Hx. exists x, y. auto.
  - intros (x & y & (Hx & Hy) & ->). exists y. split; [now apply in_range|].
    apply in_flat_map. exists x. split; [now apply in_range | now left].
Qed.

Lemma in_IP_sobel_writes img low high w :
  In w (IP_sobel_writes img low high) <->
  exists x y, interior img x y /\
    let c := classify (magnitude (convolve (data img) (width img) x y)) low high in
    let outIdx := (y * width img + x) * 4 in
    (w = (outIdx + 2, c) \/ w = (outIdx + 1, c) \/ w = (outIdx, c)
     \/ w = (outIdx + 3, 255%float)).
Proof.
  unfold IP_sobel_writes, interior. rewrite in_flat_map. split.
  - intros (y & Hy & H). apply in_flat_map in H. destruct H as (x & Hx & H).
    apply in_range in Hy, Hx. exists x, y. split; [auto|].
    cbv zeta in *. cbn [In] in H. intuition auto.
  - intros (x & y & (Hx & Hy) & H). exists y. split; [now apply in_range|].
    apply in_flat_map. exists x. split; [now apply in_range|].
    cbv zeta in *. cbn [In]. intuition auto.
Qed.

(** The edge map of [FrameViewer.applySobel] at an interior pixel. *)
Lemma FV_sobel_interior img low high x y :
  interior img x y ->
  peek (FrameViewer.sobel_loop img low high) (y * width img + x)
  = Some (ToUint8Clamp
            (classify (magnitude (convolve (data img) (width img) x y)) low high)).
Proof.
  intros Hi. pose proof Hi as ((Hx1 & Hx2) & (Hy1 & Hy2)).
  rewrite FV_sobel_loop_writes. apply peek_apply_writes_hit.
  - rewrite length_zeros. nia.
  - eexists. split; [apply in_FV_sobel_writes; exists x, y; eauto | reflexivity].
  - intros w Hw E. apply in_FV_sobel_writes in Hw.
    destruct Hw as (x' & y' & ((Hx1' & Hx2') & _) & ->). cbn [fst snd] in *.
    apply pixel_index_inj in E; [|lia|lia]. destruct E as [-> ->]. reflexivity.
Qed.

(** The edge map of [FrameViewer.applySobel] on the border. *)
Lemma FV_sobel_border img low high x y :
  border img x y ->
  peek (FrameViewer.sobel_loop img low high) (y * width img + x) = Some 0.
Proof.
  intros ((Hx & Hy) & Hb).
  rewrite FV_sobel_loop_writes, peek_apply_writes_other.
  - apply peek_zeros. nia.
  - intros w Hw E. apply in_FV_sobel_writes in Hw.
    destruct Hw as (x' & y' & ((Hx1' & Hx2') & (Hy1' & Hy2')) & ->). cbn [fst] in E.
    apply pixel_index_inj in E; [|lia|lia]. lia.
Qed.

Lemma channel_index_inj p k p' k' :
  0 <= k < 4 -> 0 <= k' < 4 -> p * 4 + k = p' * 4 + k' -> p = p' /\ k = k'.
Proof. lia. Qed.

(** The output of [ImageProcessor.applySobelEdgeDetection] at an interior
    pixel: the level in the three colour channels, 255 in alpha. *)
Lemma IP_sobel_interior img low high x y k :
  interior img x y -> 0 <= k < 4 ->
  peek (ImageProcessor.sobel_loop img low high) ((y * width img + x) * 4 + k)
  = Some (if k =? 3 then 255
          else ToUint8Clamp
                 (classify (magnitude (convolve (data img) (width img) x y)) low high)).
Proof.
  intros Hi Hk. pose proof Hi as ((Hx1 & Hx2) & (Hy1 & Hy2)).
  rewrite IP_sobel_loop_writes. apply peek_apply_writes_hit.
  - rewrite length_zeros. nia.
  - assert (Hc : k = 0 \/ k = 1 \/ k = 2 \/ k = 3) by lia.
    destruct Hc as [-> | [-> | [-> | ->]]]; eexists;
      (split; [apply in_IP_sobel_writes; exists x, y; split; [exact Hi|]; cbv zeta|]).
    + right; right; left. reflexivity.
    + cbn [fst]. lia.
    + right; left. reflexivity.
    + reflexivity.
    + left. reflexivity.
    + reflexivity.
    + right; right; right. reflexivity.
    + reflexivity.
  - intros w Hw E. apply in_IP_sobel_writes in Hw.
    destruct Hw as (x' & y' & ((Hx1' & Hx2') & _) & Hw). cbv zeta in Hw.
    destruct Hw as [-> | [-> | [-> | ->]]]; cbn [fst snd] in *.
    + apply channel_index_inj in E; [|lia|lia]. destruct E as [E <-].
      apply pixel_index_inj in E; [|lia|lia]. destruct E as [-> ->]. reflexivity.
    + apply channel_index_inj in E; [|lia|lia]. destruct E as [E <-].
      apply pixel_index_inj in E; [|lia|lia]. destruct E as [-> ->]. reflexivity.
    + replace ((y' * width img + x') * 4) with ((y' * width img + x') * 4 + 0) in E by lia.
      apply channel_index_inj in E; [|lia|lia]. destruct E as [E <-].
      apply pixel_index_inj in E; [|lia|lia]. destruct E as [-> ->]. reflexivity.
    + apply channel_index_inj in E; [|lia|lia]. destruct E as [E <-]. reflexivity.
Qed.

(** The output of [ImageProcessor.applySobelEdgeDetection] on the border:
    the four channels keep the zero of the fresh [ImageData]. *)
Lemma IP_sobel_border img low high x y k :
  border img x y -> 0 <= k < 4 ->
  peek (ImageProcessor.sobel_loop img low high) ((y * width img + x) * 4 + k) = Some 0.
Proof.
  intros ((Hx & Hy) & Hb) Hk.
  rewrite IP_sobel_loop_writes, peek_apply_writes_other.
  - apply peek_zeros. nia.
  - intros w Hw E. apply in_IP_sobel_writes in Hw.
    destruct Hw as (x' & y' & ((Hx1' & Hx2') & (Hy1' & Hy2')) & Hw). cbv zeta in Hw.
    assert (Hp : exists k', 0 <= k' < 4 /\ fst w = (y' * width img + x') * 4 + k').
    { destruct Hw as [-> | [-> | [-> | ->]]]; cbn [fst];
        [exists 2 | exists 1 | exists 0 | exists 3]; lia. }
    destruct Hp as (k' & Hk' & Hw'). rewrite Hw' in E.
    apply channel_index_inj in E; [|lia|lia]. destruct E as [E _].
    apply pixel_index_inj in E; [|lia|lia]. lia.
Qed.

(** ** The box blur of [FrameViewer] *)

Lemma fold_left_flat_map {A B C : Type} (f : A -> C -> A) (g : B -> list C) l a :
  fold_left f (flat_map g l) a = fold_left (fun a i => fold_left f (g i) a) l a.
Proof.
  revert a. induction l as [|i l IH]; intros a; cbn; [reflexivity|].
  now rewrite fold_left_app, IH.
Qed.

Lemma fold_left_map' {A B C : Type} (f : A -> C -> A) (g : B -> C) l a :
  fold_left f (map g l) a = fold_left (fun a i => f a (g i)) l a.
Proof. revert a. induction l as [|i l IH]; intros a; cbn; [reflexivity | apply IH]. Qed.

(** Two nested counting loops visit the square row by row. *)
Lemma nested_loops_square {S : Type} (F : Z * Z -> S -> S) r x y (s : S) :
  for_le (- r) r (fun dy acc =>
    for_le (- r) r (fun dx acc => F (x + dx, y + dy) acc) acc) s
  = fold_left (fun acc p => F p acc) (square r x y) s.
Proof.
  unfold for_le, for_lt, square. rewrite fold_left_flat_map.
  apply fold_left_ext_in. intros acc dy _. now rewrite fold_left_map'.
Qed.

(** A guarded body skips what the guard rejects. *)
Lemma fold_left_guard {A B : Type} (c : B -> bool) (G : A -> B -> A) l a :
  fold_left (fun a p => if c p then G a p else a) l a = fold_left G (filter c l) a.
Proof.
  revert a. induction l as [|p l IH]; intros a; cbn; [reflexivity|].
  destruct (c p); cbn; apply IH.
Qed.

Lemma fold_left_sums {B : Type} (s0 s1 s2 : B -> number) l r g b n :
  fold_left (fun acc p =>
               let '(r, g, b, n) := acc in
               ((r + s0 p)%float, (g + s1 p)%float, (b + s2 p)%float, (n + 1)%float))
            l (r, g, b, n)
  = (fold_left PrimFloat.add (map s0 l) r, fold_left PrimFloat.add (map s1 l) g,
     fold_left PrimFloat.add (map s2 l) b, fold_left (fun n _ => (n + 1)%float) l n).
Proof.
  revert r g b n. induction l as [|p l IH]; intros r g b n; cbn; [reflexivity | apply IH].
Qed.

(** The accumulators of the box blur: the sums over the in-bounds
    neighbourhood and the number of its samples. *)
Lemma box_sums_neighbourhood temp w h size x y :
  FrameViewer.box_sums temp w h size x y
  = (total (map (sample temp w 0) (neighbourhood w h size x y)),
     total (map (sample temp w 1) (neighbourhood w h size x y)),
     total (map (sample temp w 2) (neighbourhood w h size x y)),
     count (neighbourhood w h size x y)).
Proof.
  unfold FrameViewer.box_sums, total, count, neighbourhood.
  rewrite <- fold_left_sums, <- fold_left_guard.
  rewrite <- (nested_loops_square
                (fun p acc =>
                   if inside w h p
                   then let '(r, g, b, n) := acc in
                        ((r + sample temp w 0 p)%float, (g + sample temp w 1 p)%float,
                         (b + sample temp w 2 p)%float, (n + 1)%float)
                   else acc)).
  unfold for_le. apply for_lt_ext. intros dy acc _.
  apply for_lt_ext. intros dx [[[r g] b] n] _.
  unfold inside, sample. cbn [fst snd]. cbv zeta.
  now rewrite Z.add_0_r.
Qed.

Lemma FV_blur_loop_writes img size :
  FrameViewer.blur_loop img size = apply_writes (FV_blur_writes img size) (data img).
Proof.
  unfold FrameViewer.blur_loop, FV_blur_writes. cbv zeta.
  apply for_lt_writes. intros y s _.
  apply for_lt_writes. intros x s' _.
  rewrite box_sums_neighbourhood. reflexivity.
Qed.

Lemma in_FV_blur_writes img size w :
  In w (FV_blur_writes img size) <->
  exists x y c, in_image img x y /\ 0 <= c < 3 /\
    w = ((y * width img + x) * 4 + c,
         box_average (data img) (width img) (height img) size x y c).
Proof.
  unfold FV_blur_writes, in_image. rewrite in_flat_map. split.
  - intros (y & Hy & H). apply in_flat_map in H. destruct H as (x & Hx & H).
    apply in_range in Hy, Hx. cbv zeta in H. cbn [In] in H.
    destruct H as [<- | [<- | [<- | []]]].
    + exists x, y, 0. rewrite Z.add_0_r. repeat split; lia.
    + exists x, y, 1. repeat split; lia.
    + exists x, y, 2. repeat split; lia.
  - intros (x & y & c & (Hx & Hy) & Hc & ->). exists y. split; [now apply in_range|].
    apply in_flat_map. exists x. split; [now apply in_range|]. cbv zeta. cbn [In].
    assert (E : c = 0 \/ c = 1 \/ c = 2) by lia.
    destruct E as [-> | [-> | ->]]; rewrite ?Z.add_0_r; auto.
Qed.

Lemma well_formed_length img :
  well_formed img = true ->
  0 < width img /\ 0 < height img /\
  Z.of_nat (length (data img)) = 4 * width img * height img.
Proof.
  unfold well_formed. rewrite !andb_true_iff.
  intros (((Hw & Hh) & Hl) & _). lia.
Qed.

Lemma well_formed_bytes img i v :
  well_formed img = true -> peek (data img) i = Some v -> 0 <= v <= 255.
Proof.
  unfold well_formed. rewrite !andb_true_iff. intros (_ & Hb) H.
  rewrite forallb_forall in Hb. unfold peek in H.
  destruct (i <? 0); [discriminate|]. apply nth_error_In in H.
  apply Hb in H. unfold byteb in H. lia.
Qed.

(** A colour channel after the box blur: the byte of the average over the
    in-bounds neighbourhood. *)
Lemma FV_blur_colour img size x y c :
  well_formed img = true -> in_image img x y -> 0 <= c < 3 ->
  peek (FrameViewer.blur_loop img size) ((y * width img + x) * 4 + c)
  = Some (ToUint8Clamp
            (box_average (data img) (width img) (height img) size x y c)).
Proof.
  intros Hwf Hi Hc. pose proof Hi as (Hx & Hy).
  apply well_formed_length in Hwf. destruct Hwf as (Hw & Hh & Hl).
  rewrite FV_blur_loop_writes. apply peek_apply_writes_hit.
  - rewrite Hl. nia.
  - eexists. split; [apply in_FV_blur_writes; exists x, y, c; eauto | reflexivity].
  - intros w Hin E. apply in_FV_blur_writes in Hin.
    destruct Hin as (x' & y' & c' & (Hx' & Hy') & Hc' & ->). cbn [fst snd] in *.
    apply channel_index_inj in E; [|lia|lia]. destruct E as [E ->].
    apply pixel_index_inj in E; [|lia|lia]. destruct E as [-> ->]. reflexivity.
Qed.

(** The box blur does not store to alpha. *)
Lemma FV_blur_alpha img size x y :
  in_image img x y ->
  peek (FrameViewer.blur_loop img size) ((y * width img + x) * 4 + 3)
  = peek (data img) ((y * width img + x) * 4 + 3).
Proof.
  intros (Hx & Hy). rewrite FV_blur_loop_writes. apply peek_apply_writes_other.
  intros w Hin E. apply in_FV_blur_writes in Hin.
  destruct Hin as (x' & y' & c' & (Hx' & Hy') & Hc' & ->). cbn [fst] in E.
  apply channel_index_inj in E; lia.
Qed.

(** ** The Gaussian blur of [ImageProcessor] *)

Lemma nth_error_range lo hi i :
  lo <= i < hi -> nth_error (range lo hi) (Z.to_nat (i - lo)) = Some i.
Proof.
  intros H. unfold range.
  rewrite nth_error_map, nth_error_seq.
  destruct (Nat.ltb_spec (Z.to_nat (i - lo)) (Z.to_nat (hi - lo))) as [_ | Hn]; [|lia].
  cbn. f_equal. lia.
Qed.

Lemma nth_map_range {A : Type} (f : Z -> A) lo hi i d :
  lo <= i < hi -> nth (Z.to_nat (i - lo)) (map f (range lo hi)) d = f i.
Proof.
  intros H. apply nth_error_nth. rewrite nth_error_map, nth_error_range by lia.
  reflexivity.
Qed.

Lemma nested_loops_offsets {S : Type} (F : Z * Z -> S -> S) r (s : S) :
  for_le (- r) r (fun ky acc => for_le (- r) r (fun kx acc => F (kx, ky) acc) acc) s
  = fold_left (fun acc k => F k acc) (offsets r) s.
Proof.
  unfold for_le, for_lt, offsets. rewrite fold_left_flat_map.
  apply fold_left_ext_in. intros acc ky _. now rewrite fold_left_map'.
Qed.

Lemma for_lt_c_normal {S : Type} lo hi (body : Z -> S -> completion S)
      (pure : Z -> S -> S) (s : S) :
  (forall i s, lo <= i < hi -> body i s = Normal (pure i s)) ->
  for_lt_c lo hi body s = Normal (for_lt lo hi pure s).
Proof.
  intros H. unfold for_lt_c, for_lt. apply fold_c_normal.
  intros i s' Hi. apply H. now apply in_range.
Qed.

(** An odd kernel has an entry for every offset of its radius. *)
Lemma kernel_at_gaussian Math_exp r kx ky :
  0 <= r -> - r <= kx <= r -> - r <= ky <= r ->
  ImageProcessor.kernel_at
    (ImageProcessor.createGaussianKernel Math_exp (2 * r + 1) (of_int (2 * r + 1) / 3)%float)
    (ky + r) (kx + r)
  = Normal (gaussian Math_exp (2 * r + 1) (kx, ky)).
Proof.
  intros Hr Hkx Hky.
  unfold ImageProcessor.kernel_at, ImageProcessor.createGaussianKernel. cbv zeta.
  assert (Hc : (2 * r + 1) / 2 = r) by (symmetry; apply (Z.div_unique _ _ _ 1); lia).
  rewrite Hc.
  destruct (Z.ltb_spec (ky + r) 0) as [Hn | _]; [exfalso; lia|].
  rewrite nth_error_map.
  replace (Z.to_nat (ky + r)) with (Z.to_nat (ky + r - 0)) by (f_equal; lia).
  rewrite nth_error_range by lia. cbn [option_map]. f_equal.
  unfold at_.
  destruct (Z.ltb_spec (kx + r) 0) as [Hn | _]; [exfalso; lia|].
  replace (Z.to_nat (kx + r)) with (Z.to_nat (kx + r - 0)) by (f_equal; lia).
  rewrite nth_map_range by lia.
  unfold gaussian. cbn [fst snd].
  replace (kx + r - r) with kx by lia. replace (ky + r - r) with ky by lia.
  reflexivity.
Qed.

Lemma fold_left_weighted {B : Type} (s0 s1 s2 wt : B -> number) l r g b n :
  fold_left (fun acc p =>
               let '(r, g, b, n) := acc in
               ((r + s0 p * wt p)%float, (g + s1 p * wt p)%float,
                (b + s2 p * wt p)%float, (n + wt p)%float))
            l (r, g, b, n)
  = (fold_left (fun a p => (a + s0 p * wt p)%float) l r,
     fold_left (fun a p => (a + s1 p * wt p)%float) l g,
     fold_left (fun a p => (a + s2 p * wt p)%float) l b,
     fold_left (fun a p => (a + wt p)%float) l n).
Proof.
  revert r g b n. induction l as [|p l IH]; intros r g b n; cbn; [reflexivity | apply IH].
Qed.

(** The accumulators of the Gaussian blur for an odd kernel: every offset of
    the square contributes, at a clamped position, and the divisor is the sum
    of the whole kernel. *)
Lemma weighted_sums_clamped Math_exp data w h r x y :
  0 <= r ->
  ImageProcessor.weighted_sums
    (ImageProcessor.createGaussianKernel Math_exp (2 * r + 1) (of_int (2 * r + 1) / 3)%float)
    data w h r x y
  = Normal (clamped_sum Math_exp data w h (2 * r + 1) x y 0,
            clamped_sum Math_exp data w h (2 * r + 1) x y 1,
            clamped_sum Math_exp data w h (2 * r + 1) x y 2,
            kernel_sum Math_exp (2 * r + 1)).
Proof.
  intros Hr.
  assert (Hc : (2 * r + 1) / 2 = r) by (symmetry; apply (Z.div_unique _ _ _ 1); lia).
  unfold clamped_sum, kernel_sum. rewrite Hc.
  rewrite <- (fold_left_weighted
                (fun k => sample data w 0 (clamped w h (x + fst k, y + snd k)))
                (fun k => sample data w 1 (clamped w h (x + fst k, y + snd k)))
                (fun k => sample data w 2 (clamped w h (x + fst k, y + snd k)))
                (gaussian Math_exp (2 * r + 1))).
  rewrite <- (nested_loops_offsets
                (fun k acc =>
                   let '(r0, g, b, n) := acc in
                   ((r0 + sample data w 0 (clamped w h ((x + fst k)%Z, (y + snd k)%Z))
                          * gaussian Math_exp (2 * r + 1)%Z k)%float,
                    (g + sample data w 1 (clamped w h ((x + fst k)%Z, (y + snd k)%Z))
                         * gaussian Math_exp (2 * r + 1)%Z k)%float,
                    (b + sample data w 2 (clamped w h ((x + fst k)%Z, (y + snd k)%Z))
                         * gaussian Math_exp (2 * r + 1)%Z k)%float,
                    (n + gaussian Math_exp (2 * r + 1)%Z k)%float))).
  unfold ImageProcessor.weighted_sums, for_le_c, for_le.
  apply for_lt_c_normal. intros ky acc Hky.
  apply for_lt_c_normal. intros kx [[[r0 g] b] n] Hkx.
  rewrite kernel_at_gaussian by lia.
  unfold sample, clamped. cbn [fst snd]. cbv zeta.
  now rewrite Z.add_0_r.
Qed.

Lemma IP_blur_loop_writes Math_exp img r :
  0 <= r ->
  ImageProcessor.blur_loop Math_exp img (2 * r + 1)
  = Normal (apply_writes (IP_blur_writes Math_exp img (2 * r + 1))
                         (zeros (4 * width img * height img))).
Proof.
  intros Hr.
  assert (Hc : (2 * r + 1) / 2 = r) by (symmetry; apply (Z.div_unique _ _ _ 1); lia).
  unfold ImageProcessor.blur_loop. cbv zeta. rewrite Hc.
  unfold IP_blur_writes. cbv zeta.
  rewrite <- fold_apply_writes.
  apply (for_lt_c_normal 0 (height img) _
           (fun y a => apply_writes (flat_map _ (range 0 (width img))) a)).
  intros y s _.
  rewrite <- fold_apply_writes.
  apply (for_lt_c_normal 0 (width img) _ (fun x a => apply_writes _ a)).
  intros x s' _.
  rewrite weighted_sums_clamped by assumption. reflexivity.
Qed.

Lemma in_IP_blur_writes Math_exp img kernelSize w :
  In w (IP_blur_writes Math_exp img kernelSize) <->
  exists x y, in_image img x y /\
    ((exists c, 0 <= c < 3 /\
        w = ((y * width img + x) * 4 + c,
             clamped_average Math_exp (data img) (width img) (height img)
                             kernelSize x y c))
     \/ w = ((y * width img + x) * 4 + 3,
             get (data img) ((y * width img + x) * 4 + 3))).
Proof.
  unfold IP_blur_writes, in_image. rewrite in_flat_map. split.
  - intros (y & Hy & H). apply in_flat_map in H. destruct H as (x & Hx & H).
    apply in_range in Hy, Hx. cbv zeta in H. cbn [In] in H.
    exists x, y. split; [lia|].
    destruct H as [<- | [<- | [<- | [<- | []]]]].
    + left. exists 0. rewrite Z.add_0_r. split; [lia | reflexivity].
    + left. exists 1. split; [lia | reflexivity].
    + left. exists 2. split; [lia | reflexivity].
    + right. reflexivity.
  - intros (x & y & (Hx & Hy) & H). exists y. split; [now apply in_range|].
    apply in_flat_map. exists x. split; [now apply in_range|]. cbv zeta. cbn [In].
    destruct H as [(c & Hc & ->) | ->].
    + assert (E : c = 0 \/ c = 1 \/ c = 2) by lia.
      destruct E as [-> | [-> | ->]]; rewrite ?Z.add_0_r; auto.
    + auto.
Qed.

(** A colour channel after the Gaussian blur with an odd kernel. *)
Lemma IP_blur_colour Math_exp img r x y c :
  0 <= r -> in_image img x y -> 0 <= c < 3 ->
  peek (apply_writes (IP_blur_writes Math_exp img (2 * r + 1))
                     (zeros (4 * width img * height img)))
       ((y * width img + x) * 4 + c)
  = Some (ToUint8Clamp
            (clamped_average Math_exp (data img) (width img) (height img)
                             (2 * r + 1) x y c)).
Proof.
  intros Hr Hi Hc. pose proof Hi as (Hx & Hy).
  apply peek_apply_writes_hit.
  - rewrite length_zeros. nia.
  - eexists. split;
      [apply in_IP_blur_writes; exists x, y; split; [exact Hi|]; left; exists c; auto
      | reflexivity].
  - intros w Hin E. apply in_IP_blur_writes in Hin.
    destruct Hin as (x' & y' & (Hx' & Hy') & [(c' & Hc' & ->) | ->]); cbn [fst snd] in *.
    + apply channel_index_inj in E; [|lia|lia]. destruct E as [E ->].
      apply pixel_index_inj in E; [|lia|lia]. destruct E as [-> ->]. reflexivity.
    + apply channel_index_inj in E; [|lia|lia]. exfalso. lia.
Qed.

(** Alpha after the Gaussian blur with an odd kernel: copied through. *)
Lemma IP_blur_alpha Math_exp img r x y :
  0 <= r -> well_formed img = true -> in_image img x y ->
  peek (apply_writes (IP_blur_writes Math_exp img (2 * r + 1))
                     (zeros (4 * width img * height img)))
       ((y * width img + x) * 4 + 3)
  = peek (data img) ((y * width img + x) * 4 + 3).
Proof.
  intros Hr Hwf Hi. pose proof Hi as (Hx & Hy).
  pose proof (well_formed_length img Hwf) as (Hw & Hh & Hl).
  destruct (peek_in_range (data img) ((y * width img + x) * 4 + 3)) as (v & Hv);
    [rewrite Hl; nia|].
  rewrite Hv.
  assert (Hget : ToUint8Clamp (get (data img) ((y * width img + x) * 4 + 3)) = v).
  { rewrite get_peek, Hv. apply ToUint8Clamp_of_int.
    eapply well_formed_bytes; eassumption. }
  apply peek_apply_writes_hit.
  - rewrite length_zeros. nia.
  - eexists. split;
      [apply in_IP_blur_writes; exists x, y; split; [exact Hi|]; now right
      | reflexivity].
  - intros w Hin E. apply in_IP_blur_writes in Hin.
    destruct Hin as (x' & y' & (Hx' & Hy') & [(c' & Hc' & ->) | ->]); cbn [fst snd] in *.
    + apply channel_index_inj in E; [|lia|lia]. exfalso. lia.
    + apply channel_index_inj in E; [|lia|lia]. destruct E as [E _].
      apply pixel_index_inj in E; [|lia|lia]. destruct E as [-> ->]. exact Hget.
Qed.

(** With [kernelSize = 0] the kernel has no row, and the first weight lookup
    throws. *)
Lemma IP_blur_loop_zero Math_exp img :
  0 < width img -> 0 < height img ->
  ImageProcessor.blur_loop Math_exp img 0 = Abrupt TypeError.
Proof.
  intros Hw Hh. unfold ImageProcessor.blur_loop. cbv zeta.
  unfold for_lt_c. rewrite (range_cons 0 (height img)) by lia.
  cbn [fold_c]. rewrite (range_cons 0 (width img)) by lia.
  reflexivity.
Qed.

(** ** The square and the neighbourhood *)

Lemma in_square r x y p :
  In p (square r x y) <->
  x - r <= fst p <= x + r /\ y - r <= snd p <= y + r.
Proof.
  unfold square. rewrite in_flat_map. split.
  - intros (dy & Hdy & H). apply in_map_iff in H. destruct H as (dx & <- & Hdx).
    apply in_range in Hdy, Hdx. cbn [fst snd]. lia.
  - intros (Hx & Hy). exists (snd p - y). split; [apply in_range; lia|].
    apply in_map_iff. exists (fst p - x). split; [|apply in_range; lia].
    destruct p as [px py]. cbn [fst snd]. f_equal; lia.
Qed.

Lemma length_square r x y :
  0 <= r -> Z.of_nat (length (square r x y)) = (2 * r + 1) * (2 * r + 1).
Proof.
  intros Hr. unfold square.
  assert (H : forall l : list Z,
             length (flat_map (fun dy => map (fun dx => (x + dx, y + dy))
                                             (range (- r) (r + 1))) l)
             = (length l * Z.to_nat (2 * r + 1))%nat).
  { induction l as [|a l IH]; [reflexivity|].
    cbn [flat_map length]. rewrite length_app, length_map, length_range, IH. lia. }
  rewrite H, length_range. lia.
Qed.

Lemma in_neighbourhood w h r x y p :
  In p (neighbourhood w h r x y) <->
  (x - r <= fst p <= x + r /\ y - r <= snd p <= y + r)
  /\ 0 <= fst p < w /\ 0 <= snd p < h.
Proof.
  unfold neighbourhood. rewrite filter_In, in_square. unfold inside.
  rewrite !andb_true_iff. lia.
Qed.

Lemma filter_length_lt {A : Type} (f : A -> bool) l p :
  In p l -> f p = false -> (length (filter f l) < length l)%nat.
Proof.
  induction l as [|a l IH]; intros Hin Hf; [destruct Hin|].
  cbn [filter]. destruct Hin as [-> | Hin].
  - rewrite Hf. pose proof (filter_length_le f l). cbn [length]. lia.
  - specialize (IH Hin Hf). destruct (f a); cbn [length]; lia.
Qed.

(** A pixel of the border has fewer samples than the full square. *)
Lemma neighbourhood_border_fewer img r x y :
  0 < r -> border img x y ->
  Z.of_nat (length (neighbourhood (width img) (height img) r x y))
  < (2 * r + 1) * (2 * r + 1).
Proof.
  intros Hr ((Hx & Hy) & Hb).
  rewrite <- (length_square r x y) by lia.
  apply inj_lt. unfold neighbourhood.
  destruct Hb as [-> | [-> | [-> | ->]]].
  - apply (filter_length_lt _ _ (-1, y)); [apply in_square; cbn; lia|].
    reflexivity.
  - apply (filter_length_lt _ _ (width img, y)); [apply in_square; cbn; lia|].
    unfold inside. cbn [fst snd]. rewrite Z.ltb_irrefl. now rewrite andb_false_r.
  - apply (filter_length_lt _ _ (x, -1)); [apply in_square; cbn; lia|].
    unfold inside. cbn [fst snd]. now rewrite andb_false_r.
  - apply (filter_length_lt _ _ (x, height img)); [apply in_square; cbn; lia|].
    unfold inside. cbn [fst snd]. rewrite Z.ltb_irrefl. now rewrite andb_false_r.
Qed.

(** The loop counter of the box blur is exact: up to 2^20 samples, a window
    of radius 511, [count] is the number of samples. *)
Lemma counts_exact_fold {A : Type} (l : list A) :
  forall fuel k acc,
    counts_exact fuel k acc = true -> acc = of_int k -> (length l <= fuel)%nat ->
    fold_left (fun n _ => (n + 1)%float) l acc = of_int (k + Z.of_nat (length l)).
Proof.
  induction l as [|a l IH]; intros fuel k acc Hc Hacc Hl.
  - cbn. now rewrite Z.add_0_r.
  - destruct fuel as [|fuel]; [cbn in Hl; lia|].
    cbn [counts_exact] in Hc. apply andb_true_iff in Hc. destruct Hc as [He Hc].
    apply FloatAxioms.Leibniz.eqb_spec in He.
    cbn [fold_left length].
    rewrite (IH fuel (k + 1) (acc + 1)%float Hc He) by (cbn in Hl; lia).
    f_equal. lia.
Qed.

Lemma count_exact {A : Type} (l : list A) :
  Z.of_nat (length l) <= 2 ^ 20 -> count l = of_int (Z.of_nat (length l)).
Proof.
  intros H. unfold count.
  apply (counts_exact_fold l (Z.to_nat (2 ^ 20)) 0 0%float); [|reflexivity|lia].
  vm_compute. reflexivity.
Qed.

(** ** The heap *)

Lemma nth_error_Some_lt {A : Type} (l : list A) n x :
  nth_error l n = Some x -> (n < length l)%nat.
Proof. intros H. apply nth_error_Some. congruence. Qed.

Lemma load_run r h img : nth_error h r = Some img -> load r h = Done img h.
Proof. intros H. unfold load. now rewrite H. Qed.

Lemma store_data_run r d h img :
  nth_error h r = Some img ->
  store_data r d h = Done tt (update r (with_data img d) h).
Proof. intros H. unfold store_data. now rewrite H. Qed.

Lemma nth_error_update_hit {A : Type} (l : list A) n x v :
  nth_error l n = Some x -> nth_error (update n v l) n = Some v.
Proof. intros H. apply nth_error_update_same. eapply nth_error_Some_lt, H. Qed.

Lemma nth_error_app_last {A : Type} (l : list A) x :
  nth_error (l ++ [x]) (length l) = Some x.
Proof. rewrite nth_error_app2 by lia. now rewrite Nat.sub_diag. Qed.

Lemma with_data_id img : with_data img (data img) = img.
Proof. now destruct img. Qed.

Lemma bind_run {A B : Type} (m : M A) (k : A -> M B) h a h' :
  m h = Done a h' -> bind m k h = k a h'.
Proof. intros H. unfold bind. now rewrite H. Qed.

Lemma store_after_load r (f : ImageData -> Uint8ClampedArray) h img :
  nth_error h r = Some img ->
  (i <- load r ;; store_data r (f i)) h = Done tt (update r (with_data img (f img)) h).
Proof.
  intros H. rewrite (bind_run _ _ _ _ _ (load_run _ _ _ H)).
  now apply store_data_run.
Qed.

Lemma FV_applyGaussianBlur_run r size h img :
  nth_error h r = Some img ->
  FrameViewer.applyGaussianBlur r size h
  = Done tt (update r (with_data img (FrameViewer.blur_loop img size)) h).
Proof.
  intros H. unfold FrameViewer.applyGaussianBlur.
  now apply (store_after_load r (fun i => FrameViewer.blur_loop i size)).
Qed.

Lemma FV_applySobel_run r low high h img :
  nth_error h r = Some img ->
  FrameViewer.applySobel r low high h = Done (FrameViewer.sobel_loop img low high) h.
Proof.
  intros H. unfold FrameViewer.applySobel.
  now rewrite (bind_run _ _ _ _ _ (load_run _ _ _ H)).
Qed.

(** [FrameViewer.processImage] never throws and writes to no other object than
    the one it is given. *)
Lemma FV_processImage_run v r h img :
  nth_error h r = Some img ->
  FrameViewer.processImage v r h
  = Done tt (update r (with_data img (FV_pipeline v img)) h).
Proof.
  intros H. unfold FrameViewer.processImage, FV_pipeline. cbv zeta.
  destruct (FrameViewer.edgeDetection (FrameViewer.options v)) eqn:He.
  - rewrite orb_true_r.
    rewrite (bind_run _ _ _ _ _
               (store_after_load r (fun i => FrameViewer.grayscale_loop (data i)) h img H)).
    pose proof (nth_error_update_hit h r img
                  (with_data img (FrameViewer.grayscale_loop (data img))) H) as H1.
    rewrite (bind_run _ _ _ _ _ (FV_applyGaussianBlur_run r _ _ _ H1)).
    rewrite update_update.
    match goal with
    | |- context [update r ?i h] => pose proof (nth_error_update_hit h r img i H) as H2
    end.
    rewrite (bind_run _ _ _ _ _ (FV_applySobel_run r _ _ _ _ H2)).
    rewrite (bind_run _ _ _ _ _ (load_run _ _ _ H2)).
    rewrite (store_data_run _ _ _ _ H2), update_update. reflexivity.
  - rewrite orb_false_r.
    destruct (FrameViewer.grayscale (FrameViewer.options v)).
    + rewrite (bind_run _ _ _ _ _
               (store_after_load r (fun i => FrameViewer.grayscale_loop (data i)) h img H)).
      reflexivity.
    + unfold bind, ret. rewrite with_data_id. now rewrite update_nth_error.
Qed.

(** [render] draws the processed copy and leaves every object of the heap as
    it was. *)
Lemma FV_render_run v h original img :
  FrameViewer.originalImageData v = Some original ->
  FrameViewer.currentImage v = true ->
  FrameViewer.isProcessing v = false ->
  nth_error h original = Some img ->
  FrameViewer.render v h
  = Done (FrameViewer.setLoading false
            (FrameViewer.putImageData (FV_pipeline v img)
                                      (FrameViewer.setLoading true v)))
         (h ++ [with_data img (FV_pipeline v img)]).
Proof.
  intros Ho Hc Hp H. unfold FrameViewer.render. rewrite Ho, Hc, Hp. cbn [negb orb].
  unfold bind at 1. rewrite (load_run _ _ _ H).
  unfold bind at 1. unfold alloc.
  unfold bind at 1.
  rewrite (FV_processImage_run _ _ _ (with_data img (data img)))
    by apply nth_error_app_last.
  rewrite update_app_last.
  unfold bind, ret. rewrite (load_run _ _ _ (nth_error_app_last _ _)).
  rewrite with_data_id. reflexivity.
Qed.

Lemma IP_convertToGrayscale_run r h img :
  nth_error h r = Some img ->
  ImageProcessor.convertToGrayscale r h = Done r (update r (IP_gray img) h).
Proof.
  intros H. unfold ImageProcessor.convertToGrayscale.
  rewrite (bind_run _ _ _ _ _ (load_run _ _ _ H)).
  now rewrite (bind_run _ _ _ _ _ (store_data_run _ _ _ _ H)).
Qed.

Lemma IP_applySobel_run r low high h img :
  nth_error h r = Some img ->
  ImageProcessor.applySobelEdgeDetection r low high h
  = Done (length h) (h ++ [with_data img (ImageProcessor.sobel_loop img low high)]).
Proof.
  intros H. unfold ImageProcessor.applySobelEdgeDetection.
  now rewrite (bind_run _ _ _ _ _ (load_run _ _ _ H)).
Qed.

Lemma IP_applyGaussianBlur_run Math_exp r size h img :
  nth_error h r = Some img ->
  ImageProcessor.applyGaussianBlur Math_exp r size h
  = match ImageProcessor.blur_loop Math_exp img size with
    | Normal d => Done (length h) (h ++ [with_data img d])
    | Abrupt e => Raised e (h ++ [new_ImageData (width img) (height img)])
    end.
Proof.
  intros H. unfold ImageProcessor.applyGaussianBlur.
  rewrite (bind_run _ _ _ _ _ (load_run _ _ _ H)).
  unfold bind at 1. unfold alloc.
  destruct (ImageProcessor.blur_loop Math_exp img size) as [d | e]; [|reflexivity].
  unfold bind at 1. unfold lift, ret.
  rewrite (bind_run _ _ _ _ _ (store_data_run _ _ _ _ (nth_error_app_last _ _))).
  now rewrite update_app_last.
Qed.

(** [ImageProcessor.processImage], step by step on the heap. *)
Lemma IP_processImage_run Math_exp r opts h img :
  nth_error h r = Some img ->
  ImageProcessor.processImage Math_exp r opts h
  = if ImageProcessor.edgeDetection opts then
      match ImageProcessor.blur_loop Math_exp (IP_gray img)
                                     (ImageProcessor.blurSize opts) with
      | Normal d =>
          Done (S (length h))
               ((update r (IP_gray img) h ++ [with_data img d])
                ++ [with_data img
                      (ImageProcessor.sobel_loop (with_data img d)
                         (ImageProcessor.threshold1 opts)
                         (ImageProcessor.threshold2 opts))])
      | Abrupt e =>
          Raised e (update r (IP_gray img) h
                    ++ [new_ImageData (width img) (height img)])
      end
    else if ImageProcessor.grayscale opts then Done r (update r (IP_gray img) h)
    else Done r h.
Proof.
  intros H. unfold ImageProcessor.processImage. cbv zeta.
  destruct (ImageProcessor.edgeDetection opts).
  - rewrite orb_true_r.
    rewrite (bind_run _ _ _ _ _ (IP_convertToGrayscale_run _ _ _ H)).
    pose proof (nth_error_update_hit h r img (IP_gray img) H) as H1.
    unfold bind at 1. rewrite (IP_applyGaussianBlur_run _ _ _ _ _ H1).
    destruct (ImageProcessor.blur_loop _ _ _) as [d | e]; [|reflexivity].
    rewrite (IP_applySobel_run _ _ _ _ (with_data img d)).
    + rewrite length_app, length_update. cbn [length].
      replace (length h + 1)%nat with (S (length h)) by lia. reflexivity.
    + replace (length h) with (length (update r (IP_gray img) h))
        by apply length_update.
      apply nth_error_app_last.
  - rewrite orb_false_r. destruct (ImageProcessor.grayscale opts).
    + now rewrite (bind_run _ _ _ _ _ (IP_convertToGrayscale_run _ _ _ H)).
    + reflexivity.
Qed.

(** Whatever [ImageProcessor.processImage] does after grayscale, it does to
    new objects: the heap it leaves starts with the old one, the buffer it
    was given converted. *)
Lemma IP_processImage_heap Math_exp r opts h img :
  nth_error h r = Some img ->
  ImageProcessor.grayscale opts || ImageProcessor.edgeDetection opts = true ->
  exists fresh,
    heap_of (ImageProcessor.processImage Math_exp r opts h)
    = update r (IP_gray img) h ++ fresh.
Proof.
  intros H Hf. rewrite (IP_processImage_run _ _ _ _ _ H).
  destruct (ImageProcessor.edgeDetection opts).
  - destruct (ImageProcessor.blur_loop _ _ _) as [d | e]; cbn [heap_of].
    + rewrite <- app_assoc. eauto.
    + eauto.
  - rewrite orb_false_r in Hf. rewrite Hf. cbn [heap_of].
    exists []. now rewrite app_nil_r.
Qed.

(** ** The box blur with [size = 0], and the copy of the edge map *)

Lemma box_average_zero data w h x y c :
  0 <= x < w -> 0 <= y < h ->
  box_average data w h 0 x y c
  = ((0 + get data ((y * w + x) * 4 + c)) / (0 + 1))%float.
Proof.
  intros Hx Hy. unfold box_average, neighbourhood.
  change (square 0 x y) with [(x + 0, y + 0)]. rewrite !Z.add_0_r.
  cbn [filter]. unfold inside. cbn [fst snd].
  replace ((0 <=? x) && (x <? w) && (0 <=? y) && (y <? h)) with true by lia.
  reflexivity.
Qed.

Lemma byte_through_average v :
  0 <= v <= 255 -> ToUint8Clamp ((0 + of_int v) / (0 + 1))%float = v.
Proof.
  intros H. apply Z.eqb_eq. revert v H.
  apply (all_bytes (fun v => ToUint8Clamp ((0 + of_int v) / (0 + 1))%float =? v)).
  vm_compute. reflexivity.
Qed.

(** [FrameViewer.applyGaussianBlur] with [size = 0] changes no colour channel. *)
Lemma FV_blur_zero_identity img x y c :
  well_formed img = true -> in_image img x y -> 0 <= c < 3 ->
  peek (FrameViewer.blur_loop img 0) ((y * width img + x) * 4 + c)
  = peek (data img) ((y * width img + x) * 4 + c).
Proof.
  intros Hwf Hi Hc. rewrite FV_blur_colour by assumption.
  destruct Hi as (Hx & Hy). rewrite box_average_zero by assumption.
  pose proof (well_formed_length img Hwf) as (Hw & Hh & Hl).
  destruct (peek_in_range (data img) ((y * width img + x) * 4 + c)) as (v & Hv);
    [rewrite Hl; nia|].
  rewrite get_peek, Hv. f_equal. apply byte_through_average.
  eapply well_formed_bytes; eassumption.
Qed.

Lemma peek_zeros_inv n j v : peek (zeros n) j = Some v -> v = 0.
Proof.
  unfold peek, zeros. destruct (j <? 0); [discriminate|].
  intros H. apply nth_error_In in H. now apply repeat_spec in H.
Qed.

(** ** The double threshold and the edge map of [FrameViewer] *)

(** The three levels, for thresholds in order. *)
Lemma double_threshold_levels m low high :
  (low <=? high)%float = true ->
  ((high <? m)%float = true -> ToUint8Clamp (classify m low high) = 255)
  /\ ((low <? m)%float = true -> (m <=? high)%float = true ->
      ToUint8Clamp (classify m low high) = 128)
  /\ ((m <=? low)%float = true -> ToUint8Clamp (classify m low high) = 0).
Proof.
  intros Hord. unfold classify. split; [|split].
  - intros ->. reflexivity.
  - intros Hl Hh. rewrite (leb_ltb_false _ _ Hh), Hl. reflexivity.
  - intros Hl. rewrite (leb_ltb_false _ _ (leb_trans _ _ _ Hl Hord)).
    rewrite (leb_ltb_false _ _ Hl). reflexivity.
Qed.

Lemma FV_copy_back_writes edges d :
  FrameViewer.copy_back edges d
  = apply_writes (FV_copy_writes edges (Z.of_nat (length d))) d.
Proof.
  unfold FrameViewer.copy_back, for_by4, FV_copy_writes.
  rewrite <- fold_apply_writes. apply fold_left_ext_in. intros s p _. reflexivity.
Qed.

Lemma in_FV_copy_writes edges len w :
  In w (FV_copy_writes edges len) <->
  exists p, 0 <= p /\ 4 * p < len /\
    ((exists c, 0 <= c < 3 /\ w = (4 * p + c, get edges p))
     \/ w = (4 * p + 3, 255%float)).
Proof.
  unfold FV_copy_writes. rewrite in_flat_map. split.
  - intros (p & Hp & H). apply in_range in Hp. cbv zeta in H. cbn [In] in H.
    assert (E : 4 * p / 4 = p) by (rewrite Z.mul_comm; apply Z.div_mul; lia).
    rewrite E in H. exists p.
    assert (Hlt : 4 * p < len).
    { destruct Hp as [_ Hp]. pose proof (Z.mul_div_le (len + 3) 4 ltac:(lia)). lia. }
    split; [lia|]. split; [exact Hlt|].
    destruct H as [<- | [<- | [<- | [<- | []]]]].
    + left. exists 2. split; [lia | reflexivity].
    + left. exists 1. split; [lia | reflexivity].
    + left. exists 0. rewrite Z.add_0_r. split; [lia | reflexivity].
    + right. reflexivity.
  - intros (p & Hp & Hlt & H). exists p. split.
    + apply in_range. split; [lia|].
      assert (p <= (len - 1) / 4) by (apply Z.div_le_lower_bound; lia).
      assert ((len - 1) / 4 < (len + 3) / 4).
      { replace (len + 3) with (len - 1 + 1 * 4) by lia. rewrite Z.div_add by lia. lia. }
      lia.
    + cbv zeta. cbn [In].
      assert (E : 4 * p / 4 = p) by (rewrite Z.mul_comm; apply Z.div_mul; lia).
      rewrite E. destruct H as [(c & Hc & ->) | ->].
      * assert (Ec : c = 0 \/ c = 1 \/ c = 2) by lia.
        destruct Ec as [-> | [-> | ->]]; rewrite ?Z.add_0_r; auto.
      * auto.
Qed.

(** The copy loop makes every pixel opaque. *)
Lemma FV_copy_back_alpha edges d p :
  0 <= p -> 4 * p + 3 < Z.of_nat (length d) ->
  peek (FrameViewer.copy_back edges d) (4 * p + 3) = Some 255.
Proof.
  intros Hp Hlt. rewrite FV_copy_back_writes. apply peek_apply_writes_hit.
  - lia.
  - eexists. split; [apply in_FV_copy_writes; exists p; split; [lia|]; split; [lia|];
                     right; reflexivity | reflexivity].
  - intros w Hin E. apply in_FV_copy_writes in Hin.
    destruct Hin as (p' & Hp' & _ & [(c & Hc & ->) | ->]); cbn [fst snd] in *.
    + exfalso. lia.
    + reflexivity.
Qed.

(** The copy loop stores the level of the pixel into its three colours. *)
Lemma FV_copy_back_colour edges d p c :
  0 <= p -> 0 <= c < 3 -> 4 * p + c < Z.of_nat (length d) ->
  peek (FrameViewer.copy_back edges d) (4 * p + c)
  = Some (ToUint8Clamp (get edges p)).
Proof.
  intros Hp Hc Hlt. rewrite FV_copy_back_writes. apply peek_apply_writes_hit.
  - lia.
  - eexists. split; [apply in_FV_copy_writes; exists p; split; [lia|]; split; [lia|];
                     left; exists c; split; [lia | reflexivity] | reflexivity].
  - intros w Hin E. apply in_FV_copy_writes in Hin.
    destruct Hin as (p' & Hp' & _ & [(c' & Hc' & ->) | ->]); cbn [fst snd] in *.
    + assert (p' = p) by lia. subst p'. reflexivity.
    + exfalso. lia.
Qed.

Lemma NoDup_range lo hi : NoDup (range lo hi).
Proof.
  unfold range. apply Injective_map_NoDup; [|apply seq_NoDup].
  intros a b E. lia.
Qed.

Lemma NoDup_flat_map {A B : Type} (g : A -> list B) l :
  NoDup l -> (forall i, NoDup (g i)) ->
  (forall i j a, In a (g i) -> In a (g j) -> i = j) ->
  NoDup (flat_map g l).
Proof.
  intros Hl Hg Hd. induction Hl as [|i l Hi Hl IH]; cbn; [constructor|].
  apply NoDup_app; [apply Hg | exact IH|].
  intros a Ha Hin. apply in_flat_map in Hin. destruct Hin as (j & Hj & Haj).
  rewrite (Hd i j a Ha Haj) in Hi. contradiction.
Qed.

(** The neighbourhood lists every in-bounds sample of the square once. *)
Lemma NoDup_neighbourhood w h r x y : NoDup (neighbourhood w h r x y).
Proof.
  unfold neighbourhood, square. apply NoDup_filter, NoDup_flat_map.
  - apply NoDup_range.
  - intros dy. apply Injective_map_NoDup; [|apply NoDup_range].
    intros a b E. injection E. lia.
  - intros i j a Hi Hj. apply in_map_iff in Hi, Hj.
    destruct Hi as (dx & <- & _). destruct Hj as (dx' & E & _).
    injection E. lia.
Qed.

Lemma FV_sobel_loop_bytes img low high j v :
  peek (FrameViewer.sobel_loop img low high) j = Some v -> 0 <= v <= 255.
Proof.
  intros H. rewrite FV_sobel_loop_writes in H.
  apply peek_apply_writes_cases in H. destruct H as [H | (w & _ & ->)].
  - apply peek_zeros_inv in H. lia.
  - apply ToUint8Clamp_range.
Qed.

Lemma length_FV_blur_loop img size :
  length (FrameViewer.blur_loop img size) = length (data img).
Proof. rewrite FV_blur_loop_writes. apply length_apply_writes. Qed.

(** The output of [FrameViewer.processImage] with edge detection enabled:
    every pixel, the border included, is opaque, and its three colours hold
    its entry of the edge map. *)
Lemma FV_edge_output v img x y :
  well_formed img = true ->
  FrameViewer.edgeDetection (FrameViewer.options v) = true ->
  in_image img x y ->
  peek (FV_pipeline v img) ((y * width img + x) * 4 + 3) = Some 255
  /\ forall c, 0 <= c < 3 ->
       peek (FV_pipeline v img) ((y * width img + x) * 4 + c)
       = peek (FrameViewer.sobel_loop
                 (with_data img
                    (FrameViewer.blur_loop
                       (with_data img (FrameViewer.grayscale_loop (data img)))
                       (FrameViewer.blurSize (FrameViewer.processingOptions v))))
                 (FrameViewer.threshold1 (FrameViewer.processingOptions v))
                 (FrameViewer.threshold2 (FrameViewer.processingOptions v)))
              (y * width img + x).
Proof.
  intros Hwf He (Hx & Hy).
  pose proof (well_formed_length img Hwf) as (Hw & Hh & Hl).
  unfold FV_pipeline. cbv zeta. rewrite He, orb_true_r.
  set (d2 := FrameViewer.blur_loop _ _).
  assert (Hlen : Z.of_nat (length d2) = 4 * width img * height img).
  { unfold d2. rewrite length_FV_blur_loop. cbn [data with_data].
    now rewrite FV_grayscale_loop_pixels, length_gray_pixels. }
  replace ((y * width img + x) * 4 + 3) with (4 * (y * width img + x) + 3) by lia.
  split.
  - apply FV_copy_back_alpha; [nia | rewrite Hlen; nia].
  - intros c Hc.
    replace ((y * width img + x) * 4 + c) with (4 * (y * width img + x) + c) by lia.
    rewrite FV_copy_back_colour by (try rewrite Hlen; nia).
    set (edges := FrameViewer.sobel_loop _ _ _).
    destruct (peek_in_range edges (y * width img + x)) as (e & Hpe).
    { unfold edges. rewrite FV_sobel_loop_writes, length_apply_writes, length_zeros.
      cbn [width height with_data]. nia. }
    rewrite Hpe, get_peek, Hpe. f_equal. apply ToUint8Clamp_of_int.
    unfold edges in Hpe. eapply FV_sobel_loop_bytes, Hpe.
Qed.

Lemma byte_through_unit_kernel v :
  0 <= v <= 255 -> ToUint8Clamp ((0 + of_int v * 1) / (0 + 1))%float = v.
Proof.
  intros H. apply Z.eqb_eq. revert v H.
  apply (all_bytes (fun v => ToUint8Clamp ((0 + of_int v * 1) / (0 + 1))%float =? v)).
  vm_compute. reflexivity.
Qed.

(** [ImageProcessor.applyGaussianBlur] with [kernelSize = 1], the one size of
    radius 0 it completes on, changes nothing, provided [Math.exp(-0)] is 1
    as ECMAScript requires. *)
Lemma IP_blur_one_identity Math_exp img x y c :
  Math_exp (-0)%float = 1%float ->
  well_formed img = true -> in_image img x y -> 0 <= c < 4 ->
  exists out,
    ImageProcessor.blur_loop Math_exp img 1 = Normal out
    /\ peek out ((y * width img + x) * 4 + c)
       = peek (data img) ((y * width img + x) * 4 + c).
Proof.
  intros Hexp Hwf Hi Hc. eexists. split; [apply (IP_blur_loop_writes Math_exp img 0); lia|].
  destruct (Z.eq_dec c 3) as [-> | Hc3].
  - apply (IP_blur_alpha Math_exp img 0); (lia || assumption).
  - rewrite (IP_blur_colour Math_exp img 0) by (lia || assumption).
    destruct Hi as (Hx & Hy).
    pose proof (well_formed_length img Hwf) as (Hw & Hh & Hl).
    unfold clamped_average, clamped_sum, kernel_sum.
    change (offsets ((2 * 0 + 1) / 2)) with [(0, 0)]. cbn [fold_left fst snd].
    change (gaussian Math_exp (2 * 0 + 1) (0, 0)) with (Math_exp (-0)%float).
    rewrite Hexp. unfold clamped, sample. cbn [fst snd].
    rewrite !Z.add_0_r.
    replace (Z.min (Z.max x 0) (width img - 1)) with x by lia.
    replace (Z.min (Z.max y 0) (height img - 1)) with y by lia.
    destruct (peek_in_range (data img) ((y * width img + x) * 4 + c)) as (b & Hb);
      [rewrite Hl; nia|].
    rewrite get_peek, Hb. f_equal. apply byte_through_unit_kernel.
    eapply well_formed_bytes; eassumption.
Qed.

(** ** Levels written out, the magnitude map, sizes and the canvas *)

Lemma level_byte m low high :
  ToUint8Clamp (classify m low high)
  = if (high <? m)%float then 255 else if (low <? m)%float then 128 else 0.
Proof.
  unfold classify. destruct (high <? m)%float; [reflexivity|].
  now destruct (low <? m)%float.
Qed.

(** The entry of the edge map of [FrameViewer.applySobel] at an interior
    pixel, with the magnitude and the double threshold written out. *)
Lemma FV_sobel_interior_level img low high x y :
  interior img x y ->
  peek (FrameViewer.sobel_loop img low high) (y * width img + x)
  = Some (let m := sqrt (Gx (data img) (width img) x y * Gx (data img) (width img) x y
                         + Gy (data img) (width img) x y * Gy (data img) (width img) x y)%float in
          if (high <? m)%float then 255 else if (low <? m)%float then 128 else 0).
Proof.
  intros Hi. rewrite FV_sobel_interior by assumption. rewrite level_byte.
  reflexivity.
Qed.

Lemma IP_sobel_interior_level img low high x y k :
  interior img x y -> 0 <= k < 3 ->
  peek (ImageProcessor.sobel_loop img low high) ((y * width img + x) * 4 + k)
  = Some (let m := sqrt (Gx (data img) (width img) x y * Gx (data img) (width img) x y
                         + Gy (data img) (width img) x y * Gy (data img) (width img) x y)%float in
          if (high <? m)%float then 255 else if (low <? m)%float then 128 else 0).
Proof.
  intros Hi Hk. rewrite IP_sobel_interior by (assumption || lia).
  destruct (Z.eqb_spec k 3) as [-> | _]; [lia|]. rewrite level_byte.
  reflexivity.
Qed.

Lemma interiorb_true img x y : interiorb img x y = true <-> interior img x y.
Proof. unfold interiorb, interior. rewrite !andb_true_iff. lia. Qed.

Lemma interiorb_false img x y :
  in_image img x y -> interiorb img x y = false -> border img x y.
Proof.
  unfold interiorb, border. intros Hi H. split; [exact Hi|].
  destruct Hi as (Hx & Hy). rewrite !andb_false_iff in H. lia.
Qed.

Lemma interior_not_border img x y : interior img x y -> border img x y -> False.
Proof. unfold interior, border. lia. Qed.


(** The pixels [ImageProcessor.processImage] returns are as many as it was
    given. *)
Lemma length_IP_result Math_exp opts image d :
  0 <= width image -> 0 <= height image ->
  Z.of_nat (length (data image)) = 4 * width image * height image ->
  IP_result Math_exp opts image = Some d ->
  length d = length (data image).
Proof.
  intros Hw Hh Hl. unfold IP_result.
  destruct (ImageProcessor.edgeDetection opts).
  - destruct (ImageProcessor.blur_loop _ _ _) as [b | e]; [|discriminate].
    intros [= <-]. rewrite IP_sobel_loop_writes, length_apply_writes.
    cbn [width height with_data]. apply Nat2Z.inj.
    rewrite Hl. unfold zeros. rewrite repeat_length. nia.
  - destruct (ImageProcessor.grayscale opts); intros [= <-]; [|reflexivity].
    now rewrite IP_grayscale_loop_pixels, length_gray_pixels.
Qed.

(** An opaque image drawn over any canvas gives the pixels of the image. *)
Lemma source_over_pixels_opaque d :
  opaque_pixels d = true -> forall c, source_over_pixels d c = d.
Proof.
  induction d as [| a0 | a0 b0 | a0 b0 c0 | r g b a rest IH] using list_ind4; try discriminate.
  - reflexivity.
  - cbn [opaque_pixels]. intros H c. apply andb_true_iff in H.
    destruct H as [Ha Hr]. apply Z.eqb_eq in Ha. subst a.
    destruct c as [|r' [|g' [|b' [|a' rest']]]]; cbn [source_over_pixels];
      unfold over_pixel; cbn [Z.eqb Pos.eqb app]; now rewrite IH.
Qed.

Lemma source_over_opaque img c :
  opaque img = true -> source_over img c = data img.
Proof. intros H. now apply source_over_pixels_opaque. Qed.

(** * The properties of the pipeline *)

(** C1, as the claim states it, fails: [ImageProcessor.processImage] with
    grayscale enabled overwrites the buffer it is given. *)
Lemma grayscale_overwrites_argument :
  nth_error [one_pixel] 0 = Some one_pixel
  /\ nth_error (heap_of (ImageProcessor.processImage exp_series 0%nat gray_only
                                                     [one_pixel])) 0
     = Some (mkImageData 1 1 [124; 124; 124; 255])
  /\ mkImageData 1 1 [124; 124; 124; 255] <> one_pixel.
Proof.
  split; [reflexivity|]. split; [vm_compute; reflexivity | discriminate].
Qed.

(** C1, amended. [FrameViewer.render] processes a copy and leaves every
    object of the heap, the original among them, as it was.
    [ImageProcessor.processImage] works in place: with grayscale and edge
    detection both disabled it changes nothing; otherwise the buffer it is
    given ends up holding its grayscale conversion, also when a later stage
    throws, and blur and Sobel write to new objects only, so that no other
    object changes. *)
Theorem source_buffer_kept_or_grayed :
  (forall v h original img,
      FrameViewer.originalImageData v = Some original ->
      nth_error h original = Some img ->
      exists v' h',
        FrameViewer.render v h = Done v' h'
        /\ forall r, (r < length h)%nat -> nth_error h' r = nth_error h r)
  /\ (forall Math_exp r opts h,
      ImageProcessor.grayscale opts = false ->
      ImageProcessor.edgeDetection opts = false ->
      ImageProcessor.processImage Math_exp r opts h = Done r h)
  /\ (forall Math_exp r opts h img,
      nth_error h r = Some img ->
      ImageProcessor.grayscale opts || ImageProcessor.edgeDetection opts = true ->
      nth_error (heap_of (ImageProcessor.processImage Math_exp r opts h)) r
      = Some (with_data img (gray_pixels (data img)))
      /\ forall r', (r' < length h)%nat -> r' <> r ->
           nth_error (heap_of (ImageProcessor.processImage Math_exp r opts h)) r'
           = nth_error h r').
Proof.
  split; [|split].
  - intros v h original img Ho H. unfold FrameViewer.render at 1. rewrite Ho.
    destruct (negb (FrameViewer.currentImage v) || FrameViewer.isProcessing v) eqn:G.
    + exists v, h. split; [reflexivity | auto].
    + apply orb_false_iff in G. destruct G as [Gc Gp].
      apply negb_false_iff in Gc.
      pose proof (FV_render_run v h original img Ho Gc Gp H) as R.
      unfold FrameViewer.render in R. rewrite Ho, Gc, Gp in R. cbn [negb orb] in R.
      rewrite R. eexists. eexists. split; [reflexivity|].
      intros r Hr. now apply nth_error_app1.
  - intros Math_exp r opts h Hg He. unfold ImageProcessor.processImage.
    now rewrite Hg, He.
  - intros Math_exp r opts h img H Hf.
    destruct (IP_processImage_heap Math_exp r opts h img H Hf) as (fresh & ->).
    pose proof (nth_error_Some_lt _ _ _ H) as Hr. split.
    + rewrite nth_error_app1 by now rewrite length_update.
      rewrite (nth_error_update_hit _ _ _ _ H).
      unfold IP_gray. now rewrite IP_grayscale_loop_pixels.
    + intros r' Hr' Hne. rewrite nth_error_app1 by now rewrite length_update.
      apply nth_error_update_other. congruence.
Qed.

Lemma source_buffer_kept_or_grayed_witness :
  (exists v' h',
      FrameViewer.render (viewer true true 50 150 1) [step_image] = Done v' h'
      /\ forall r, (r < length [step_image])%nat ->
                   nth_error h' r = nth_error [step_image] r)
  /\ ImageProcessor.processImage exp_series 0%nat all_off [one_pixel]
     = Done 0%nat [one_pixel]
  /\ nth_error (heap_of (ImageProcessor.processImage exp_series 0%nat gray_only
                                                     [one_pixel])) 0
     = Some (with_data one_pixel (gray_pixels (data one_pixel))).
Proof.
  destruct source_buffer_kept_or_grayed as (A & B & C).
  split; [|split].
  - apply (A (viewer true true 50 150 1) [step_image] 0%nat step_image); reflexivity.
  - apply B; reflexivity.
  - apply (C exp_series 0%nat gray_only [one_pixel] one_pixel); reflexivity.
Defined.




(** C3, as the claim states it, fails for the Gaussian blur of
    [ImageProcessor]: at the left pixel of a black pixel beside a white one,
    with a 3x3 kernel, it stores 70, where the average over the two in-bounds
    samples is 96 with the Gaussian weights and the sum of their weights as
    divisor, and 128 with equal weights and their number as divisor. *)
Lemma gaussian_blur_clamps_at_border :
  ImageProcessor.blur_loop exp_series two_pixels 3
  = Normal [70; 70; 70; 255; 185; 185; 185; 255]
  /\ neighbourhood 2 1 1 0 0 = [(0, 0); (1, 0)]
  /\ ToUint8Clamp (excluded_average exp_series (data two_pixels) 2 1 3 0 0 0) = 96
  /\ ToUint8Clamp (box_average (data two_pixels) 2 1 1 0 0 0) = 128.
Proof. repeat split; vm_compute; reflexivity. Qed.

(** C3, amended. The box blur of [FrameViewer] stores, in each colour channel
    of each pixel, the byte of the unweighted average over the samples of the
    (2r+1)x(2r+1) square centred on the pixel that fall inside the buffer,
    [r] being the blur size: samples outside are excluded, the divisor is the
    number of samples inside, and a border pixel has fewer of them than the
    square. The Gaussian blur of [ImageProcessor] with an odd kernel size
    2r+1 instead sums over all the (2r+1)^2 offsets, reads each sample at the
    position clamped into the buffer, and divides by the sum of the whole
    kernel. *)
Theorem smoothing_average :
  (forall img size x y c,
      well_formed img = true -> in_image img x y -> 0 <= c < 3 ->
      peek (FrameViewer.blur_loop img size) ((y * width img + x) * 4 + c)
      = Some (ToUint8Clamp
                (total (map (sample (data img) (width img) c)
                            (neighbourhood (width img) (height img) size x y))
                 / count (neighbourhood (width img) (height img) size x y))%float)
      /\ NoDup (neighbourhood (width img) (height img) size x y)
      /\ (forall p,
          In p (neighbourhood (width img) (height img) size x y) <->
          (x - size <= fst p <= x + size /\ y - size <= snd p <= y + size)
          /\ 0 <= fst p < width img /\ 0 <= snd p < height img)
      /\ (Z.of_nat (length (neighbourhood (width img) (height img) size x y)) <= 2 ^ 20 ->
          count (neighbourhood (width img) (height img) size x y)
          = of_int (Z.of_nat (length (neighbourhood (width img) (height img) size x y))))
      /\ (0 < size -> border img x y ->
          Z.of_nat (length (neighbourhood (width img) (height img) size x y))
          < (2 * size + 1) * (2 * size + 1)))
  /\ (forall Math_exp img r x y c,
      0 <= r -> well_formed img = true -> in_image img x y -> 0 <= c < 3 ->
      exists out,
        ImageProcessor.blur_loop Math_exp img (2 * r + 1) = Normal out
        /\ peek out ((y * width img + x) * 4 + c)
           = Some (ToUint8Clamp
                     (clamped_sum Math_exp (data img) (width img) (height img)
                                  (2 * r + 1) x y c
                      / kernel_sum Math_exp (2 * r + 1))%float)).
Proof.
  split.
  - intros img size x y c Hwf Hi Hc. split; [|split; [|split; [|split]]].
    + now apply FV_blur_colour.
    + apply NoDup_neighbourhood.
    + intros p. apply in_neighbourhood.
    + apply count_exact.
    + intros Hs Hb. now apply neighbourhood_border_fewer.
  - intros Math_exp img r x y c Hr Hwf Hi Hc. eexists. split.
    + now apply IP_blur_loop_writes.
    + now apply IP_blur_colour.
Qed.

Lemma smoothing_average_witness :
  (well_formed step_image = true /\ in_image step_image 0 0 /\
   peek (FrameViewer.blur_loop step_image 1) ((0 * width step_image + 0) * 4 + 0)
   = Some (ToUint8Clamp
             (total (map (sample (data step_image) (width step_image) 0)
                         (neighbourhood (width step_image) (height step_image) 1 0 0))
              / count (neighbourhood (width step_image) (height step_image) 1 0 0))%float))
  /\ exists out,
      ImageProcessor.blur_loop exp_series two_pixels (2 * 1 + 1) = Normal out
      /\ peek out ((0 * width two_pixels + 0) * 4 + 0)
         = Some (ToUint8Clamp
                   (clamped_sum exp_series (data two_pixels) (width two_pixels)
                                (height two_pixels) (2 * 1 + 1) 0 0 0
                    / kernel_sum exp_series (2 * 1 + 1))%float).
Proof.
  destruct smoothing_average as (A & B). split.
  - assert (Hi : in_image step_image 0 0) by (unfold in_image; cbn; lia).
    split; [reflexivity|]. split; [exact Hi|].
    apply (A step_image 1 0 0 0); [reflexivity | exact Hi | lia].
  - apply (B exp_series two_pixels 1 0 0 0); [lia | reflexivity | | lia].
    unfold in_image; cbn; lia.
Defined.

(** C4, where the code departs from it. [applySobelEdgeDetection] stores
    alpha 255 inside its two loops, which visit interior pixels only: on the
    border the output keeps the alpha 0 of the fresh [ImageData], for every
    image and every thresholds. *)
Theorem sobel_border_alpha_is_zero (img : ImageData) (low high : number) (x y : Z) :
  border img x y ->
  peek (ImageProcessor.sobel_loop img low high) ((y * width img + x) * 4 + 3)
  = Some 0.
Proof. intros Hb. apply IP_sobel_border; [assumption | lia]. Qed.

Lemma sobel_border_alpha_is_zero_witness :
  border step_image 0 0
  /\ peek (ImageProcessor.sobel_loop step_image 50 150)
          ((0 * width step_image + 0) * 4 + 3) = Some 0.
Proof.
  assert (Hb : border step_image 0 0) by (unfold border, in_image; cbn; lia).
  split; [exact Hb|].
  apply (sobel_border_alpha_is_zero step_image 50 150 0 0 Hb).
Defined.

(** C5. The gradient stage evaluates the fixed 3x3 Sobel pair on the red
    channel, and the magnitude [sqrt (Gx * Gx + Gy * Gy)], at interior pixels
    only: the entry of the edge map at an interior pixel is the double
    threshold of that square root. A border pixel (row 0, last row, column
    0, last column) is never evaluated: its entry keeps the zero it was
    created with, for every image and all thresholds. The code keeps no
    array of magnitudes; for thresholds that are not negative its edge map
    is, at every pixel of the image, the double threshold of the magnitude
    map [gradient_magnitude], which is 0 on the border. *)
Theorem gradient_on_interior_only (img : ImageData) (low high : number) (x y : Z) :
  convolve (data img) (width img) x y
  = (Gx (data img) (width img) x y, Gy (data img) (width img) x y)
  /\ magnitude (convolve (data img) (width img) x y)
     = sqrt (Gx (data img) (width img) x y * Gx (data img) (width img) x y
             + Gy (data img) (width img) x y * Gy (data img) (width img) x y)%float
  /\ (interior img x y ->
      let m := sqrt (Gx (data img) (width img) x y * Gx (data img) (width img) x y
                     + Gy (data img) (width img) x y * Gy (data img) (width img) x y)%float in
      gradient_magnitude img x y = m
      /\ peek (FrameViewer.sobel_loop img low high) (y * width img + x)
         = Some (if (high <? m)%float then 255
                 else if (low <? m)%float then 128 else 0)
      /\ forall k, 0 <= k < 3 ->
         peek (ImageProcessor.sobel_loop img low high) ((y * width img + x) * 4 + k)
         = Some (if (high <? m)%float then 255
                 else if (low <? m)%float then 128 else 0))
  /\ (border img x y ->
      gradient_magnitude img x y = 0%float
      /\ peek (FrameViewer.sobel_loop img low high) (y * width img + x) = Some 0
      /\ forall k, 0 <= k < 3 ->
         peek (ImageProcessor.sobel_loop img low high) ((y * width img + x) * 4 + k)
         = Some 0)
  /\ (in_image img x y ->
      (0 <=? low)%float = true -> (0 <=? high)%float = true ->
      let m := gradient_magnitude img x y in
      peek (FrameViewer.sobel_loop img low high) (y * width img + x)
      = Some (if (high <? m)%float then 255
              else if (low <? m)%float then 128 else 0)
      /\ forall k, 0 <= k < 3 ->
         peek (ImageProcessor.sobel_loop img low high) ((y * width img + x) * 4 + k)
         = Some (if (high <? m)%float then 255
                 else if (low <? m)%float then 128 else 0)).
Proof.
  assert (Hint : interior img x y ->
                 gradient_magnitude img x y
                 = sqrt (Gx (data img) (width img) x y * Gx (data img) (width img) x y
                         + Gy (data img) (width img) x y * Gy (data img) (width img) x y)%float).
  { intros Hi. unfold gradient_magnitude.
    now rewrite (proj2 (interiorb_true img x y) Hi). }
  assert (Hbor : border img x y -> gradient_magnitude img x y = 0%float).
  { intros Hb. unfold gradient_magnitude.
    destruct (interiorb img x y) eqn:E; [|reflexivity].
    apply interiorb_true in E. destruct (interior_not_border img x y E Hb). }
  split; [apply convolve_sums|]. split; [reflexivity|].
  split; [|split].
  - intros Hi. cbv zeta. split; [now apply Hint|]. split.
    + now apply FV_sobel_interior_level.
    + intros k Hk. now apply IP_sobel_interior_level.
  - intros Hb. split; [now apply Hbor|]. split; [now apply FV_sobel_border|].
    intros k Hk. apply IP_sobel_border; [assumption | lia].
  - intros Hi Hl Hh. cbv zeta.
    destruct (interiorb img x y) eqn:E.
    + apply interiorb_true in E. rewrite (Hint E). split.
      * now apply FV_sobel_interior_level.
      * intros k Hk. now apply IP_sobel_interior_level.
    + apply (interiorb_false img x y Hi) in E. rewrite (Hbor E).
      rewrite (leb_ltb_false _ _ Hh), (leb_ltb_false _ _ Hl). split.
      * now apply FV_sobel_border.
      * intros k Hk. apply IP_sobel_border; [assumption | lia].
Qed.

Lemma gradient_on_interior_only_witness :
  (interior step_image 1 1 /\
   peek (FrameViewer.sobel_loop step_image 50 150) (1 * width step_image + 1)
   = Some 255)
  /\ (border step_image 2 0 /\
      peek (FrameViewer.sobel_loop step_image 50 150) (0 * width step_image + 2)
      = Some 0)
  /\ (in_image step_image 1 1 /\ (0 <=? 50)%float = true /\ (0 <=? 150)%float = true /\
      peek (ImageProcessor.sobel_loop step_image 50 150)
           ((1 * width step_image + 1) * 4 + 0)
      = Some 255).
Proof.
  split; [|split].
  - assert (Hi : interior step_image 1 1) by (unfold interior; cbn; lia).
    split; [exact Hi|].
    apply (proj1 (proj2 (proj1 (proj2 (proj2
             (gradient_on_interior_only step_image 50 150 1 1))) Hi))).
  - assert (Hb : border step_image 2 0) by (unfold border, in_image; cbn; lia).
    split; [exact Hb|].
    apply (proj1 (proj2 (proj1 (proj2 (proj2 (proj2
             (gradient_on_interior_only step_image 50 150 2 0)))) Hb))).
  - assert (Hi : in_image step_image 1 1) by (unfold in_image; cbn; lia).
    split; [exact Hi|]. split; [reflexivity|]. split; [reflexivity|].
    apply (proj2 (proj2 (proj2 (proj2 (proj2
             (gradient_on_interior_only step_image 50 150 1 1)))) Hi eq_refl eq_refl)
             0).
    lia.
Defined.

(** C6, where the code departs from it. With [blurSize = 0]
    [ImageProcessor.applyGaussianBlur] builds a kernel without rows and
    throws a [TypeError] at the first weight it looks up, for every buffer;
    so does [processImage] with edge detection enabled. *)
Theorem gaussian_blur_size_zero_throws
        (Math_exp : number -> number) (r : ref) (h : heap) (img : ImageData) :
  nth_error h r = Some img ->
  well_formed img = true ->
  ImageProcessor.applyGaussianBlur Math_exp r 0 h
  = Raised TypeError (h ++ [new_ImageData (width img) (height img)])
  /\ forall opts,
      ImageProcessor.edgeDetection opts = true ->
      ImageProcessor.blurSize opts = 0 ->
      exists h', ImageProcessor.processImage Math_exp r opts h = Raised TypeError h'.
Proof.
  intros H Hwf. apply well_formed_length in Hwf. destruct Hwf as (Hw & Hh & _).
  split.
  - rewrite (IP_applyGaussianBlur_run _ _ _ _ _ H).
    now rewrite IP_blur_loop_zero.
  - intros opts He Hs. rewrite (IP_processImage_run _ _ _ _ _ H), He, Hs.
    rewrite IP_blur_loop_zero by assumption. eauto.
Qed.

Lemma gaussian_blur_size_zero_throws_witness :
  nth_error [one_pixel] 0 = Some one_pixel
  /\ well_formed one_pixel = true
  /\ ImageProcessor.applyGaussianBlur exp_series 0%nat 0 [one_pixel]
     = Raised TypeError ([one_pixel] ++ [new_ImageData 1 1]).
Proof.
  split; [reflexivity|]. split; [reflexivity|].
  apply (proj1 (gaussian_blur_size_zero_throws exp_series 0%nat [one_pixel] one_pixel
                  eq_refl eq_refl)).
Defined.

(** C7. The grayscale stage is idempotent: converting a buffer that was
    converted leaves it as it is. Both grayscale loops store the luminance
    [0.299 R + 0.587 G + 0.114 B] as a byte into R, G and B; the same holds
    of [convertToGrayscale] run twice on one object of the heap. *)
Theorem grayscale_idempotent :
  (forall d,
      ImageProcessor.grayscale_loop (ImageProcessor.grayscale_loop d)
      = ImageProcessor.grayscale_loop d)
  /\ (forall d,
      FrameViewer.grayscale_loop (FrameViewer.grayscale_loop d)
      = FrameViewer.grayscale_loop d)
  /\ (forall r h img,
      nth_error h r = Some img ->
      (r1 <- ImageProcessor.convertToGrayscale r ;;
       ImageProcessor.convertToGrayscale r1) h
      = ImageProcessor.convertToGrayscale r h).
Proof.
  split; [|split].
  - intros d. rewrite !IP_grayscale_loop_pixels. apply gray_pixels_idempotent.
  - intros d. rewrite !FV_grayscale_loop_pixels. apply gray_pixels_idempotent.
  - intros r h img H.
    rewrite (bind_run _ _ _ _ _ (IP_convertToGrayscale_run _ _ _ H)).
    rewrite (IP_convertToGrayscale_run _ _ (IP_gray img))
      by (eapply nth_error_update_hit, H).
    rewrite (IP_convertToGrayscale_run _ _ _ H), update_update.
    unfold IP_gray, with_data. cbn [data width height].
    rewrite !IP_grayscale_loop_pixels, gray_pixels_idempotent. reflexivity.
Qed.

Lemma grayscale_idempotent_witness :
  nth_error [one_pixel] 0 = Some one_pixel /\
  (r1 <- ImageProcessor.convertToGrayscale 0%nat ;;
   ImageProcessor.convertToGrayscale r1) [one_pixel]
  = ImageProcessor.convertToGrayscale 0%nat [one_pixel].
Proof.
  split; [reflexivity|].
  apply (proj2 (proj2 grayscale_idempotent) 0%nat [one_pixel] one_pixel).
  reflexivity.
Defined.

(** C8. With grayscale and edge detection both disabled the pipeline returns
    the pixels it was given: [ImageProcessor.processImage] returns its
    argument and touches nothing, [FrameViewer.render] draws a copy that is
    pixel-equal to the original. *)
Theorem disabled_pipeline_is_identity :
  (forall Math_exp r opts h,
      ImageProcessor.grayscale opts = false ->
      ImageProcessor.edgeDetection opts = false ->
      ImageProcessor.processImage Math_exp r opts h = Done r h)
  /\ (forall v h original img,
      FrameViewer.originalImageData v = Some original ->
      nth_error h original = Some img ->
      FrameViewer.currentImage v = true ->
      FrameViewer.isProcessing v = false ->
      FrameViewer.grayscale (FrameViewer.options v) = false ->
      FrameViewer.edgeDetection (FrameViewer.options v) = false ->
      exists v', FrameViewer.render v h = Done v' (h ++ [img])
                 /\ FrameViewer.canvas v' = data img).
Proof.
  split.
  - intros Math_exp r opts h Hg He. unfold ImageProcessor.processImage.
    now rewrite Hg, He.
  - intros v h original img Ho H Hc Hp Hg He.
    rewrite (FV_render_run v h original img Ho Hc Hp H).
    assert (E : FV_pipeline v img = data img).
    { unfold FV_pipeline. cbv zeta. now rewrite Hg, He. }
    rewrite E, with_data_id. eexists. split; reflexivity.
Qed.

Lemma disabled_pipeline_is_identity_witness :
  ImageProcessor.processImage exp_series 0%nat all_off [step_image]
  = Done 0%nat [step_image]
  /\ exists v', FrameViewer.render (viewer false false 50 150 5) [step_image]
                = Done v' ([step_image] ++ [step_image])
                /\ FrameViewer.canvas v' = data step_image.
Proof.
  split.
  - apply (proj1 disabled_pipeline_is_identity); reflexivity.
  - apply (proj2 disabled_pipeline_is_identity _ _ 0%nat); reflexivity.
Defined.

(** C9. On the 3x3 step (left column 0, the two right columns 255) with blur
    radius 0, which leaves the buffer as it is, the gradient at the only
    interior pixel (1,1) has Gx = 1020, not zero, Gy = 0, and the magnitude
    is |Gx|. *)
Theorem step_edge_gradient :
  FrameViewer.blur_loop step_image 0 = data step_image
  /\ (forall x y, interior step_image x y <-> x = 1 /\ y = 1)
  /\ convolve (FrameViewer.blur_loop step_image 0) 3 1 1 = (1020%float, 0%float)
  /\ (1020 =? 0)%float = false
  /\ magnitude (convolve (FrameViewer.blur_loop step_image 0) 3 1 1)
     = abs 1020%float.
Proof.
  split; [vm_compute; reflexivity|].
  split; [intros x y; unfold interior; cbn; lia|].
  split; [vm_compute; reflexivity|].
  split; vm_compute; reflexivity.
Qed.

(** C10. With the thresholds inverted, [highThreshold <= lowThreshold], the
    double threshold never selects the weak level 128: the comparison with
    [highThreshold] comes first, so a magnitude above it is strong (255)
    whatever [lowThreshold] is, and every other magnitude is no edge (0).
    So the edge map of either implementation holds, at an interior pixel,
    255 when the magnitude [sqrt (Gx * Gx + Gy * Gy)] of the pixel is above
    [highThreshold] and 0 when it is not, and every byte of it is 0 or
    255. *)
Theorem inverted_thresholds_never_weak (low high : number) :
  (high <=? low)%float = true ->
  (forall m,
      ToUint8Clamp (classify m low high) <> 128
      /\ ((high <? m)%float = true -> ToUint8Clamp (classify m low high) = 255)
      /\ ((high <? m)%float = false -> ToUint8Clamp (classify m low high) = 0))
  /\ (forall img x y,
      interior img x y ->
      let m := sqrt (Gx (data img) (width img) x y * Gx (data img) (width img) x y
                     + Gy (data img) (width img) x y * Gy (data img) (width img) x y)%float in
      peek (FrameViewer.sobel_loop img low high) (y * width img + x)
      = Some (if (high <? m)%float then 255 else 0)
      /\ forall k, 0 <= k < 3 ->
         peek (ImageProcessor.sobel_loop img low high) ((y * width img + x) * 4 + k)
         = Some (if (high <? m)%float then 255 else 0))
  /\ (forall img j v,
      peek (FrameViewer.sobel_loop img low high) j = Some v -> v = 0 \/ v = 255)
  /\ (forall img j v,
      peek (ImageProcessor.sobel_loop img low high) j = Some v -> v = 0 \/ v = 255).
Proof.
  intros Hinv.
  assert (Hm : forall m,
             ToUint8Clamp (classify m low high) <> 128
             /\ ((high <? m)%float = true -> ToUint8Clamp (classify m low high) = 255)
             /\ ((high <? m)%float = false -> ToUint8Clamp (classify m low high) = 0)).
  { intros m. unfold classify.
    destruct (high <? m)%float eqn:Hh.
    - split; [vm_compute; discriminate|].
      split; [reflexivity | discriminate].
    - destruct (low <? m)%float eqn:Hl.
      + rewrite (leb_ltb_trans _ _ _ Hinv Hl) in Hh. discriminate.
      + split; [vm_compute; discriminate|].
        split; [discriminate | reflexivity]. }
  assert (Hc : forall m, ToUint8Clamp (classify m low high) = 0
                         \/ ToUint8Clamp (classify m low high) = 255).
  { intros m. destruct (Hm m) as (_ & H1 & H0).
    destruct (high <? m)%float; [right | left]; auto. }
  assert (Hchain : forall m : number,
             (if (high <? m)%float then 255
              else if (low <? m)%float then 128 else 0)
             = if (high <? m)%float then 255 else 0).
  { intros m. destruct (high <? m)%float eqn:Hh; [reflexivity|].
    destruct (low <? m)%float eqn:Hl; [|reflexivity].
    rewrite (leb_ltb_trans _ _ _ Hinv Hl) in Hh. discriminate. }
  split; [exact Hm|]. split; [|split].
  - intros img x y Hi. cbv zeta. split.
    + rewrite FV_sobel_interior_level by assumption. cbv zeta.
      now rewrite Hchain.
    + intros k Hk. rewrite IP_sobel_interior_level by assumption. cbv zeta.
      now rewrite Hchain.
  - intros img j v H. rewrite FV_sobel_loop_writes in H.
    apply peek_apply_writes_cases in H. destruct H as [H | (w & Hw & ->)].
    + left. eapply peek_zeros_inv, H.
    + apply in_FV_sobel_writes in Hw. destruct Hw as (x & y & _ & ->). apply Hc.
  - intros img j v H. rewrite IP_sobel_loop_writes in H.
    apply peek_apply_writes_cases in H. destruct H as [H | (w & Hw & ->)].
    + left. eapply peek_zeros_inv, H.
    + apply in_IP_sobel_writes in Hw. destruct Hw as (x & y & _ & Hw).
      cbv zeta in Hw. destruct Hw as [-> | [-> | [-> | ->]]]; cbn [snd];
        try apply Hc. now right.
Qed.

Lemma inverted_thresholds_never_weak_witness :
  (50 <=? 150)%float = true
  /\ ToUint8Clamp (classify 1020 150 50) = 255
  /\ ToUint8Clamp (classify 100 150 50) = 255
  /\ ToUint8Clamp (classify 40 150 50) = 0
  /\ (interior step_image 1 1
      /\ peek (FrameViewer.sobel_loop step_image 150 50) (1 * width step_image + 1)
         = Some 255
      /\ peek (ImageProcessor.sobel_loop step_image 150 50)
              ((1 * width step_image + 1) * 4 + 0)
         = Some 255).
Proof.
  split; [reflexivity|].
  destruct (inverted_thresholds_never_weak 150 50 eq_refl) as (H & L & _ & _).
  split; [apply (H 1020%float); reflexivity|].
  split; [apply (H 100%float); reflexivity|].
  split; [apply (H 40%float); reflexivity|].
  assert (Hi : interior step_image 1 1) by (unfold interior; cbn; lia).
  split; [exact Hi|]. split.
  - apply (proj1 (L step_image 1 1 Hi)).
  - apply (proj2 (L step_image 1 1 Hi) 0). lia.
Defined.

(** * Further properties of the code *)

(** ** More on order, loops and bytes *)

Lemma SFltb_SFleb_trans x y z :
  SFltb x y = true -> SFleb y z = true -> SFltb x z = true.
Proof.
  unfold SFleb, SFltb, SFcompare.
  sf_destruct x; sf_destruct y; sf_destruct z;
    try reflexivity; try discriminate; intros H1 H2; sf_cases.
Qed.

Lemma ltb_leb_trans (x y z : number) :
  (x <? y)%float = true -> (y <=? z)%float = true -> (x <? z)%float = true.
Proof. rewrite leb_spec, !ltb_spec. apply SFltb_SFleb_trans. Qed.

(** A loop with an iteration that throws whatever the state is throws. *)
Lemma fold_c_abrupt {S : Type} (body : Z -> S -> completion S) (l : list Z) (i : Z) :
  In i l -> (forall s, body i s = Abrupt TypeError) ->
  forall s, fold_c body l s = Abrupt TypeError.
Proof.
  intros Hin Hi. induction l as [|a l IH]; intros s; [destruct Hin|].
  cbn [fold_c]. destruct Hin as [-> | Hin].
  - now rewrite Hi.
  - destruct (body a s) as [s' | []]; [now apply IH | reflexivity].
Qed.

(** What every iteration keeps, the loop keeps when it completes. *)
Lemma fold_c_invariant {S : Type} (P : S -> Prop) (body : Z -> S -> completion S)
      (l : list Z) :
  (forall i s s', P s -> body i s = Normal s' -> P s') ->
  forall s s', P s -> fold_c body l s = Normal s' -> P s'.
Proof.
  intros Hb. induction l as [|a l IH]; intros s s' Hs H; cbn [fold_c] in H.
  - injection H as <-. exact Hs.
  - destruct (body a s) as [s1 | e] eqn:E; [|discriminate].
    eapply IH; [eapply Hb; eassumption | exact H].
Qed.

Lemma bytes_update n v a : 0 <= v <= 255 -> bytes a -> bytes (update n v a).
Proof.
  unfold bytes. intros Hv. revert n. induction a as [|x a IH]; intros [|n] H; cbn in *;
    try reflexivity; apply andb_true_iff in H; destruct H as [Hx Ha];
    apply andb_true_iff; split; auto.
  unfold byteb. lia.
Qed.

Lemma bytes_set a i v : bytes a -> bytes (set a i v).
Proof.
  intros H. unfold set. destruct (_ && _); [|exact H].
  apply bytes_update; [apply ToUint8Clamp_range | exact H].
Qed.

Lemma bytes_apply_writes ws a : bytes a -> bytes (apply_writes ws a).
Proof.
  revert a. induction ws as [|w ws IH]; intros a H; [exact H|].
  change (apply_writes (w :: ws) a) with (apply_writes ws (set a (fst w) (snd w))).
  apply IH, bytes_set, H.
Qed.

Lemma bytes_zeros n : bytes (zeros n).
Proof.
  unfold bytes, zeros. apply forallb_forall. intros x Hx.
  apply repeat_spec in Hx. now subst x.
Qed.

Lemma bytes_gray_pixels d : bytes d -> bytes (gray_pixels d).
Proof.
  unfold bytes. induction d as [|a|a b|a b c|a b c e rest IH] using list_ind4;
    intros H; try reflexivity.
  - cbn [gray_pixels forallb]. pose proof (luma_range a b c). unfold byteb.
    repeat (apply andb_true_iff; split); lia.
  - cbn [gray_pixels forallb] in *.
    repeat (apply andb_true_iff in H; destruct H as [? H]).
    pose proof (luma_range a b c). unfold byteb in *.
    repeat (apply andb_true_iff; split); try lia. now apply IH.
Qed.

Lemma well_formed_bytes_all img : well_formed img = true -> bytes (data img).
Proof. unfold well_formed, bytes. rewrite !andb_true_iff. tauto. Qed.

Lemma well_formed_intro w h d :
  0 < w -> 0 < h -> Z.of_nat (length d) = 4 * w * h -> bytes d ->
  well_formed (mkImageData w h d) = true.
Proof.
  intros Hw Hh Hl Hb. unfold well_formed. cbn [width height data].
  rewrite Hb. repeat (apply andb_true_iff; split); try reflexivity; lia.
Qed.

(** ** The Gaussian kernel and the sizes it fails on *)

Lemma length_createGaussianKernel Math_exp size sigma :
  Z.of_nat (length (ImageProcessor.createGaussianKernel Math_exp size sigma))
  = Z.max 0 size.
Proof.
  unfold ImageProcessor.createGaussianKernel. cbv zeta.
  rewrite length_map, length_range. lia.
Qed.

Lemma kernel_at_missing_row Math_exp size sigma i j :
  i < 0 \/ size <= i ->
  ImageProcessor.kernel_at (ImageProcessor.createGaussianKernel Math_exp size sigma) i j
  = Abrupt TypeError.
Proof.
  intros Hi. unfold ImageProcessor.kernel_at.
  destruct (Z.ltb_spec i 0) as [_ | Hn]; [reflexivity|].
  destruct (nth_error _ _) eqn:E; [|reflexivity].
  apply nth_error_Some_lt in E.
  pose proof (length_createGaussianKernel Math_exp size sigma). exfalso. lia.
Qed.

Lemma kernel_at_row Math_exp size sigma i j :
  0 <= i < size ->
  ImageProcessor.kernel_at (ImageProcessor.createGaussianKernel Math_exp size sigma) i j
  = Normal
      (if (0 <=? j) && (j <? size)
       then Math_exp (- of_int ((j - size / 2) * (j - size / 2)
                                + (i - size / 2) * (i - size / 2))
                      / (2 * sigma * sigma))%float
       else NaN).
Proof.
  intros Hi. unfold ImageProcessor.kernel_at, ImageProcessor.createGaussianKernel.
  cbv zeta.
  destruct (Z.ltb_spec i 0) as [Hn | _]; [exfalso; lia|].
  rewrite nth_error_map.
  replace (Z.to_nat i) with (Z.to_nat (i - 0)) by (f_equal; lia).
  rewrite nth_error_range by lia. cbn [option_map]. f_equal.
  unfold at_.
  destruct (Z.ltb_spec j 0) as [Hj | Hj].
  - replace (0 <=? j) with false by lia. reflexivity.
  - replace (0 <=? j) with true by lia. cbn [andb].
    destruct (Z.ltb_spec j size) as [Hlt | Hge].
    + replace (Z.to_nat j) with (Z.to_nat (j - 0)) by (f_equal; lia).
      now rewrite nth_map_range by lia.
    + apply nth_overflow. rewrite length_map, length_range. lia.
Qed.

Lemma weighted_sums_even Math_exp data w h k x y sigma :
  0 <= k ->
  ImageProcessor.weighted_sums
    (ImageProcessor.createGaussianKernel Math_exp (2 * k) sigma) data w h k x y
  = Abrupt TypeError.
Proof.
  intros Hk. unfold ImageProcessor.weighted_sums, for_le_c, for_lt_c.
  apply (fold_c_abrupt _ _ k); [apply in_range; lia|].
  intros s. rewrite (range_cons (- k)) by lia. cbn [fold_c].
  destruct s as [[[r g] b] n].
  now rewrite kernel_at_missing_row by lia.
Qed.

Lemma IP_blur_loop_even Math_exp img k :
  0 <= k -> 0 < width img -> 0 < height img ->
  ImageProcessor.blur_loop Math_exp img (2 * k) = Abrupt TypeError.
Proof.
  intros Hk Hw Hh. unfold ImageProcessor.blur_loop. cbv zeta.
  assert (E : 2 * k / 2 = k) by (rewrite Z.mul_comm; apply Z.div_mul; lia).
  rewrite E. unfold for_lt_c.
  rewrite (range_cons 0 (height img)) by lia. cbn [fold_c].
  rewrite (range_cons 0 (width img)) by lia. cbn [fold_c].
  now rewrite weighted_sums_even.
Qed.

(** The stores of the Gaussian blur are those of [IP_blur_writes] also for a
    negative kernel size, where no weight is looked up. *)
Lemma IP_blur_loop_writes_negative Math_exp img size :
  size < 0 ->
  ImageProcessor.blur_loop Math_exp img size
  = Normal (apply_writes (IP_blur_writes Math_exp img size)
                         (zeros (4 * width img * height img))).
Proof.
  intros Hs.
  assert (Hr : size / 2 < 0) by (apply Z.div_lt_upper_bound; lia).
  unfold ImageProcessor.blur_loop. cbv zeta.
  unfold IP_blur_writes. cbv zeta.
  rewrite <- fold_apply_writes.
  apply (for_lt_c_normal 0 (height img) _
           (fun y a => apply_writes (flat_map _ (range 0 (width img))) a)).
  intros y s _.
  rewrite <- fold_apply_writes.
  apply (for_lt_c_normal 0 (width img) _ (fun x a => apply_writes _ a)).
  intros x s' _.
  unfold ImageProcessor.weighted_sums, for_le_c, for_lt_c.
  rewrite (range_nil (- (size / 2))) by lia. cbn [fold_c].
  unfold clamped_average, clamped_sum, kernel_sum, offsets.
  rewrite (range_nil (- (size / 2))) by lia. reflexivity.
Qed.

Lemma IP_blur_writes_colour Math_exp img size x y c :
  in_image img x y -> 0 <= c < 3 ->
  peek (apply_writes (IP_blur_writes Math_exp img size)
                     (zeros (4 * width img * height img)))
       ((y * width img + x) * 4 + c)
  = Some (ToUint8Clamp
            (clamped_average Math_exp (data img) (width img) (height img) size x y c)).
Proof.
  intros Hi Hc. pose proof Hi as (Hx & Hy).
  apply peek_apply_writes_hit.
  - rewrite length_zeros. nia.
  - eexists. split;
      [apply in_IP_blur_writes; exists x, y; split; [exact Hi|]; left; exists c; auto
      | reflexivity].
  - intros w Hin E. apply in_IP_blur_writes in Hin.
    destruct Hin as (x' & y' & (Hx' & Hy') & [(c' & Hc' & ->) | ->]); cbn [fst snd] in *.
    + apply channel_index_inj in E; [|lia|lia]. destruct E as [E ->].
      apply pixel_index_inj in E; [|lia|lia]. destruct E as [-> ->]. reflexivity.
    + apply channel_index_inj in E; [|lia|lia]. exfalso. lia.
Qed.

Lemma IP_blur_writes_alpha Math_exp img size x y :
  well_formed img = true -> in_image img x y ->
  peek (apply_writes (IP_blur_writes Math_exp img size)
                     (zeros (4 * width img * height img)))
       ((y * width img + x) * 4 + 3)
  = peek (data img) ((y * width img + x) * 4 + 3).
Proof.
  intros Hwf Hi. pose proof Hi as (Hx & Hy).
  pose proof (well_formed_length img Hwf) as (Hw & Hh & Hl).
  destruct (peek_in_range (data img) ((y * width img + x) * 4 + 3)) as (v & Hv);
    [rewrite Hl; nia|].
  rewrite Hv.
  assert (Hget : ToUint8Clamp (get (data img) ((y * width img + x) * 4 + 3)) = v).
  { rewrite get_peek, Hv. apply ToUint8Clamp_of_int.
    eapply well_formed_bytes; eassumption. }
  apply peek_apply_writes_hit.
  - rewrite length_zeros. nia.
  - eexists. split;
      [apply in_IP_blur_writes; exists x, y; split; [exact Hi|]; now right
      | reflexivity].
  - intros w Hin E. apply in_IP_blur_writes in Hin.
    destruct Hin as (x' & y' & (Hx' & Hy') & [(c' & Hc' & ->) | ->]); cbn [fst snd] in *.
    + apply channel_index_inj in E; [|lia|lia]. exfalso. lia.
    + apply channel_index_inj in E; [|lia|lia]. destruct E as [E _].
      apply pixel_index_inj in E; [|lia|lia]. destruct E as [-> ->]. exact Hget.
Qed.

(** X1. [createGaussianKernel(size, sigma)] returns [size] rows (none when
    [size] is not positive). Inside it the weight at row [i], column [j] is
    [Math.exp] of [-((j-c)^2 + (i-c)^2) / (2 sigma^2)] with [c = floor(size/2)],
    so the kernel equals its transpose; reading a column that is not there
    gives [undefined] (NaN in the sums), reading a row that is not there
    throws a [TypeError]. *)
Theorem gaussian_kernel_lookup (Math_exp : number -> number) (size : Z) (sigma : number) :
  Z.of_nat (length (ImageProcessor.createGaussianKernel Math_exp size sigma))
  = Z.max 0 size
  /\ (forall i j, 0 <= i < size -> 0 <= j < size ->
      ImageProcessor.kernel_at
        (ImageProcessor.createGaussianKernel Math_exp size sigma) i j
      = Normal (Math_exp (- of_int ((j - size / 2) * (j - size / 2)
                                    + (i - size / 2) * (i - size / 2))
                          / (2 * sigma * sigma))%float)
      /\ ImageProcessor.kernel_at
           (ImageProcessor.createGaussianKernel Math_exp size sigma) i j
         = ImageProcessor.kernel_at
             (ImageProcessor.createGaussianKernel Math_exp size sigma) j i)
  /\ (forall i j, 0 <= i < size -> j < 0 \/ size <= j ->
      ImageProcessor.kernel_at
        (ImageProcessor.createGaussianKernel Math_exp size sigma) i j
      = Normal NaN)
  /\ (forall i j, i < 0 \/ size <= i ->
      ImageProcessor.kernel_at
        (ImageProcessor.createGaussianKernel Math_exp size sigma) i j
      = Abrupt TypeError).
Proof.
  split; [apply length_createGaussianKernel|]. split; [|split].
  - intros i j Hi Hj. rewrite !kernel_at_row by assumption.
    replace ((0 <=? j) && (j <? size)) with true by lia.
    replace ((0 <=? i) && (i <? size)) with true by lia.
    split; [reflexivity|]. now rewrite Z.add_comm.
  - intros i j Hi Hj. rewrite kernel_at_row by assumption.
    now replace ((0 <=? j) && (j <? size)) with false by lia.
  - intros i j Hi. now apply kernel_at_missing_row.
Qed.

Lemma gaussian_kernel_lookup_witness :
  ImageProcessor.kernel_at (ImageProcessor.createGaussianKernel exp_series 3 1) 0 1
  = ImageProcessor.kernel_at (ImageProcessor.createGaussianKernel exp_series 3 1) 1 0
  /\ ImageProcessor.kernel_at (ImageProcessor.createGaussianKernel exp_series 4 1) 1 4
     = Normal NaN
  /\ ImageProcessor.kernel_at (ImageProcessor.createGaussianKernel exp_series 4 1) 4 0
     = Abrupt TypeError.
Proof.
  split; [|split].
  - apply (proj1 (proj2 (gaussian_kernel_lookup exp_series 3 1)) 0 1); lia.
  - apply (proj1 (proj2 (proj2 (gaussian_kernel_lookup exp_series 4 1))) 1 4); lia.
  - apply (proj2 (proj2 (proj2 (gaussian_kernel_lookup exp_series 4 1))) 4 0); lia.
Defined.

(** X2. With an even kernel size, zero included, [applyGaussianBlur] of
    [ImageProcessor] throws a [TypeError] on every buffer: the radius
    [size/2] makes the loops ask for row [size] of a kernel of [size] rows.
    [processImage] with edge detection enabled then throws as well, after
    grayscale has been applied to its argument. *)
Theorem even_kernel_size_throws
        (Math_exp : number -> number) (r : ref) (h : heap) (img : ImageData) (k : Z) :
  nth_error h r = Some img ->
  well_formed img = true ->
  0 <= k ->
  ImageProcessor.applyGaussianBlur Math_exp r (2 * k) h
  = Raised TypeError (h ++ [new_ImageData (width img) (height img)])
  /\ forall opts,
      ImageProcessor.edgeDetection opts = true ->
      ImageProcessor.blurSize opts = 2 * k ->
      ImageProcessor.processImage Math_exp r opts h
      = Raised TypeError (update r (IP_gray img) h
                          ++ [new_ImageData (width img) (height img)]).
Proof.
  intros H Hwf Hk. apply well_formed_length in Hwf. destruct Hwf as (Hw & Hh & _).
  split.
  - rewrite (IP_applyGaussianBlur_run _ _ _ _ _ H).
    now rewrite IP_blur_loop_even.
  - intros opts He Hs. rewrite (IP_processImage_run _ _ _ _ _ H), He, Hs.
    now rewrite IP_blur_loop_even.
Qed.

Lemma even_kernel_size_throws_witness :
  nth_error [step_image] 0 = Some step_image
  /\ well_formed step_image = true
  /\ ImageProcessor.applyGaussianBlur exp_series 0%nat (2 * 2) [step_image]
     = Raised TypeError ([step_image] ++ [new_ImageData 3 3]).
Proof.
  split; [reflexivity|]. split; [reflexivity|].
  apply (proj1 (even_kernel_size_throws exp_series 0%nat [step_image] step_image 2
                  eq_refl eq_refl ltac:(lia))).
Defined.

(** X3. With a negative kernel size [applyGaussianBlur] of [ImageProcessor]
    completes without looking up any weight: both sums are 0, the quotient
    0/0 is NaN, and every colour channel of the output is 0; alpha is copied
    from the input. *)
Theorem negative_kernel_size_blanks
        (Math_exp : number -> number) (img : ImageData) (size x y : Z) :
  size < 0 ->
  well_formed img = true ->
  in_image img x y ->
  exists out,
    ImageProcessor.blur_loop Math_exp img size = Normal out
    /\ (forall c, 0 <= c < 3 -> peek out ((y * width img + x) * 4 + c) = Some 0)
    /\ peek out ((y * width img + x) * 4 + 3)
       = peek (data img) ((y * width img + x) * 4 + 3).
Proof.
  intros Hs Hwf Hi. eexists. split; [now apply IP_blur_loop_writes_negative|].
  split.
  - intros c Hc. rewrite IP_blur_writes_colour by assumption.
    assert (Hr : size / 2 < 0) by (apply Z.div_lt_upper_bound; lia).
    unfold clamped_average, clamped_sum, kernel_sum, offsets.
    rewrite (range_nil (- (size / 2))) by lia. reflexivity.
  - now apply IP_blur_writes_alpha.
Qed.

Lemma negative_kernel_size_blanks_witness :
  -1 < 0 /\ well_formed step_image = true /\ in_image step_image 1 1
  /\ exists out,
      ImageProcessor.blur_loop exp_series step_image (-1) = Normal out
      /\ (forall c, 0 <= c < 3 ->
          peek out ((1 * width step_image + 1) * 4 + c) = Some 0)
      /\ peek out ((1 * width step_image + 1) * 4 + 3)
         = peek (data step_image) ((1 * width step_image + 1) * 4 + 3).
Proof.
  assert (Hi : in_image step_image 1 1) by (unfold in_image; cbn; lia).
  split; [lia|]. split; [reflexivity|]. split; [exact Hi|].
  apply (negative_kernel_size_blanks exp_series step_image (-1) 1 1);
    [lia | reflexivity | exact Hi].
Defined.

(** X4. With a negative size the box blur of [FrameViewer] visits no sample:
    the count is 0, the quotient 0/0 is NaN, and every colour channel becomes
    0; alpha is not stored to and keeps its value. *)
Theorem negative_box_size_blanks (img : ImageData) (size x y : Z) :
  size < 0 ->
  well_formed img = true ->
  in_image img x y ->
  (forall c, 0 <= c < 3 ->
     peek (FrameViewer.blur_loop img size) ((y * width img + x) * 4 + c) = Some 0)
  /\ peek (FrameViewer.blur_loop img size) ((y * width img + x) * 4 + 3)
     = peek (data img) ((y * width img + x) * 4 + 3).
Proof.
  intros Hs Hwf Hi. split.
  - intros c Hc. rewrite FV_blur_colour by assumption.
    unfold box_average, neighbourhood, square.
    rewrite (range_nil (- size)) by lia. reflexivity.
  - now apply FV_blur_alpha.
Qed.

Lemma negative_box_size_blanks_witness :
  -2 < 0 /\ well_formed step_image = true /\ in_image step_image 2 1
  /\ (forall c, 0 <= c < 3 ->
      peek (FrameViewer.blur_loop step_image (-2)) ((1 * width step_image + 2) * 4 + c)
      = Some 0).
Proof.
  assert (Hi : in_image step_image 2 1) by (unfold in_image; cbn; lia).
  split; [lia|]. split; [reflexivity|]. split; [exact Hi|].
  apply (proj1 (negative_box_size_blanks step_image (-2) 2 1
                  ltac:(lia) eq_refl Hi)).
Defined.

(** ** Grayscale pixel by pixel, and the shape of the outputs *)

Lemma peek_cons_pos x l i : 0 < i -> peek (x :: l) i = peek l (i - 1).
Proof.
  intros H. unfold peek.
  destruct (Z.ltb_spec i 0) as [Hn | _]; [exfalso; lia|].
  destruct (Z.ltb_spec (i - 1) 0) as [Hn | _]; [exfalso; lia|].
  replace (Z.to_nat i) with (S (Z.to_nat (i - 1))) by lia. reflexivity.
Qed.

Lemma peek_skip4 a b c e l i :
  0 <= i -> peek (a :: b :: c :: e :: l) (i + 4) = peek l i.
Proof.
  intros H. rewrite !peek_cons_pos by lia. f_equal. lia.
Qed.

Lemma gray_pixels_pixel (p : nat) :
  forall d r g b a,
    peek d (4 * Z.of_nat p) = Some r ->
    peek d (4 * Z.of_nat p + 1) = Some g ->
    peek d (4 * Z.of_nat p + 2) = Some b ->
    peek d (4 * Z.of_nat p + 3) = Some a ->
    peek (gray_pixels d) (4 * Z.of_nat p) = Some (luma r g b)
    /\ peek (gray_pixels d) (4 * Z.of_nat p + 1) = Some (luma r g b)
    /\ peek (gray_pixels d) (4 * Z.of_nat p + 2) = Some (luma r g b)
    /\ peek (gray_pixels d) (4 * Z.of_nat p + 3) = Some a.
Proof.
  induction p as [|p IH]; intros d r g b a Hr Hg Hb Ha.
  - destruct d as [|x0 [|x1 [|x2 [|x3 rest]]]];
      try (apply peek_Some_range in Ha; cbn in Ha; lia).
    cbn in Hr, Hg, Hb, Ha. injection Hr as <-. injection Hg as <-.
    injection Hb as <-. injection Ha as <-. cbn [gray_pixels]. repeat split.
  - destruct d as [|x0 [|x1 [|x2 [|x3 rest]]]];
      try (apply peek_Some_range in Ha; cbn [length] in Ha; lia).
    cbn [gray_pixels].
    replace (4 * Z.of_nat (S p)) with (4 * Z.of_nat p + 4) in * by lia.
    replace (4 * Z.of_nat p + 4 + 1) with (4 * Z.of_nat p + 1 + 4) in * by lia.
    replace (4 * Z.of_nat p + 4 + 2) with (4 * Z.of_nat p + 2 + 4) in * by lia.
    replace (4 * Z.of_nat p + 4 + 3) with (4 * Z.of_nat p + 3 + 4) in * by lia.
    rewrite !peek_skip4 in * by lia. now apply IH.
Qed.

(** X5. Both grayscale loops keep the length of the array, store in R, G and
    B of every pixel one and the same byte, the luminance
    [0.299 R + 0.587 G + 0.114 B] of the pixel converted by [ToUint8Clamp],
    and leave its alpha as it was. *)
Theorem grayscale_pixelwise (d : Uint8ClampedArray) (p r g b a : Z) :
  0 <= p ->
  peek d (4 * p) = Some r ->
  peek d (4 * p + 1) = Some g ->
  peek d (4 * p + 2) = Some b ->
  peek d (4 * p + 3) = Some a ->
  (length (ImageProcessor.grayscale_loop d) = length d
   /\ peek (ImageProcessor.grayscale_loop d) (4 * p) = Some (luma r g b)
   /\ peek (ImageProcessor.grayscale_loop d) (4 * p + 1) = Some (luma r g b)
   /\ peek (ImageProcessor.grayscale_loop d) (4 * p + 2) = Some (luma r g b)
   /\ peek (ImageProcessor.grayscale_loop d) (4 * p + 3) = Some a)
  /\ (length (FrameViewer.grayscale_loop d) = length d
      /\ peek (FrameViewer.grayscale_loop d) (4 * p) = Some (luma r g b)
      /\ peek (FrameViewer.grayscale_loop d) (4 * p + 1) = Some (luma r g b)
      /\ peek (FrameViewer.grayscale_loop d) (4 * p + 2) = Some (luma r g b)
      /\ peek (FrameViewer.grayscale_loop d) (4 * p + 3) = Some a).
Proof.
  intros Hp Hr Hg Hb Ha.
  rewrite IP_grayscale_loop_pixels, FV_grayscale_loop_pixels, length_gray_pixels.
  replace p with (Z.of_nat (Z.to_nat p)) in * by lia.
  pose proof (gray_pixels_pixel (Z.to_nat p) d r g b a Hr Hg Hb Ha) as H.
  split; (split; [reflexivity | exact H]).
Qed.

Lemma grayscale_pixelwise_witness :
  peek (ImageProcessor.grayscale_loop (data one_pixel)) (4 * 0) = Some (luma 200 100 50)
  /\ peek (FrameViewer.grayscale_loop (data one_pixel)) (4 * 0 + 3) = Some 255.
Proof.
  pose proof (grayscale_pixelwise (data one_pixel) 0 200 100 50 255 ltac:(lia)
                eq_refl eq_refl eq_refl eq_refl) as (A & B).
  split; [apply A | apply B].
Defined.

Lemma FV_pipeline_shape v img :
  well_formed img = true ->
  length (FV_pipeline v img) = length (data img) /\ bytes (FV_pipeline v img).
Proof.
  intros Hwf. pose proof (well_formed_bytes_all img Hwf) as Hb.
  unfold FV_pipeline. cbv zeta.
  match goal with
  | |- context [if ?c then FrameViewer.grayscale_loop (data img) else data img] =>
      set (d1 := if c then FrameViewer.grayscale_loop (data img) else data img)
  end.
  assert (H1 : length d1 = length (data img) /\ bytes d1).
  { unfold d1. destruct (_ || _); [|auto].
    rewrite FV_grayscale_loop_pixels, length_gray_pixels.
    split; [reflexivity | now apply bytes_gray_pixels]. }
  destruct H1 as [L1 B1].
  destruct (FrameViewer.edgeDetection _); [|auto].
  rewrite FV_copy_back_writes, length_apply_writes, length_FV_blur_loop.
  split; [exact L1|].
  apply bytes_apply_writes. rewrite FV_blur_loop_writes.
  now apply bytes_apply_writes.
Qed.

(** X6. [FrameViewer.render] of a loaded image draws a buffer of the
    dimensions of the original, with four bytes per pixel, whatever the
    options are; when it returns the viewer is no longer processing and still
    holds the same original. *)
Theorem render_output_well_formed
        (v : FrameViewer.t) (h : heap) (original : ref) (img : ImageData) :
  FrameViewer.originalImageData v = Some original ->
  nth_error h original = Some img ->
  FrameViewer.currentImage v = true ->
  FrameViewer.isProcessing v = false ->
  well_formed img = true ->
  exists v' out,
    FrameViewer.render v h = Done v' (h ++ [out])
    /\ well_formed out = true
    /\ width out = width img /\ height out = height img
    /\ FrameViewer.canvas v' = data out
    /\ FrameViewer.isProcessing v' = false
    /\ FrameViewer.originalImageData v' = Some original.
Proof.
  intros Ho H Hc Hp Hwf.
  rewrite (FV_render_run v h original img Ho Hc Hp H).
  eexists. eexists. split; [reflexivity|].
  pose proof (FV_pipeline_shape v img Hwf) as (Hl & Hb).
  pose proof (well_formed_length img Hwf) as (Hw & Hh & Hlen).
  split; [|cbn; auto].
  apply well_formed_intro; try assumption. now rewrite Hl.
Qed.

Lemma render_output_well_formed_witness :
  exists v' out,
    FrameViewer.render (viewer true true 50 150 1) [step_image]
    = Done v' ([step_image] ++ [out])
    /\ well_formed out = true
    /\ width out = width step_image /\ height out = height step_image
    /\ FrameViewer.canvas v' = data out
    /\ FrameViewer.isProcessing v' = false
    /\ FrameViewer.originalImageData v' = Some 0%nat.
Proof.
  apply (render_output_well_formed (viewer true true 50 150 1) [step_image]
           0%nat step_image); reflexivity.
Defined.

Lemma IP_sobel_loop_shape img low high :
  0 < width img -> 0 < height img ->
  well_formed (with_data img (ImageProcessor.sobel_loop img low high)) = true.
Proof.
  intros Hw Hh. apply well_formed_intro; try assumption.
  - rewrite IP_sobel_loop_writes, length_apply_writes, length_zeros. nia.
  - rewrite IP_sobel_loop_writes. apply bytes_apply_writes, bytes_zeros.
Qed.

Lemma IP_blur_loop_shape Math_exp img size d :
  ImageProcessor.blur_loop Math_exp img size = Normal d ->
  length d = length (zeros (4 * width img * height img)) /\ bytes d.
Proof.
  unfold ImageProcessor.blur_loop. cbv zeta. unfold for_lt_c.
  set (P := fun a : list Z =>
              length a = length (zeros (4 * width img * height img)) /\ bytes a).
  change (length d = length (zeros (4 * width img * height img)) /\ bytes d)
    with (P d).
  apply (fold_c_invariant P).
  - intros y s s' Hs. apply (fold_c_invariant P); [|exact Hs].
    intros x a a' (Hl & Hb) E.
    destruct (ImageProcessor.weighted_sums _ _ _ _ _ _ _) as [[[[r g] b] n] | e];
      [|discriminate].
    injection E as <-. unfold P. rewrite !length_set. split; [exact Hl|].
    now repeat apply bytes_set.
  - split; [reflexivity | apply bytes_zeros].
Qed.

(** X7. Whenever [ImageProcessor.processImage] completes on a well-formed
    buffer, the object it returns has the dimensions of the input and four
    bytes per pixel; the same holds of the object [applyGaussianBlur]
    returns, for every kernel size it completes on. *)
Theorem processImage_output_well_formed
        (Math_exp : number -> number) (r : ref) (h : heap) (img : ImageData) :
  nth_error h r = Some img ->
  well_formed img = true ->
  (forall opts out h',
      ImageProcessor.processImage Math_exp r opts h = Done out h' ->
      exists o, nth_error h' out = Some o /\ well_formed o = true
                /\ width o = width img /\ height o = height img)
  /\ (forall size out h',
      ImageProcessor.applyGaussianBlur Math_exp r size h = Done out h' ->
      exists o, nth_error h' out = Some o /\ well_formed o = true
                /\ width o = width img /\ height o = height img).
Proof.
  intros H Hwf.
  pose proof (well_formed_length img Hwf) as (Hw & Hh & Hlen).
  pose proof (well_formed_bytes_all img Hwf) as Hb.
  split.
  - intros opts out h' R. rewrite (IP_processImage_run _ _ _ _ _ H) in R.
    destruct (ImageProcessor.edgeDetection opts).
    + destruct (ImageProcessor.blur_loop _ _ _) as [d | e]; [|discriminate].
      injection R as <- <-. eexists. split.
      * replace (S (length h))
          with (length (update r (IP_gray img) h ++ [with_data img d]))
          by (rewrite length_app, length_update; cbn; lia).
        apply nth_error_app_last.
      * split; [|cbn; auto].
        apply (IP_sobel_loop_shape (with_data img d)); assumption.
    + destruct (ImageProcessor.grayscale opts); injection R as <- <-.
      * exists (IP_gray img). split; [eapply nth_error_update_hit, H|].
        split; [|cbn; auto]. unfold IP_gray, with_data.
        apply well_formed_intro; try assumption.
        -- now rewrite IP_grayscale_loop_pixels, length_gray_pixels.
        -- rewrite IP_grayscale_loop_pixels. now apply bytes_gray_pixels.
      * exists img. auto.
  - intros size out h' R. rewrite (IP_applyGaussianBlur_run _ _ _ _ _ H) in R.
    destruct (ImageProcessor.blur_loop Math_exp img size) as [d | e] eqn:E;
      [|discriminate].
    injection R as <- <-. exists (with_data img d).
    split; [apply nth_error_app_last|]. split; [|cbn; auto].
    apply IP_blur_loop_shape in E. destruct E as [El Eb].
    apply well_formed_intro; try assumption.
    rewrite El, length_zeros. nia.
Qed.

Lemma processImage_output_well_formed_witness :
  nth_error [step_image] 0 = Some step_image
  /\ well_formed step_image = true
  /\ exists o, nth_error [step_image;
                          with_data step_image (data step_image);
                          with_data step_image
                            (ImageProcessor.sobel_loop step_image 150 50)] 2
               = Some o
               /\ well_formed o = true
               /\ width o = width step_image /\ height o = height step_image.
Proof.
  split; [reflexivity|]. split; [reflexivity|].
  apply (proj1 (processImage_output_well_formed exp_series 0%nat [step_image]
                  step_image eq_refl eq_refl) inverted 2%nat).
  vm_compute. reflexivity.
Defined.

(** ** The edge map *)

Lemma red_uniform data w x y v :
  (forall dx dy, -1 <= dx <= 1 -> -1 <= dy <= 1 ->
     peek data (((y + dy) * w + (x + dx)) * 4) = Some v) ->
  forall dx dy, -1 <= dx <= 1 -> -1 <= dy <= 1 ->
    red data w (x + dx) (y + dy) = of_int v.
Proof. intros H dx dy Hx Hy. unfold red. now rewrite get_peek, H. Qed.

(** On nine equal red samples the two Sobel sums cancel: checked on the 256
    levels. *)
Lemma uniform_magnitude data w x y v :
  0 <= v <= 255 ->
  (forall dx dy, -1 <= dx <= 1 -> -1 <= dy <= 1 ->
     peek data (((y + dy) * w + (x + dx)) * 4) = Some v) ->
  magnitude (convolve data w x y) = 0%float.
Proof.
  intros Hv H. pose proof (red_uniform data w x y v H) as R.
  rewrite convolve_sums. unfold Gx, Gy. rewrite !R by lia.
  apply FloatAxioms.Leibniz.eqb_spec.
  clear R H. revert v Hv.
  apply (all_bytes
           (fun v =>
              PrimFloat.Leibniz.eqb
                (magnitude
                   ((0 + of_int v * -1 + of_int v * 0 + of_int v * 1
                     + of_int v * -2 + of_int v * 0 + of_int v * 2
                     + of_int v * -1 + of_int v * 0 + of_int v * 1)%float,
                    (0 + of_int v * -1 + of_int v * -2 + of_int v * -1
                     + of_int v * 0 + of_int v * 0 + of_int v * 0
                     + of_int v * 1 + of_int v * 2 + of_int v * 1)%float))
                0%float)).
  vm_compute. reflexivity.
Qed.

Lemma classify_zero low high :
  (0 <=? low)%float = true -> (0 <=? high)%float = true ->
  ToUint8Clamp (classify 0 low high) = 0.
Proof.
  intros Hl Hh. unfold classify.
  now rewrite (leb_ltb_false _ _ Hh), (leb_ltb_false _ _ Hl).
Qed.

Lemma no_writes_nil {A : Type} (l : list A) : (forall w, ~ In w l) -> l = [].
Proof. destruct l as [|a l]; [reflexivity|]. intros H. destruct (H a). now left. Qed.

(** X8. The double threshold is monotone in the magnitude, for every pair of
    thresholds, ordered or not: a larger magnitude never gets a lower level.
    In the edge map of [FrameViewer.applySobel], an interior pixel whose
    gradient magnitude is at most that of another holds a level that is at
    most the other's. *)
Theorem classification_monotone (low high : number) :
  (forall m1 m2,
      (m1 <=? m2)%float = true ->
      ToUint8Clamp (classify m1 low high) <= ToUint8Clamp (classify m2 low high))
  /\ (forall img x1 y1 x2 y2 e1 e2,
      interior img x1 y1 -> interior img x2 y2 ->
      (magnitude (convolve (data img) (width img) x1 y1)
       <=? magnitude (convolve (data img) (width img) x2 y2))%float = true ->
      peek (FrameViewer.sobel_loop img low high) (y1 * width img + x1) = Some e1 ->
      peek (FrameViewer.sobel_loop img low high) (y2 * width img + x2) = Some e2 ->
      e1 <= e2).
Proof.
  assert (Hm : forall m1 m2,
             (m1 <=? m2)%float = true ->
             ToUint8Clamp (classify m1 low high)
             <= ToUint8Clamp (classify m2 low high)).
  { intros m1 m2 Hle. unfold classify.
    destruct (high <? m1)%float eqn:H1.
    - now rewrite (ltb_leb_trans _ _ _ H1 Hle).
    - destruct (low <? m1)%float eqn:L1.
      + rewrite (ltb_leb_trans _ _ _ L1 Hle).
        destruct (high <? m2)%float; vm_compute; discriminate.
      + change (ToUint8Clamp 0) with 0.
        destruct (high <? m2)%float; [vm_compute; discriminate|].
        destruct (low <? m2)%float; vm_compute; discriminate. }
  split; [exact Hm|].
  intros img x1 y1 x2 y2 e1 e2 I1 I2 Hle P1 P2.
  rewrite FV_sobel_interior in P1, P2 by assumption.
  injection P1 as <-. injection P2 as <-. now apply Hm.
Qed.

Lemma classification_monotone_witness :
  (100 <=? 1020)%float = true
  /\ ToUint8Clamp (classify 100 50 150) <= ToUint8Clamp (classify 1020 50 150).
Proof.
  split; [reflexivity|].
  apply (proj1 (classification_monotone 50 150) 100%float 1020%float).
  reflexivity.
Defined.

(** X9. With [lowThreshold <= highThreshold], an interior pixel of gradient
    magnitude [m] gets 255 when [m > highThreshold], 128 when
    [lowThreshold < m <= highThreshold] and 0 when [m <= lowThreshold]: as
    its entry of the edge map of [FrameViewer.applySobel], and in the three
    colour channels of the output of
    [ImageProcessor.applySobelEdgeDetection], whose alpha there is 255. *)
Theorem interior_levels (img : ImageData) (low high : number) (x y : Z) :
  (low <=? high)%float = true ->
  interior img x y ->
  exists level,
    peek (FrameViewer.sobel_loop img low high) (y * width img + x) = Some level
    /\ (forall k, 0 <= k < 3 ->
        peek (ImageProcessor.sobel_loop img low high) ((y * width img + x) * 4 + k)
        = Some level)
    /\ peek (ImageProcessor.sobel_loop img low high) ((y * width img + x) * 4 + 3)
       = Some 255
    /\ ((high <? magnitude (convolve (data img) (width img) x y))%float = true ->
        level = 255)
    /\ ((low <? magnitude (convolve (data img) (width img) x y))%float = true ->
        (magnitude (convolve (data img) (width img) x y) <=? high)%float = true ->
        level = 128)
    /\ ((magnitude (convolve (data img) (width img) x y) <=? low)%float = true ->
        level = 0).
Proof.
  intros Hord Hi.
  exists (ToUint8Clamp
            (classify (magnitude (convolve (data img) (width img) x y)) low high)).
  split; [now apply FV_sobel_interior|]. split; [|split].
  - intros k Hk. rewrite IP_sobel_interior by (assumption || lia).
    destruct (Z.eqb_spec k 3) as [-> | _]; [lia | reflexivity].
  - now rewrite IP_sobel_interior by (assumption || lia).
  - apply double_threshold_levels, Hord.
Qed.

Lemma interior_levels_witness :
  (50 <=? 150)%float = true /\ interior step_image 1 1
  /\ exists level,
      peek (FrameViewer.sobel_loop step_image 50 150) (1 * width step_image + 1)
      = Some level
      /\ ((150 <? magnitude (convolve (data step_image) (width step_image) 1 1))%float
          = true -> level = 255).
Proof.
  assert (Hi : interior step_image 1 1) by (unfold interior; cbn; lia).
  split; [reflexivity|]. split; [exact Hi|].
  destruct (interior_levels step_image 50 150 1 1 eq_refl Hi)
    as (level & A & _ & _ & B & _).
  exists level. split; [exact A | exact B].
Defined.

(** X10. Where the nine red samples around an interior pixel are equal, both
    Sobel sums cancel, the gradient magnitude is 0, and with thresholds that
    are not negative the pixel is no edge in either implementation: flat
    regions give no edges. *)
Theorem flat_region_no_edge (img : ImageData) (low high : number) (x y v : Z) :
  interior img x y ->
  0 <= v <= 255 ->
  (forall dx dy, -1 <= dx <= 1 -> -1 <= dy <= 1 ->
     peek (data img) (((y + dy) * width img + (x + dx)) * 4) = Some v) ->
  (0 <=? low)%float = true -> (0 <=? high)%float = true ->
  magnitude (convolve (data img) (width img) x y) = 0%float
  /\ peek (FrameViewer.sobel_loop img low high) (y * width img + x) = Some 0
  /\ forall k, 0 <= k < 3 ->
       peek (ImageProcessor.sobel_loop img low high) ((y * width img + x) * 4 + k)
       = Some 0.
Proof.
  intros Hi Hv Hu Hl Hh.
  pose proof (uniform_magnitude (data img) (width img) x y v Hv Hu) as Hm.
  split; [exact Hm|]. split.
  - rewrite FV_sobel_interior by assumption. rewrite Hm.
    f_equal. now apply classify_zero.
  - intros k Hk. rewrite IP_sobel_interior by (assumption || lia).
    destruct (Z.eqb_spec k 3) as [-> | _]; [lia|].
    rewrite Hm. f_equal. now apply classify_zero.
Qed.

(** A white 3x3 buffer. *)
Lemma flat_region_no_edge_witness :
  interior (mkImageData 3 3 (repeat 255 36)) 1 1
  /\ peek (FrameViewer.sobel_loop (mkImageData 3 3 (repeat 255 36)) 50 150)
          (1 * 3 + 1) = Some 0.
Proof.
  assert (Hi : interior (mkImageData 3 3 (repeat 255 36)) 1 1)
    by (unfold interior; cbn; lia).
  split; [exact Hi|].
  apply (proj1 (proj2 (flat_region_no_edge (mkImageData 3 3 (repeat 255 36))
                         50 150 1 1 255 Hi ltac:(lia)
                         ltac:(intros dx dy Hx Hy;
                               assert (Ex : dx = -1 \/ dx = 0 \/ dx = 1) by lia;
                               assert (Ey : dy = -1 \/ dy = 0 \/ dy = 1) by lia;
                               destruct Ex as [-> | [-> | ->]];
                               destruct Ey as [-> | [-> | ->]]; reflexivity)
                         eq_refl eq_refl))).
Defined.

(** X11. A buffer less than three pixels wide or high has no interior pixel:
    the two Sobel loops do not run, [FrameViewer.applySobel] returns an edge
    map of zeros and [ImageProcessor.applySobelEdgeDetection] a buffer of
    zeros, alpha included, whatever the pixels and the thresholds are. *)
Theorem small_image_no_edges (img : ImageData) (low high : number) :
  width img <= 2 \/ height img <= 2 ->
  FrameViewer.sobel_loop img low high = zeros (width img * height img)
  /\ ImageProcessor.sobel_loop img low high = zeros (4 * width img * height img).
Proof.
  intros Hs. rewrite FV_sobel_loop_writes, IP_sobel_loop_writes.
  rewrite (no_writes_nil (FV_sobel_writes img low high)).
  - rewrite (no_writes_nil (IP_sobel_writes img low high)); [split; reflexivity|].
    intros w Hw. apply in_IP_sobel_writes in Hw.
    destruct Hw as (x & y & (Hx & Hy) & _). lia.
  - intros w Hw. apply in_FV_sobel_writes in Hw.
    destruct Hw as (x & y & (Hx & Hy) & _). lia.
Qed.

Lemma small_image_no_edges_witness :
  (width two_pixels <= 2 \/ height two_pixels <= 2)
  /\ ImageProcessor.sobel_loop two_pixels 50 150 = zeros (4 * 2 * 1).
Proof.
  assert (H : width two_pixels <= 2 \/ height two_pixels <= 2) by (left; cbn; lia).
  split; [exact H|].
  apply (proj2 (small_image_no_edges two_pixels 50 150 H)).
Defined.

Lemma FV_sobel_loop_levels img low high j v :
  peek (FrameViewer.sobel_loop img low high) j = Some v ->
  v = 0 \/ v = 128 \/ v = 255.
Proof.
  intros H. rewrite FV_sobel_loop_writes in H.
  apply peek_apply_writes_cases in H. destruct H as [H | (w & Hw & ->)].
  - left. eapply peek_zeros_inv, H.
  - apply in_FV_sobel_writes in Hw. destruct Hw as (x & y & _ & ->). cbn [snd].
    destruct (classify_levels (magnitude (convolve (data img) (width img) x y))
                low high) as [E | [E | E]]; rewrite E; auto.
Qed.

(** X12. With edge detection enabled, what [FrameViewer.render] draws is
    opaque at every pixel, the border included, and gray: the three colour
    channels of a pixel hold the entry of that pixel in the edge map
    [applySobel] computes from the blurred grayscale of the original. That
    entry is 0, 128 or 255; it is 0 on the border, and at an interior pixel
    it is the double threshold of the magnitude [sqrt (Gx * Gx + Gy * Gy)]
    of the blurred grayscale. *)
Theorem edge_picture_opaque_gray
        (v : FrameViewer.t) (h : heap) (original : ref) (img : ImageData) (x y : Z) :
  FrameViewer.originalImageData v = Some original ->
  nth_error h original = Some img ->
  FrameViewer.currentImage v = true ->
  FrameViewer.isProcessing v = false ->
  FrameViewer.edgeDetection (FrameViewer.options v) = true ->
  well_formed img = true ->
  in_image img x y ->
  let low := FrameViewer.threshold1 (FrameViewer.processingOptions v) in
  let high := FrameViewer.threshold2 (FrameViewer.processingOptions v) in
  let blurred :=
    FrameViewer.blur_loop (with_data img (FrameViewer.grayscale_loop (data img)))
                          (FrameViewer.blurSize (FrameViewer.processingOptions v)) in
  exists v' h' level,
    FrameViewer.render v h = Done v' h'
    /\ peek (FrameViewer.sobel_loop (with_data img blurred) low high)
            (y * width img + x) = Some level
    /\ (level = 0 \/ level = 128 \/ level = 255)
    /\ (border img x y -> level = 0)
    /\ (interior img x y ->
        let m := sqrt (Gx blurred (width img) x y * Gx blurred (width img) x y
                       + Gy blurred (width img) x y * Gy blurred (width img) x y)%float in
        level = if (high <? m)%float then 255
                else if (low <? m)%float then 128 else 0)
    /\ (forall c, 0 <= c < 3 ->
        peek (FrameViewer.canvas v') ((y * width img + x) * 4 + c) = Some level)
    /\ peek (FrameViewer.canvas v') ((y * width img + x) * 4 + 3) = Some 255.
Proof.
  intros Ho H Hc Hp He Hwf Hi low high blurred.
  rewrite (FV_render_run v h original img Ho Hc Hp H).
  destruct (FV_edge_output v img x y Hwf He Hi) as (Ha & Hcol).
  pose proof (well_formed_length img Hwf) as (Hw & Hh & Hl).
  fold blurred low high in Hcol.
  set (edges := FrameViewer.sobel_loop (with_data img blurred) low high) in *.
  destruct (peek_in_range edges (y * width img + x)) as (level & Hlev).
  { unfold edges. rewrite FV_sobel_loop_writes, length_apply_writes, length_zeros.
    cbn [width height with_data]. destruct Hi as (Hx & Hy). nia. }
  eexists. eexists. exists level. split; [reflexivity|]. split; [exact Hlev|].
  split; [eapply FV_sobel_loop_levels, Hlev|]. split; [|split; [|split]].
  - intros Hb.
    pose proof (FV_sobel_border (with_data img blurred) low high x y Hb) as E.
    cbn [width with_data] in E. fold edges in E. congruence.
  - intros Hint. cbv zeta.
    pose proof (FV_sobel_interior_level (with_data img blurred) low high x y Hint) as E.
    cbn [width data with_data] in E. fold edges in E. cbv zeta in E. congruence.
  - intros c Hcc. cbn [FrameViewer.canvas FrameViewer.setLoading
                        FrameViewer.putImageData].
    now rewrite Hcol.
  - exact Ha.
Qed.

Lemma edge_picture_opaque_gray_witness :
  in_image step_image 1 1
  /\ exists v' h' level,
      FrameViewer.render (viewer false true 50 150 0) [step_image] = Done v' h'
      /\ peek (FrameViewer.sobel_loop
                 (with_data step_image
                    (FrameViewer.blur_loop
                       (with_data step_image
                          (FrameViewer.grayscale_loop (data step_image))) 0))
                 50 150)
              (1 * width step_image + 1) = Some level
      /\ (forall c, 0 <= c < 3 ->
          peek (FrameViewer.canvas v') ((1 * width step_image + 1) * 4 + c)
          = Some level)
      /\ peek (FrameViewer.canvas v') ((1 * width step_image + 1) * 4 + 3)
         = Some 255.
Proof.
  assert (Hi : in_image step_image 1 1) by (unfold in_image; cbn; lia).
  split; [exact Hi|].
  destruct (edge_picture_opaque_gray (viewer false true 50 150 0) [step_image]
              0%nat step_image 1 1 eq_refl eq_refl eq_refl eq_refl eq_refl eq_refl Hi)
    as (v' & h' & level & R & E & _ & _ & _ & C & A).
  exists v', h', level. repeat split; assumption.
Defined.

(** X13. [FrameViewer.applyGaussianBlur] with [size = 0] averages each pixel
    over itself alone and leaves all four channels of every pixel as they
    were. *)
Theorem box_blur_zero_identity (img : ImageData) (x y c : Z) :
  well_formed img = true ->
  in_image img x y ->
  0 <= c < 4 ->
  peek (FrameViewer.blur_loop img 0) ((y * width img + x) * 4 + c)
  = peek (data img) ((y * width img + x) * 4 + c).
Proof.
  intros Hwf Hi Hc. destruct (Z.eq_dec c 3) as [-> | Hn].
  - now apply FV_blur_alpha.
  - apply FV_blur_zero_identity; (assumption || lia).
Qed.

Lemma box_blur_zero_identity_witness :
  well_formed step_image = true /\ in_image step_image 1 2
  /\ peek (FrameViewer.blur_loop step_image 0) ((2 * width step_image + 1) * 4 + 1)
     = peek (data step_image) ((2 * width step_image + 1) * 4 + 1).
Proof.
  assert (Hi : in_image step_image 1 2) by (unfold in_image; cbn; lia).
  split; [reflexivity|]. split; [exact Hi|].
  apply (box_blur_zero_identity step_image 1 2 1 eq_refl Hi). lia.
Defined.

(** X14. [ImageProcessor.applyGaussianBlur] with [kernelSize = 1] completes
    and returns a buffer equal to its input in all four channels of every
    pixel, for every [Math.exp] that gives 1 at -0, as ECMAScript requires. *)
Theorem unit_kernel_identity
        (Math_exp : number -> number) (img : ImageData) (x y c : Z) :
  Math_exp (-0)%float = 1%float ->
  well_formed img = true ->
  in_image img x y ->
  0 <= c < 4 ->
  exists out,
    ImageProcessor.blur_loop Math_exp img 1 = Normal out
    /\ peek out ((y * width img + x) * 4 + c)
       = peek (data img) ((y * width img + x) * 4 + c).
Proof. apply IP_blur_one_identity. Qed.

Lemma unit_kernel_identity_witness :
  exp_series (-0)%float = 1%float /\ well_formed step_image = true
  /\ in_image step_image 2 2
  /\ exists out,
      ImageProcessor.blur_loop exp_series step_image 1 = Normal out
      /\ peek out ((2 * width step_image + 2) * 4 + 0)
         = peek (data step_image) ((2 * width step_image + 2) * 4 + 0).
Proof.
  assert (Hi : in_image step_image 2 2) by (unfold in_image; cbn; lia).
  split; [reflexivity|]. split; [reflexivity|]. split; [exact Hi|].
  apply (unit_kernel_identity exp_series step_image 2 2 0 eq_refl eq_refl Hi). lia.
Defined.

(** ** The viewer and the application *)

(** X15. [FrameViewer.render] can be repeated: a second render of the viewer
    the first one left draws the same picture from the same original and
    leaves the viewer as it is, since the first one changed neither the
    original nor the options. *)
Theorem render_repeatable
        (v : FrameViewer.t) (h : heap) (original : ref) (img : ImageData) :
  FrameViewer.originalImageData v = Some original ->
  nth_error h original = Some img ->
  FrameViewer.currentImage v = true ->
  FrameViewer.isProcessing v = false ->
  exists v1 h1 h2,
    FrameViewer.render v h = Done v1 h1
    /\ FrameViewer.render v1 h1 = Done v1 h2
    /\ nth_error h2 original = Some img
    /\ FrameViewer.options v1 = FrameViewer.options v
    /\ FrameViewer.processingOptions v1 = FrameViewer.processingOptions v.
Proof.
  intros Ho H Hc Hp.
  rewrite (FV_render_run v h original img Ho Hc Hp H).
  pose proof (nth_error_Some_lt _ _ _ H) as Hlt.
  set (v1 := FrameViewer.setLoading false
               (FrameViewer.putImageData (FV_pipeline v img)
                                         (FrameViewer.setLoading true v))).
  set (h1 := h ++ [with_data img (FV_pipeline v img)]).
  assert (H1 : nth_error h1 original = Some img)
    by (unfold h1; rewrite nth_error_app1 by assumption; exact H).
  assert (R : FrameViewer.render v1 h1
              = Done v1 (h1 ++ [with_data img (FV_pipeline v img)])).
  { rewrite (FV_render_run v1 h1 original img Ho Hc eq_refl H1).
    reflexivity. }
  exists v1, h1, (h1 ++ [with_data img (FV_pipeline v img)]).
  split; [reflexivity|]. split; [exact R|].
  split; [|split; reflexivity].
  rewrite nth_error_app1; [exact H1|].
  unfold h1. rewrite length_app. lia.
Qed.

Lemma render_repeatable_witness :
  exists v1 h1 h2,
    FrameViewer.render (viewer true false 50 150 5) [step_image] = Done v1 h1
    /\ FrameViewer.render v1 h1 = Done v1 h2
    /\ nth_error h2 0 = Some step_image
    /\ FrameViewer.options v1 = FrameViewer.options (viewer true false 50 150 5)
    /\ FrameViewer.processingOptions v1
       = FrameViewer.processingOptions (viewer true false 50 150 5).
Proof.
  apply (render_repeatable (viewer true false 50 150 5) [step_image] 0%nat step_image);
    reflexivity.
Defined.

(** X16. While edge detection is disabled, [setProcessingOptions] stores the
    thresholds and blur size it is given (a field that is not given keeps its
    value) and redraws nothing; nor do these settings matter to the next
    render, which draws the picture it would have drawn before. *)
Theorem processing_options_idle
        (given : FrameViewer.PartialProcessingOptions) (v : FrameViewer.t) (h : heap) :
  FrameViewer.edgeDetection (FrameViewer.options v) = false ->
  exists v',
    FrameViewer.setProcessingOptions given v h = Done v' h
    /\ FrameViewer.canvas v' = FrameViewer.canvas v
    /\ FrameViewer.options v' = FrameViewer.options v
    /\ FrameViewer.threshold1 (FrameViewer.processingOptions v')
       = FrameViewer.spread (FrameViewer.threshold1 (FrameViewer.processingOptions v))
                            (FrameViewer.threshold1_given given)
    /\ FrameViewer.threshold2 (FrameViewer.processingOptions v')
       = FrameViewer.spread (FrameViewer.threshold2 (FrameViewer.processingOptions v))
                            (FrameViewer.threshold2_given given)
    /\ FrameViewer.blurSize (FrameViewer.processingOptions v')
       = FrameViewer.spread (FrameViewer.blurSize (FrameViewer.processingOptions v))
                            (FrameViewer.blurSize_given given)
    /\ (forall v1 h1 v2 h2,
        FrameViewer.render v h = Done v1 h1 ->
        FrameViewer.render v' h = Done v2 h2 ->
        FrameViewer.canvas v2 = FrameViewer.canvas v1 /\ h2 = h1).
Proof.
  intros He. unfold FrameViewer.setProcessingOptions. cbv zeta.
  cbn [FrameViewer.options FrameViewer.with_processingOptions]. rewrite He.
  match goal with
  | |- exists v', ret ?u h = _ /\ _ => set (v' := u)
  end.
  exists v'. split; [reflexivity|]. repeat (split; [reflexivity|]).
  intros v1 h1 v2 h2 R1 R2.
  destruct (FrameViewer.originalImageData v) as [original|] eqn:Ho.
  2:{ unfold FrameViewer.render in R1, R2.
      unfold v' in R2.
      cbn [FrameViewer.originalImageData FrameViewer.with_processingOptions] in R2.
      rewrite Ho in R1, R2.
      injection R1 as <- <-. injection R2 as <- <-. split; reflexivity. }
  destruct (negb (FrameViewer.currentImage v) || FrameViewer.isProcessing v) eqn:G.
  - unfold FrameViewer.render in R1, R2.
    unfold v' in R2.
    cbn [FrameViewer.originalImageData FrameViewer.currentImage
         FrameViewer.isProcessing FrameViewer.with_processingOptions] in R2.
    rewrite Ho, G in R1, R2.
    injection R1 as <- <-. injection R2 as <- <-. split; reflexivity.
  - apply orb_false_iff in G. destruct G as [Gc Gp]. apply negb_false_iff in Gc.
    destruct (nth_error h original) as [img|] eqn:H.
    + rewrite (FV_render_run v h original img Ho Gc Gp H) in R1.
      rewrite (FV_render_run v' h original img Ho Gc Gp H) in R2.
      injection R1 as <- <-. injection R2 as <- <-.
      assert (E : FV_pipeline v' img = FV_pipeline v img).
      { unfold FV_pipeline, v'.
        cbn [FrameViewer.options FrameViewer.with_processingOptions].
        now rewrite He. }
      rewrite E. split; reflexivity.
    + unfold FrameViewer.render in R1. rewrite Ho, Gc, Gp in R1.
      cbn [negb orb] in R1. unfold bind, load in R1. rewrite H in R1.
      discriminate.
Qed.

Lemma processing_options_idle_witness :
  exists v',
    FrameViewer.setProcessingOptions
      (FrameViewer.mkPartialProcessingOptions None None (Some 9))
      (viewer true false 50 150 5) [step_image]
    = Done v' [step_image]
    /\ FrameViewer.canvas v' = FrameViewer.canvas (viewer true false 50 150 5)
    /\ FrameViewer.blurSize (FrameViewer.processingOptions v') = 9
    /\ FrameViewer.threshold1 (FrameViewer.processingOptions v') = 50%float.
Proof.
  destruct (processing_options_idle
              (FrameViewer.mkPartialProcessingOptions None None (Some 9))
              (viewer true false 50 150 5) [step_image] eq_refl)
    as (v' & R & Hc & _ & H1 & _ & Hb & _).
  exists v'. split; [exact R|]. split; [exact Hc|]. split; [exact Hb | exact H1].
Defined.

(** X17. Toggling grayscale twice, each call running to its end, restores
    the options and draws again the picture a plain render draws; the same
    holds of toggling edge detection twice. The original is not touched. *)
Theorem toggle_twice_restores
        (v : FrameViewer.t) (h : heap) (original : ref) (img : ImageData) :
  FrameViewer.originalImageData v = Some original ->
  nth_error h original = Some img ->
  FrameViewer.currentImage v = true ->
  FrameViewer.isProcessing v = false ->
  (exists v1 h1 v2 h2,
      FrameViewer.toggleGrayscale v h = Done v1 h1
      /\ FrameViewer.toggleGrayscale v1 h1 = Done v2 h2
      /\ FrameViewer.options v2 = FrameViewer.options v
      /\ FrameViewer.canvas v2 = FV_pipeline v img
      /\ nth_error h2 original = Some img)
  /\ (exists v1 h1 v2 h2,
      FrameViewer.toggleEdgeDetection v h = Done v1 h1
      /\ FrameViewer.toggleEdgeDetection v1 h1 = Done v2 h2
      /\ FrameViewer.options v2 = FrameViewer.options v
      /\ FrameViewer.canvas v2 = FV_pipeline v img
      /\ nth_error h2 original = Some img)
  /\ exists v3 h3, FrameViewer.render v h = Done v3 h3
                   /\ FrameViewer.canvas v3 = FV_pipeline v img.
Proof.
  intros Ho H Hc Hp.
  pose proof (nth_error_Some_lt _ _ _ H) as Hlt.
  assert (Happ : forall x y, nth_error ((h ++ [x]) ++ [y]) original = Some img).
  { intros x y. rewrite nth_error_app1 by (rewrite length_app; cbn; lia).
    rewrite nth_error_app1 by assumption. exact H. }
  assert (Happ1 : forall x, nth_error (h ++ [x]) original = Some img).
  { intros x. rewrite nth_error_app1 by assumption. exact H. }
  split; [|split].
  - unfold FrameViewer.toggleGrayscale at 1. cbv zeta.
    erewrite (FV_render_run _ h original img); [|exact Ho|exact Hc|exact Hp|exact H].
    eexists. eexists. eexists. eexists. split; [reflexivity|].
    unfold FrameViewer.toggleGrayscale. cbv zeta.
    erewrite (FV_render_run _ _ original img);
      [|exact Ho|exact Hc|reflexivity|apply Happ1].
    split; [reflexivity|]. split; [|split; [|apply Happ]].
    + cbn. rewrite negb_involutive. now destruct (FrameViewer.options v).
    + cbn [FrameViewer.canvas FrameViewer.setLoading FrameViewer.putImageData].
      unfold FV_pipeline.
      cbn [FrameViewer.options FrameViewer.processingOptions FrameViewer.setLoading
           FrameViewer.putImageData FrameViewer.with_options
           FrameViewer.grayscale FrameViewer.edgeDetection].
      now rewrite negb_involutive.
  - unfold FrameViewer.toggleEdgeDetection at 1. cbv zeta.
    erewrite (FV_render_run _ h original img); [|exact Ho|exact Hc|exact Hp|exact H].
    eexists. eexists. eexists. eexists. split; [reflexivity|].
    unfold FrameViewer.toggleEdgeDetection. cbv zeta.
    erewrite (FV_render_run _ _ original img);
      [|exact Ho|exact Hc|reflexivity|apply Happ1].
    split; [reflexivity|]. split; [|split; [|apply Happ]].
    + cbn. rewrite negb_involutive. now destruct (FrameViewer.options v).
    + cbn [FrameViewer.canvas FrameViewer.setLoading FrameViewer.putImageData].
      unfold FV_pipeline.
      cbn [FrameViewer.options FrameViewer.processingOptions FrameViewer.setLoading
           FrameViewer.putImageData FrameViewer.with_options
           FrameViewer.grayscale FrameViewer.edgeDetection].
      now rewrite negb_involutive.
  - rewrite (FV_render_run v h original img Ho Hc Hp H).
    eexists. eexists. split; reflexivity.
Qed.

Lemma toggle_twice_restores_witness :
  exists v1 h1 v2 h2,
    FrameViewer.toggleGrayscale (viewer false false 50 150 5) [step_image] = Done v1 h1
    /\ FrameViewer.toggleGrayscale v1 h1 = Done v2 h2
    /\ FrameViewer.options v2 = FrameViewer.options (viewer false false 50 150 5)
    /\ FrameViewer.canvas v2 = FV_pipeline (viewer false false 50 150 5) step_image
    /\ nth_error h2 0 = Some step_image.
Proof.
  apply (proj1 (toggle_twice_restores (viewer false false 50 150 5) [step_image]
                  0%nat step_image eq_refl eq_refl eq_refl eq_refl)).
Defined.



Lemma IP_processImage_load Math_exp r opts h img :
  nth_error h r = Some img ->
  (processed <- ImageProcessor.processImage Math_exp r opts ;; load processed) h
  = match IP_result Math_exp opts img with
    | Some d =>
        Done (with_data img d)
             (heap_of (ImageProcessor.processImage Math_exp r opts h))
    | None =>
        Raised TypeError (heap_of (ImageProcessor.processImage Math_exp r opts h))
    end.
Proof.
  intros H. unfold bind, IP_result.
  rewrite (IP_processImage_run _ _ _ _ _ H).
  destruct (ImageProcessor.edgeDetection opts).
  - destruct (ImageProcessor.blur_loop _ _ _) as [d | []]; [|reflexivity].
    cbn [heap_of].
    replace (S (length h))
      with (length (update r (IP_gray img) h ++ [with_data img d]))
      by (rewrite length_app, length_update; cbn; lia).
    now rewrite (load_run _ _ _ (nth_error_app_last _ _)).
  - destruct (ImageProcessor.grayscale opts); cbn [heap_of].
    + now rewrite (load_run _ _ _ (nth_error_update_hit _ _ _ _ H)).
    + rewrite (load_run _ _ _ H). now rewrite with_data_id.
Qed.

(** [App.processImage] on a loaded image, when it is not busy. *)
Lemma App_processImage_run Math_exp drawImage a h image :
  App.currentImage a = Some image ->
  App.isProcessing a = false ->
  exists h',
    App.processImage Math_exp drawImage a h
    = match IP_result Math_exp (App.processingOptions a)
                      (with_data image (drawImage image (App.canvas a))) with
      | Some d =>
          (App.with_isProcessing false
             (App.with_canvas d
                (App.with_canvas (drawImage image (App.canvas a))
                                 (App.with_isProcessing true a))),
           Done tt h')
      | None =>
          (App.with_canvas (drawImage image (App.canvas a))
                           (App.with_isProcessing true a),
           Raised TypeError h')
      end.
Proof.
  intros Hc Hp. unfold App.processImage. rewrite Hc, Hp. cbv zeta.
  unfold bind at 1. unfold alloc.
  cbn [App.canvas App.with_canvas App.processingOptions App.with_isProcessing].
  change (mkImageData (width image) (height image) (drawImage image (App.canvas a)))
    with (with_data image (drawImage image (App.canvas a))).
  rewrite (IP_processImage_load _ _ _ _
             (with_data image (drawImage image (App.canvas a))))
    by apply nth_error_app_last.
  destruct (IP_result Math_exp (App.processingOptions a)
                      (with_data image (drawImage image (App.canvas a))))
    as [d|]; eexists; reflexivity.
Qed.

(** X19. [App.processImage] never changes the loaded image: it draws it on
    the canvas, over the picture the canvas holds, and processes a fresh copy
    of what it reads back. For an opaque image, which covers that picture
    (drawing it leaves its own pixels on a canvas of its size), whenever edge
    detection is disabled or the blur size is odd and positive, it completes,
    is no longer busy, shows what [ImageProcessor.processImage] makes of the
    image, and processing again with the same options gives the same picture
    and leaves the application as it is. *)
Theorem app_processing_repeatable
        (Math_exp : number -> number)
        (drawImage : ImageData -> Uint8ClampedArray -> Uint8ClampedArray)
        (a : App.t) (h : heap) (image : ImageData) :
  (forall img c,
      well_formed img = true -> opaque img = true ->
      length c = length (data img) -> drawImage img c = data img) ->
  App.currentImage a = Some image ->
  App.isProcessing a = false ->
  well_formed image = true ->
  opaque image = true ->
  length (App.canvas a) = length (data image) ->
  (ImageProcessor.edgeDetection (App.processingOptions a) = false
   \/ exists k, 0 <= k /\ ImageProcessor.blurSize (App.processingOptions a) = 2 * k + 1) ->
  exists a1 h1 h2,
    App.processImage Math_exp drawImage a h = (a1, Done tt h1)
    /\ App.currentImage a1 = Some image
    /\ App.isProcessing a1 = false
    /\ App.processingOptions a1 = App.processingOptions a
    /\ IP_result Math_exp (App.processingOptions a) image = Some (App.canvas a1)
    /\ App.processImage Math_exp drawImage a1 h1 = (a1, Done tt h2).
Proof.
  intros Hdraw Hc Hp Hwf Hop Hlen Hopt.
  pose proof (well_formed_length image Hwf) as (Hw & Hh & Hl).
  assert (E : exists d, IP_result Math_exp (App.processingOptions a) image = Some d).
  { unfold IP_result. destruct Hopt as [He | (k & Hk & Hs)].
    - rewrite He. destruct (ImageProcessor.grayscale _); eauto.
    - destruct (ImageProcessor.edgeDetection _).
      + rewrite Hs, IP_blur_loop_writes by assumption. eauto.
      + destruct (ImageProcessor.grayscale _); eauto. }
  destruct E as (d & E).
  assert (Ld : length d = length (data image)).
  { apply (length_IP_result Math_exp (App.processingOptions a) image d);
      (lia || assumption). }
  destruct (App_processImage_run Math_exp drawImage a h image Hc Hp) as (h1 & R1).
  rewrite (Hdraw image (App.canvas a) Hwf Hop Hlen), with_data_id, E in R1.
  set (a1 := App.with_isProcessing false
               (App.with_canvas d
                  (App.with_canvas (data image) (App.with_isProcessing true a)))) in *.
  destruct (App_processImage_run Math_exp drawImage a1 h1 image Hc eq_refl)
    as (h2 & R2).
  change (App.processingOptions a1) with (App.processingOptions a) in R2.
  change (App.canvas a1) with d in R2.
  rewrite (Hdraw image d Hwf Hop Ld), with_data_id, E in R2.
  exists a1, h1, h2. split; [exact R1|]. split; [exact Hc|].
  split; [reflexivity|]. split; [reflexivity|]. split; [exact E|].
  rewrite R2. reflexivity.
Qed.

Lemma app_processing_repeatable_witness :
  well_formed step_image = true /\ opaque step_image = true /\
  exists a1 h1 h2,
    App.processImage exp_series source_over
                     (App.mkApp (Some step_image) inverted false (zeros 36)) []
    = (a1, Done tt h1)
    /\ App.currentImage a1 = Some step_image
    /\ App.isProcessing a1 = false
    /\ App.processingOptions a1 = inverted
    /\ IP_result exp_series inverted step_image = Some (App.canvas a1)
    /\ App.processImage exp_series source_over a1 h1 = (a1, Done tt h2).
Proof.
  split; [reflexivity|]. split; [reflexivity|].
  apply (app_processing_repeatable exp_series source_over
           (App.mkApp (Some step_image) inverted false (zeros 36)) [] step_image
           (fun img c _ Ho _ => source_over_opaque img c Ho)
           eq_refl eq_refl eq_refl eq_refl eq_refl).
  right. exists 0. split; [lia | reflexivity].
Defined.



(** ** The two implementations side by side *)

(** X21. The two grayscale loops, which differ in the order of their three
    stores, compute the same buffer from every array, whatever its length. *)
Theorem grayscale_loops_agree (d : Uint8ClampedArray) :
  FrameViewer.grayscale_loop d = ImageProcessor.grayscale_loop d.
Proof. now rewrite FV_grayscale_loop_pixels, IP_grayscale_loop_pixels. Qed.

(** X22. The two Sobel loops agree at every pixel of the image: each colour
    channel of the output of [ImageProcessor.applySobelEdgeDetection] holds
    the entry of the edge map of [FrameViewer.applySobel] for that pixel,
    the zero of the border included. *)
Theorem sobel_loops_agree (img : ImageData) (low high : number) (x y k : Z) :
  in_image img x y ->
  0 <= k < 3 ->
  peek (ImageProcessor.sobel_loop img low high) ((y * width img + x) * 4 + k)
  = peek (FrameViewer.sobel_loop img low high) (y * width img + x).
Proof.
  intros Hi Hk. pose proof Hi as (Hx & Hy).
  assert (D : interior img x y \/ border img x y).
  { unfold interior, border, in_image. lia. }
  destruct D as [Hin | Hb].
  - rewrite FV_sobel_interior, IP_sobel_interior by (assumption || lia).
    destruct (Z.eqb_spec k 3) as [-> | _]; [lia | reflexivity].
  - rewrite FV_sobel_border by assumption.
    apply IP_sobel_border; [assumption | lia].
Qed.

Lemma sobel_loops_agree_witness :
  in_image step_image 1 1
  /\ peek (ImageProcessor.sobel_loop step_image 50 150)
          ((1 * width step_image + 1) * 4 + 2)
     = peek (FrameViewer.sobel_loop step_image 50 150) (1 * width step_image + 1).
Proof.
  assert (Hi : in_image step_image 1 1) by (unfold in_image; cbn; lia).
  split; [exact Hi|].
  apply (sobel_loops_agree step_image 50 150 1 1 2 Hi). lia.
Defined.

(** X23. With edge detection enabled the grayscale option has no effect:
    both pipelines convert to grayscale first in any case, so
    [ImageProcessor.processImage] ends the same way and [FrameViewer.render]
    draws the same picture whether grayscale is enabled or not. *)
Theorem grayscale_option_ignored_with_edges :
  (forall Math_exp r h img t1 t2 size g1 g2,
      nth_error h r = Some img ->
      ImageProcessor.processImage Math_exp r
        (ImageProcessor.mkProcessingOptions t1 t2 size g1 true) h
      = ImageProcessor.processImage Math_exp r
          (ImageProcessor.mkProcessingOptions t1 t2 size g2 true) h)
  /\ (forall v h original img g1 g2 v1 h1 v2 h2,
      FrameViewer.originalImageData v = Some original ->
      nth_error h original = Some img ->
      FrameViewer.render
        (FrameViewer.with_options (FrameViewer.mkViewerOptions g1 true) v) h
      = Done v1 h1 ->
      FrameViewer.render
        (FrameViewer.with_options (FrameViewer.mkViewerOptions g2 true) v) h
      = Done v2 h2 ->
      FrameViewer.canvas v2 = FrameViewer.canvas v1 /\ h2 = h1).
Proof.
  split.
  - intros Math_exp r h img t1 t2 size g1 g2 H.
    now rewrite !(IP_processImage_run _ _ _ _ _ H).
  - intros v h original img g1 g2 v1 h1 v2 h2 Ho H R1 R2.
    destruct (negb (FrameViewer.currentImage v) || FrameViewer.isProcessing v) eqn:G.
    + unfold FrameViewer.render in R1, R2.
      cbn [FrameViewer.originalImageData FrameViewer.currentImage
           FrameViewer.isProcessing FrameViewer.with_options] in R1, R2.
      rewrite Ho, G in R1, R2.
      injection R1 as <- <-. injection R2 as <- <-. split; reflexivity.
    + apply orb_false_iff in G. destruct G as [Gc Gp]. apply negb_false_iff in Gc.
      rewrite (FV_render_run
                 (FrameViewer.with_options (FrameViewer.mkViewerOptions g1 true) v)
                 h original img Ho Gc Gp H) in R1.
      rewrite (FV_render_run
                 (FrameViewer.with_options (FrameViewer.mkViewerOptions g2 true) v)
                 h original img Ho Gc Gp H) in R2.
      injection R1 as <- <-. injection R2 as <- <-.
      unfold FV_pipeline.
      cbn [FrameViewer.options FrameViewer.with_options FrameViewer.grayscale
           FrameViewer.edgeDetection FrameViewer.processingOptions].
      rewrite !orb_true_r. split; reflexivity.
Qed.

Lemma grayscale_option_ignored_with_edges_witness :
  nth_error [one_pixel] 0 = Some one_pixel
  /\ ImageProcessor.processImage exp_series 0%nat
       (ImageProcessor.mkProcessingOptions 50 150 1 false true) [one_pixel]
     = ImageProcessor.processImage exp_series 0%nat
         (ImageProcessor.mkProcessingOptions 50 150 1 true true) [one_pixel].
Proof.
  split; [reflexivity|].
  apply (proj1 grayscale_option_ignored_with_edges exp_series 0%nat [one_pixel]
           one_pixel 50%float 150%float 1 false true eq_refl).
Defined.
